(** * lkh3skeleton: candidate sets, greedy tour and 2-opt on a linked tour

    Shallow embedding of [src/lkh3skeleton.c].  The global [nodes] array is a
    list of [Node.t] records that every function receives and returns; [N] is
    its length.  Heap blocks are arrays of cells that may still be
    uninitialised, and every access that the C code performs through an index
    is checked: an index outside its block or a read of an uninitialised cell
    is a [Fault].  The [while] and [do]-[while] loops take a fuel argument and
    answer [Timeout] when it runs out.

    Numbers: the source computes in [double].  [Binary64.dist] is [dist]
    operation for operation in IEEE 754 binary64, and what is stated about
    the distance function itself is stated of it.  The tour-level development
    uses an exact idealisation: coordinates are rationals, [dist] is the
    integer nearest to the true Euclidean distance (halves go up), and
    lengths, costs and gains are integers in [Z].  The two distance functions
    return the same values on every instance on which a run is evaluated
    below (lemma [dist_agrees_on_instances]).  Sums and differences of
    integer-valued doubles are exact while they stay below 2^53, and the
    conversion of a difference of lengths to [int] in [cmp_edges] is defined
    while it stays below 2^31; statements that need this carry the
    hypothesis [short_edges]. *)

From Stdlib Require Import ZArith QArith Qround Lia Lqa.
From Stdlib Require Floats.
From stdpp Require Import base tactics option list numbers sorting sets.

Local Open Scope Z_scope.

(** ** Outcomes of a run *)

Inductive outcome (A : Type) : Type :=
  | Done (a : A)
  | Fault
  | Timeout.
Arguments Done {A} a.
Arguments Fault {A}.
Arguments Timeout {A}.

#[global] Instance outcome_ret : MRet outcome := fun A a => Done a.
#[global] Instance outcome_bind : MBind outcome := fun A B f m =>
  match m with
  | Done a => f a
  | Fault => Fault
  | Timeout => Timeout
  end.

(** [for (i = lo; i < lo + n; ++i) body] *)
Fixpoint for_range {St : Type} (body : nat → St → outcome St)
    (lo n : nat) (s : St) : outcome St :=
  match n with
  | O => Done s
  | S n' => s' ← body lo s; for_range body (S lo) n' s'
  end.

(** ** Heap blocks *)

(** A block of cells; [None] is a cell that was never written. *)
Abbreviation array A := (list (option A)).

Definition malloc {A} (n : nat) : array A := replicate n None.
Definition calloc {A} (n : nat) (zero : A) : array A := replicate n (Some zero).

Definition aget {A} (a : array A) (i : nat) : outcome A :=
  match a !! i with
  | Some (Some v) => Done v
  | _ => Fault
  end.

Definition aset {A} (a : array A) (i : nat) (v : A) : outcome (array A) :=
  if decide (i < length a)%nat then Done (<[i := Some v]> a) else Fault.

(** ** Data model *)

Module Edge.
Record t : Type := mk {
  to : nat;        (* destination node index *)
  alpha : Z;       (* placeholder for alpha-value *)
  length : Z       (* Euclidean distance *)
}.
End Edge.

Module Node.
Record t : Type := mk {
  id : Z;                       (* 1-based TSPLIB id *)
  x : Q;
  y : Q;
  cand_count : nat;             (* current # of candidates *)
  cands : array Edge.t;         (* dynamically sized array *)
  prev : option nat;            (* None: not written yet *)
  next : option nat
}.

Definition set_cands (n : t) (k : nat) (c : array Edge.t) : t :=
  mk (id n) (x n) (y n) k c (prev n) (next n).
Definition set_prev (n : t) (p : option nat) : t :=
  mk (id n) (x n) (y n) (cand_count n) (cands n) p (next n).
Definition set_next (n : t) (p : option nat) : t :=
  mk (id n) (x n) (y n) (cand_count n) (cands n) (prev n) p.
End Node.

(** The global instance data: [nodes] with [N = length nodes]. *)
Abbreviation state := (list Node.t).

Definition node (s : state) (i : nat) : outcome Node.t :=
  match s !! i with
  | Some n => Done n
  | None => Fault
  end.

Definition link (o : option nat) : outcome nat :=
  match o with
  | Some v => Done v
  | None => Fault
  end.

Definition get_next (s : state) (i : nat) : outcome nat :=
  n ← node s i; link (Node.next n).
Definition get_prev (s : state) (i : nat) : outcome nat :=
  n ← node s i; link (Node.prev n).

Definition update (s : state) (i : nat) (f : Node.t → Node.t) : outcome state :=
  n ← node s i; Done (<[i := f n]> s).

(** What [read_tsplib] leaves behind for the records [(id, x, y)] of the
    coordinate section: coordinates set, everything else not yet written. *)
Definition read_tsplib (records : list (Z * Q * Q)) : state :=
  map (λ r, Node.mk r.1.1 r.1.2 r.2 0 [] None None) records.

(** ** Distance *)

(** [round(sqrt(q))] for [0 <= q], with the square root taken exactly: the
    integer [r] with [r - 1/2 <= sqrt q < r + 1/2]. *)
Definition round_sqrt (q : Q) : Z := (Z.sqrt (Qfloor (4 * q)%Q) + 1) / 2.

Definition dist (s : state) (i j : nat) : outcome Z :=
  ni ← node s i;
  nj ← node s j;
  let dx := (Node.x ni - Node.x nj)%Q in
  let dy := (Node.y ni - Node.y nj)%Q in
  Done (round_sqrt (dx * dx + dy * dy)).

(** ** Candidate set (k nearest by distance) *)

Definition K_CANDIDATES : nat := 20.

(** [e1->length - e2->length]: the difference of two integer-valued lengths,
    which is what its conversion to [int] gives as long as it lies between
    -2^31 and 2^31 (outside, the conversion is undefined). *)
Definition cmp_edges (e1 e2 : Edge.t) : Z := Edge.length e1 - Edge.length e2.

Section CandidateSet.

(** The C library's [qsort], as a function on the sorted prefix. *)
Variable qsort : (Edge.t → Edge.t → Z) → list Edge.t → list Edge.t.

(** [qsort(cands, k, sizeof(Edge), cmp_edges)]: cells [0 .. k-1] are read,
    sorted and written back. *)
Definition qsort_block (cands : array Edge.t) (k : nat) : outcome (array Edge.t) :=
  es ← for_range (λ i acc, e ← aget cands i; Done (acc ++ [e])) 0 k [];
  Done ((Some <$> qsort cmp_edges es) ++ drop k cands).

(** Body of the loop over [j] for node [i]; the loop state is the block and
    the fill counter [k]. *)
Definition cand_step (s : state) (i j : nat) (st : array Edge.t * nat)
    : outcome (array Edge.t * nat) :=
  let '(cands, k) := st in
  if decide (j ≠ i) then
    length ← dist s i j;
    if decide (k < K_CANDIDATES)%nat then
      cands ← aset cands k (Edge.mk j 0 length);
      let k := S k in
      if decide (k = K_CANDIDATES) then
        cands ← qsort_block cands k; Done (cands, k)
      else Done (cands, k)
    else
      worst ← aget cands (K_CANDIDATES - 1);
      if decide (length < Edge.length worst) then
        cands ← aset cands (K_CANDIDATES - 1) (Edge.mk j 0 length);
        cands ← qsort_block cands K_CANDIDATES;
        Done (cands, k)
      else Done (cands, k)
  else Done st.

(** Modelled from the spec: the declaration of the fill counter [k] is missing
    from the source; following the spec's design notes it starts at zero for
    every node. *)
Definition k_init : nat := 0.

Definition node_candidates (s : state) (i : nat) : outcome (array Edge.t) :=
  st ← for_range (cand_step s i) 0 (length s) (malloc K_CANDIDATES, k_init);
  Done st.1.

Definition build_candidate_set (s : state) : outcome state :=
  for_range (λ i s,
      cands ← node_candidates s i;
      (* store sorted cands *)
      update s i (λ n, Node.set_cands n K_CANDIDATES cands))
    0 (length s) s.

End CandidateSet.

(** ** Greedy nearest-neighbor tour *)

(** The start value [1e100] of [best_d].  No double lies between 10^100 and
    the double that the literal denotes ([Binary64.best_d_init]), so a
    double is below the one exactly when it is below the other. *)
Definition best_d_init : Z := 10 ^ 100.

(** Loop state of [build_initial_tour]. *)
Module Greedy.
Record t : Type := mk {
  current : nat;
  visited : array bool;
  order : array nat;
  cost : Z
}.
End Greedy.

(** The scan over [j]: [(best_d, best_j)], with [None] for [best_j = -1]. *)
Definition nearest_step (s : state) (vis : array bool) (cur j : nat)
    (best : Z * option nat) : outcome (Z * option nat) :=
  v ← aget vis j;
  if negb v then
    d ← dist s cur j;
    if decide (d < best.1) then Done (d, Some j) else Done best
  else Done best.

Definition greedy_step (s : state) (k : nat) (g : Greedy.t) : outcome Greedy.t :=
  best ← for_range (nearest_step s (Greedy.visited g) (Greedy.current g))
           0 (length s) (best_d_init, None);
  best_j ← link best.2;
  vis ← aset (Greedy.visited g) best_j true;
  ord ← aset (Greedy.order g) k best_j;
  Done (Greedy.mk best_j vis ord (Greedy.cost g + best.1)).

Definition build_initial_tour (s : state) (order : array nat)
    : outcome (array nat * Z) :=
  let N := length s in
  vis ← aset (calloc N false) 0%nat true;
  ord ← aset order 0%nat 0%nat;
  g ← for_range (greedy_step s) 1 (N - 1) (Greedy.mk 0 vis ord 0);
  (* close *)
  last ← aget (Greedy.order g) (N - 1);
  first ← aget (Greedy.order g) 0%nat;
  d ← dist s last first;
  Done (Greedy.order g, Greedy.cost g + d).

Definition tour_from_order (s : state) (order : array nat) : outcome state :=
  let N := length s in
  for_range (λ i s,
      let j := ((i + 1) `mod` N)%nat in
      oi ← aget order i;
      oj ← aget order j;
      s ← update s oi (λ n, Node.set_next n (Some oj));
      update s oj (λ n, Node.set_prev n (Some oi)))
    0 N s.

(** ** Simple 2-opt improvement *)

(** The [do]-[while] of [tour_length], entered with [curr] and the length
    summed so far. *)
Fixpoint tour_length_loop (fuel : nat) (s : state) (start curr : nat)
    (length : Z) : outcome Z :=
  match fuel with
  | O => Timeout
  | S fuel' =>
      next ← get_next s curr;
      d ← dist s curr next;
      let length := length + d in
      if decide (next ≠ start) then tour_length_loop fuel' s start next length
      else Done length
  end.

Definition tour_length (fuel : nat) (s : state) : outcome Z :=
  tour_length_loop fuel s 0 0 0.

Definition tolerance : Q := 1 # 1000000000.

(** [delta > 1e-9], for a gain that is an integer *)
Definition exceeds_tolerance (delta : Z) : bool :=
  negb (Qle_bool (inject_Z delta) tolerance).

(** [while (p != c)]: swap the two links of [p] and move on to the old
    successor. *)
Fixpoint reverse_loop (fuel : nat) (c p : nat) (s : state) : outcome state :=
  if decide (p ≠ c) then
    match fuel with
    | O => Timeout
    | S fuel' =>
        n ← node s p;
        tmp ← link (Node.next n);
        let n := Node.set_next n (Node.prev n) in
        let n := Node.set_prev n (Some tmp) in
        reverse_loop fuel' c tmp (<[p := n]> s)
    end
  else Done s.

(** Lines 184-198: reverse segment [b .. c], then reconnect. *)
Definition reverse_segment (fuel : nat) (a b c d : nat) (s : state)
    : outcome state :=
  s ← reverse_loop fuel c b s;
  s ← update s a (λ n, Node.set_next n (Some c));
  s ← update s b (λ n, Node.set_prev n (Some d));
  s ← update s c (λ n, Node.set_prev n (Some a));
  update s d (λ n, Node.set_next n (Some b)).

(** Body of the loop over the candidates of [a]; [b] was read before that
    loop started.  The loop state is the tour and the [improved] flag. *)
Definition two_opt_try (fuel : nat) (a b k : nat) (st : state * bool)
    : outcome (state * bool) :=
  let s := st.1 in
  na ← node s a;
  e ← aget (Node.cands na) k;
  let c := Edge.to e in
  d ← get_next s c;
  if decide (c = a ∨ c = b ∨ d = a) then Done st
  else
    dab ← dist s a b;
    dcd ← dist s c d;
    dac ← dist s a c;
    dbd ← dist s b d;
    let delta := dab + dcd - dac - dbd in
    if exceeds_tolerance delta then
      s ← reverse_segment fuel a b c d s;
      Done (s, true)
    else Done st.

(** Body of the loop over the nodes. *)
Definition two_opt_node (fuel : nat) (i : nat) (st : state * bool)
    : outcome (state * bool) :=
  let a := i in
  b ← get_next st.1 a;
  na ← node st.1 a;
  for_range (two_opt_try fuel a b) 0 (Node.cand_count na) st.

Definition two_opt_pass (fuel : nat) (s : state) : outcome (state * bool) :=
  for_range (two_opt_node fuel) 0 (length s) (s, false).

(** [while (two_opt_pass()) {}]: at most [passes] passes, each reversal loop
    with [fuel] iterations. *)
Fixpoint two_opt_local_search (passes fuel : nat) (s : state) : outcome state :=
  match passes with
  | O => Timeout
  | S passes' =>
      r ← two_opt_pass fuel s;
      if r.2 : bool then two_opt_local_search passes' fuel r.1 else Done r.1
  end.

(** ** Output *)

(** The numbers [print_tour] writes. *)
Definition print_tour (n : nat) (order : array nat) : outcome (list nat) :=
  for_range (λ i out, o ← aget order i; Done (out ++ [o])) 0 n [].

Module Output.
Record t : Type := mk {
  initial_length : Z;
  optimized_length : Z;
  tour : list nat
}.
End Output.

Section Main.

Variable qsort : (Edge.t → Edge.t → Z) → list Edge.t → list Edge.t.

(** [main] after the argument check, on the records that [read_tsplib]
    parsed.  [order] is released right after [tour_from_order] and the same
    pointer is handed to [print_tour] at the end; the block is taken to hold
    what it held when it was released. *)
Definition main (fuel : nat) (records : list (Z * Q * Q)) : outcome Output.t :=
  let s := read_tsplib records in
  let N := length s in
  s ← build_candidate_set qsort s;
  let order := malloc N in
  r ← build_initial_tour s order;
  let order := r.1 in
  let length0 := r.2 in
  s ← tour_from_order s order;
  s ← two_opt_local_search fuel fuel s;
  length1 ← tour_length fuel s;
  out ← print_tour N order;
  Done (Output.mk length0 length1 out).

(** The tour structure at the moment [two_opt_local_search] is entered. *)
Definition initial_tour (records : list (Z * Q * Q)) : outcome state :=
  let s := read_tsplib records in
  let N := length s in
  s ← build_candidate_set qsort s;
  r ← build_initial_tour s (malloc N);
  tour_from_order s r.1.

End Main.

(** ** A concrete [qsort] *)

Fixpoint insert_edge (cmp : Edge.t → Edge.t → Z) (e : Edge.t)
    (l : list Edge.t) : list Edge.t :=
  match l with
  | [] => [e]
  | e' :: l' =>
      if decide (cmp e e' <= 0) then e :: l else e' :: insert_edge cmp e l'
  end.

(** Insertion sort; any other order-correct sort gives the same block when
    the lengths in the block are pairwise distinct. *)
Definition isort (cmp : Edge.t → Edge.t → Z) (l : list Edge.t) : list Edge.t :=
  foldr (insert_edge cmp) [] l.

(** The test of [two_opt_try] alone: the pair [(c, d)] of an accepted move. *)
Definition two_opt_check (a b k : nat) (s : state) : outcome (option (nat * nat)) :=
  na ← node s a;
  e ← aget (Node.cands na) k;
  let c := Edge.to e in
  d ← get_next s c;
  if decide (c = a ∨ c = b ∨ d = a) then Done None
  else
    dab ← dist s a b;
    dcd ← dist s c d;
    dac ← dist s a c;
    dbd ← dist s b d;
    let delta := dab + dcd - dac - dbd in
    if exceeds_tolerance delta then Done (Some (c, d)) else Done None.

(** ** The tour invariants *)

Definition successors (s : state) : list (option nat) := Node.next <$> s.
Definition predecessors (s : state) : list (option nat) := Node.prev <$> s.

(** [successor[predecessor[i]] == i] and [predecessor[successor[i]] == i]. *)
Definition links_inverse_at (s : state) (i : nat) : Prop :=
  (p ← get_prev s i; get_next s p) = Done i ∧
  (n ← get_next s i; get_prev s n) = Done i.

Definition links_inverse (s : state) : Prop :=
  Forall (links_inverse_at s) (seq 0 (length s)).

(** The nodes met on [n] steps along [next], starting at [p]. *)
Fixpoint walk (s : state) (n : nat) (p : nat) : list nat :=
  match n with
  | O => []
  | S n' =>
      p :: match get_next s p with
           | Done q => walk s n' q
           | _ => []
           end
  end.

(** The node reached after [n] steps along [next]. *)
Fixpoint steps (s : state) (n : nat) (p : nat) : outcome nat :=
  match n with
  | O => Done p
  | S n' => q ← get_next s p; steps s n' q
  end.

(** Following [next] from [i] visits all [N] nodes exactly once and returns
    to [i]. *)
Definition single_cycle_from (s : state) (i : nat) : Prop :=
  walk s (length s) i ≡ₚ seq 0 (length s) ∧ steps s (length s) i = Done i.

Definition single_cycle (s : state) : Prop :=
  Forall (single_cycle_from s) (seq 0 (length s)).

Definition valid_tour (s : state) : Prop := links_inverse s ∧ single_cycle s.

#[global] Instance outcome_eq_dec {A} `{EqDecision A} : EqDecision (outcome A).
Proof. solve_decision. Defined.

#[global] Instance links_inverse_at_dec (s : state) (i : nat) :
  Decision (links_inverse_at s i).
Proof. unfold links_inverse_at. apply _. Defined.

#[global] Instance single_cycle_from_dec (s : state) (i : nat) :
  Decision (single_cycle_from s i).
Proof. unfold single_cycle_from. apply _. Defined.

#[global] Instance links_inverse_dec (s : state) : Decision (links_inverse s).
Proof. unfold links_inverse. apply _. Defined.

#[global] Instance single_cycle_dec (s : state) : Decision (single_cycle s).
Proof. unfold single_cycle. apply _. Defined.

#[global] Instance valid_tour_dec (s : state) : Decision (valid_tour s).
Proof. unfold valid_tour. apply _. Defined.

(** Modelled from the spec: [TourStructure.order()], absent from the source,
    reconstructs the visiting order by one traversal along [next] from the
    anchor node 0, stopping when the anchor is met again. *)
Fixpoint order_loop (fuel : nat) (s : state) (curr : nat) (acc : list nat)
    : outcome (list nat) :=
  match fuel with
  | O => Timeout
  | S fuel' =>
      next ← get_next s curr;
      let acc := acc ++ [curr] in
      if decide (next ≠ 0%nat) then order_loop fuel' s next acc else Done acc
  end.

Definition tour_order (fuel : nat) (s : state) : outcome (list nat) :=
  order_loop fuel s 0 [].

(** ** Instances used below *)

Definition points (l : list (Z * Z)) : list (Z * Q * Q) :=
  imap (λ i p, (Z.of_nat i + 1, inject_Z p.1, inject_Z p.2)) l.

(** [n] points on the x axis at [m], [3m], [9m], ... *)
Definition chain (m : Z) (n : nat) : list (Z * Z) :=
  map (λ i, (m * 3 ^ Z.of_nat i, 0)) (seq 0 n).

(** 21 nodes at 1, 2, 4, ..., 2^20 on the x axis. *)
Definition doubling : list (Z * Q * Q) :=
  points (map (λ i, (2 ^ Z.of_nat i, 0)) (seq 0 21)).

(** 21 nodes: four near the origin, then a chain at 50, 150, 450, ... *)
Definition cluster : list (Z * Q * Q) :=
  points ([(5, 0); (0, 1); (-3, -5); (1, -2)] ++ chain 50 17).

(** 21 collinear nodes: 0, -10, 8, 1, then a chain at 100, 300, 900, ... *)
Definition zigzag : list (Z * Q * Q) :=
  points ([(0, 0); (-10, 0); (8, 0); (1, 0)] ++ chain 100 17).

(** 21 nodes: (0,0), (0,20), then 19 nodes on the line from (100,0) to
    (900,800). *)
Definition cross : list (Z * Q * Q) :=
  points ([(0, 0); (0, 20)]
          ++ map (λ t, (100 + 2 * (t - 1), 2 * (t - 1)))
               [1; 2; 4; 8; 13; 21; 31; 45; 66; 81; 97; 123; 148; 182; 204;
                252; 290; 361; 401]).

(** Three collinear nodes. *)
Definition three : list (Z * Q * Q) := points [(0, 0); (10, 0); (5, 0)].

(** Two nodes a quarter of a unit apart. *)
Definition close_pair : list (Z * Q * Q) := [(1, 0%Q, 0%Q); (2, (1 # 4)%Q, 0%Q)].

(** Two nodes 10^101 apart. *)
Definition far_pair : list (Z * Q * Q) := points [(0, 0); (10 ^ 101, 0)].

(** A single node. *)
Definition single : list (Z * Q * Q) := points [(0, 0)].

(** The tour structure handed to the local search, with [isort] for the
    library sort. *)
Definition tour_of (records : list (Z * Q * Q)) : state :=
  match initial_tour isort records with
  | Done s => s
  | _ => []
  end.

Definition state_of {A} (m : outcome (state * A)) : state :=
  match m with
  | Done r => r.1
  | _ => []
  end.

(** [zigzag] during the first pass: after the nodes 0 and 1 have been
    treated, and after candidate 3 of node 2. *)
Definition zigzag_1 : state :=
  state_of (for_range (two_opt_node 30) 0 2 (tour_of zigzag, false)).
Definition zigzag_2 : state :=
  state_of (two_opt_try 30 2 3 3 (zigzag_1, true)).

(** [cross] after the first accepted move of the first pass. *)
Definition cross_1 : state :=
  state_of (two_opt_try 30 1 2 19 (tour_of cross, false)).

(** [cluster] after the local search. *)
Definition cluster_final : state :=
  state_of (s ← two_opt_local_search 30 30 (tour_of cluster); Done (s, tt)).

(** ** Notions used in the statements *)

(** Square of the Euclidean distance between two nodes. *)
Definition sq_dist (n1 n2 : Node.t) : Q :=
  let dx := (Node.x n1 - Node.x n2)%Q in
  let dy := (Node.y n1 - Node.y n2)%Q in
  (dx * dx + dy * dy)%Q.

(** Sum of the distances between consecutive nodes of a path. *)
Fixpoint path_cost (s : state) (l : list nat) : outcome Z :=
  match l with
  | a :: t =>
      match t with
      | b :: _ => d ← dist s a b; c ← path_cost s t; Done (d + c)
      | [] => Done 0
      end
  | [] => Done 0
  end.

(** The same, plus the distance from the last node back to the first. *)
Definition tour_cost (s : state) (l : list nat) : outcome Z :=
  match l, last l with
  | a :: _, Some z => p ← path_cost s l; d ← dist s z a; Done (p + d)
  | _, _ => Done 0
  end.

(** Position [k] of [ord] holds the unvisited node nearest to the node at
    position [k - 1], the lowest index among the nearest ones. *)
Definition greedy_choice (s : state) (ord : list nat) (k : nat) : Prop :=
  ∃ (p c : nat) (d : Z),
    ord !! (k - 1)%nat = Some p ∧ ord !! k = Some c ∧ dist s p c = Done d ∧
    (c ∉ take k ord) ∧
    ∀ (j : nat) (dj : Z),
      (j < length s)%nat → j ∉ take k ord → dist s p j = Done dj →
      d < dj ∨ (d = dj ∧ (c ≤ j)%nat).

(** Every rounded distance of the instance is below the start value of
    [best_d]. *)
Definition below_sentinel (s : state) : Prop :=
  ∀ (i j : nat) (d : Z), dist s i j = Done d → d < best_d_init.

(** What the scan over [j] has found after the first [i] nodes, when the
    visited nodes are those of [ord]. *)
Definition scan_inv (s : state) (ord : list nat) (cur i : nat)
    (best : Z * option nat) : Prop :=
  match best.2 with
  | None => best.1 = best_d_init ∧ ∀ j, (j < i)%nat → j ∈ ord
  | Some c =>
      (c < i)%nat ∧ (c ∉ ord) ∧ dist s cur c = Done best.1 ∧
      ∀ j dj, (j < i)%nat → j ∉ ord → dist s cur j = Done dj →
        best.1 < dj ∨ (best.1 = dj ∧ (c ≤ j)%nat)
  end.

(** The state of [build_initial_tour] before iteration [k]: [ord] is the
    part of the order written so far. *)
Definition greedy_inv (s : state) (k : nat) (g : Greedy.t) : Prop :=
  ∃ ord : list nat,
    length ord = k ∧
    length (Greedy.order g) = length s ∧
    take k (Greedy.order g) = Some <$> ord ∧
    NoDup ord ∧
    Forall (λ j, (j < length s)%nat) ord ∧
    length (Greedy.visited g) = length s ∧
    (∀ j, (j < length s)%nat →
       Greedy.visited g !! j = Some (Some (bool_decide (j ∈ ord)))) ∧
    last ord = Some (Greedy.current g) ∧
    ord !! 0%nat = Some 0%nat ∧
    (∀ k', (1 ≤ k' < k)%nat → greedy_choice s ord k') ∧
    path_cost s ord = Done (Greedy.cost g).

(** [e1] may stand before [e2] in a block sorted with [cmp_edges]. *)
Definition edge_le (e1 e2 : Edge.t) : Prop := cmp_edges e1 e2 ≤ 0.

(** The contract of the library sort, for the comparison [cmp_edges]. *)
Definition sorts (qsort : (Edge.t → Edge.t → Z) → list Edge.t → list Edge.t)
    : Prop :=
  ∀ l, qsort cmp_edges l ≡ₚ l ∧ Sorted edge_le (qsort cmp_edges l).

(** The nodes other than [i]. *)
Definition others (n i : nat) : list nat := filter (λ j, j ≠ i) (seq 0 n).

(** From every node, the rounded distances to the other nodes are pairwise
    distinct. *)
Definition distinct_distances (s : state) : Prop :=
  Forall (λ i, NoDup (dist s i <$> others (length s) i)) (seq 0 (length s)).

#[global] Instance distinct_distances_dec (s : state) :
  Decision (distinct_distances s).
Proof. unfold distinct_distances. apply _. Defined.

(** The block and fill counter of node [i] before candidate [j] is looked
    at: [es] are the cells written so far. *)
Definition cand_inv (s : state) (i j : nat) (st : list (option Edge.t) * nat)
    : Prop :=
  ∃ es : list Edge.t,
    st.1 = (Some <$> es) ++ replicate (K_CANDIDATES - length es) None ∧
    st.2 = length es ∧
    (length es ≤ K_CANDIDATES)%nat ∧
    NoDup (Edge.length <$> es) ∧
    Forall (λ e, ∃ j', (j' < j)%nat ∧ j' ≠ i ∧
                       dist s i j' = Done (Edge.length e)) es.

(** The coordinates of the nodes. *)
Definition coords (s : state) : list (Q * Q) := (λ n, (Node.x n, Node.y n)) <$> s.

(** The links written by the first [i] iterations of [tour_from_order]. *)
Definition tour_inv (n : nat) (ord : list nat) (i : nat) (s : state) : Prop :=
  length s = n ∧
  ∀ i' a b, (i' < i)%nat → ord !! i' = Some a →
    ord !! ((i' + 1) `mod` n)%nat = Some b →
    get_next s a = Done b ∧ get_prev s b = Done a.

(** ** Further notions used in the statements *)

(** [seg] is a path along [next] whose last node has [c] as successor. *)
Fixpoint next_path (s : state) (seg : list nat) (c : nat) : Prop :=
  match seg with
  | [] => True
  | p :: rest => get_next s p = Done (default c (head rest)) ∧ next_path s rest c
  end.

(** What the tour code never writes: id, coordinates and candidates. *)
Definition payload (n : Node.t) : Z * Q * Q * nat * array Edge.t :=
  (Node.id n, Node.x n, Node.y n, Node.cand_count n, Node.cands n).

Definition payloads (s : state) : list (Z * Q * Q * nat * array Edge.t) :=
  payload <$> s.

(** [e] is the candidate edge from [i] to another node, with its distance. *)
Definition candidate_edge (s : state) (i : nat) (e : Edge.t) : Prop :=
  Edge.to e ≠ i ∧ Edge.alpha e = 0 ∧ dist s i (Edge.to e) = Done (Edge.length e).

(** [es] are [K_CANDIDATES] nearest other nodes of [i], nearest first: no
    node outside [es] is nearer to [i] than a node of [es]. *)
Definition nearest_candidates (s : state) (i : nat) (es : list Edge.t) : Prop :=
  length es = K_CANDIDATES ∧
  Sorted edge_le es ∧
  NoDup (Edge.to <$> es) ∧
  Forall (candidate_edge s i) es ∧
  ∀ j dj, (j < length s)%nat → j ≠ i → j ∉ Edge.to <$> es →
    dist s i j = Done dj → Forall (λ e, Edge.length e ≤ dj) es.

(** The block and fill counter of node [i] before node [j] is looked at, for
    a library sort that meets its contract. *)
Definition nearest_inv (s : state) (i j : nat) (st : array Edge.t * nat) : Prop :=
  ∃ es : list Edge.t,
    st.1 = (Some <$> es) ++ replicate (K_CANDIDATES - length es) None ∧
    st.2 = length es ∧
    (length es ≤ K_CANDIDATES)%nat ∧
    NoDup (Edge.to <$> es) ∧
    Forall (λ e, candidate_edge s i e ∧ (Edge.to e < j)%nat) es ∧
    ((length es < K_CANDIDATES)%nat → Edge.to <$> es = others j i) ∧
    (length es = K_CANDIDATES →
       Sorted edge_le es ∧
       ∀ j' dj, (j' < j)%nat → j' ≠ i → j' ∉ Edge.to <$> es →
         dist s i j' = Done dj → Forall (λ e, Edge.length e ≤ dj) es).

(** The same while the block is not full: the cells written are the nodes
    met so far, in index order. *)
Definition index_inv (s : state) (i j : nat) (st : array Edge.t * nat) : Prop :=
  ∃ es : list Edge.t,
    st.1 = (Some <$> es) ++ replicate (K_CANDIDATES - length es) None ∧
    st.2 = length es ∧
    Edge.to <$> es = others j i ∧
    Forall (candidate_edge s i) es.

(** Every link is written and points to a node. *)
Definition linked (s : state) : Prop :=
  ∀ i n, s !! i = Some n →
    ∃ p q, Node.prev n = Some p ∧ Node.next n = Some q ∧
           (p < length s)%nat ∧ (q < length s)%nat.

(** Every candidate cell that is counted is written and points to a node. *)
Definition candidates_written (s : state) : Prop :=
  ∀ i n, s !! i = Some n →
    ∀ k, (k < Node.cand_count n)%nat →
      ∃ e, Node.cands n !! k = Some (Some e) ∧ (Edge.to e < length s)%nat.

(** A second library sort: insertion sort of the block read backwards. *)
Definition isort_rev (cmp : Edge.t → Edge.t → Z) (l : list Edge.t) : list Edge.t :=
  isort cmp (reverse l).

(** A node with its id forgotten. *)
Definition strip (n : Node.t) : Node.t :=
  Node.mk 0 (Node.x n) (Node.y n) (Node.cand_count n) (Node.cands n)
    (Node.prev n) (Node.next n).

Definition strip_ids (s : state) : state := strip <$> s.

(** [main] from the state that [read_tsplib] left. *)
Definition main_on (qsort : (Edge.t → Edge.t → Z) → list Edge.t → list Edge.t)
    (fuel : nat) (s : state) : outcome Output.t :=
  let N := length s in
  s ← build_candidate_set qsort s;
  let order := malloc N in
  r ← build_initial_tour s order;
  let order := r.1 in
  let length0 := r.2 in
  s ← tour_from_order s order;
  s ← two_opt_local_search fuel fuel s;
  length1 ← tour_length fuel s;
  out ← print_tour N order;
  Done (Output.mk length0 length1 out).

(** [main] up to the second [printf]: the two lengths it prints before
    [print_tour] is called. *)
Definition main_lengths (qsort : (Edge.t → Edge.t → Z) → list Edge.t → list Edge.t)
    (fuel : nat) (records : list (Z * Q * Q)) : outcome (Z * Z) :=
  let s := read_tsplib records in
  let N := length s in
  s ← build_candidate_set qsort s;
  let order := malloc N in
  r ← build_initial_tour s order;
  let order := r.1 in
  let length0 := r.2 in
  s ← tour_from_order s order;
  s ← two_opt_local_search fuel fuel s;
  length1 ← tour_length fuel s;
  Done (length0, length1).

(** Every rounded distance is below 2^30.  Then the difference of two
    lengths fits an [int], so that [cmp_edges] is their exact difference in
    the source too, and sums of up to 2^22 distances and the gain of a move
    are integers below 2^53, exact in double precision. *)
Definition short_edges (s : state) : Prop :=
  ∀ (i j : nat) (d : Z), dist s i j = Done d → d < 2 ^ 30.

(** Executable form of [short_edges]. *)
Definition short_edges_b (s : state) : bool :=
  forallb (λ i,
      forallb (λ j,
          match dist s i j with
          | Done d => bool_decide (d < 2 ^ 30)
          | _ => true
          end)
        (seq 0 (length s)))
    (seq 0 (length s)).

(** The result of a computation, passed through [g]. *)
Definition outcome_map {A B} (g : A → B) (m : outcome A) : outcome B :=
  a ← m; Done (g a).

(** What the scan over [j] has found after the first [i] nodes, with no
    assumption on the distances: [None] means that every unvisited node met
    so far is at [1e100] or more. *)
Definition scan_found (s : state) (ord : list nat) (cur i : nat)
    (best : Z * option nat) : Prop :=
  match best.2 with
  | None =>
      best.1 = best_d_init ∧
      ∀ j dj, (j < i)%nat → j ∉ ord → dist s cur j = Done dj → best_d_init ≤ dj
  | Some c =>
      (c < i)%nat ∧ (c ∉ ord) ∧ dist s cur c = Done best.1 ∧
      best.1 < best_d_init ∧
      ∀ j dj, (j < i)%nat → j ∉ ord → dist s cur j = Done dj →
        best.1 < dj ∨ (best.1 = dj ∧ (c ≤ j)%nat)
  end.

(** Executable form of [linked]. *)
Definition linked_b (s : state) : bool :=
  forallb (λ n,
      match Node.prev n, Node.next n with
      | Some p, Some q =>
          bool_decide (p < length s)%nat && bool_decide (q < length s)%nat
      | _, _ => false
      end) s.

(** ** Double precision *)

(** The exact distance between two nodes of an instance as read. *)
Definition dist_of (records : list (Z * Q * Q)) (i j : nat) : outcome Z :=
  dist (read_tsplib records) i j.

(** [dist] (lines 29-33) once more, operation for operation in IEEE 754
    binary64 on Rocq's primitive floats: two subtractions, two products, a
    sum and a square root, each rounded to nearest-even on its own, then
    [round]. *)
Module Binary64.
Import PrimFloat SpecFloat.

(** The two fields of a [Node] that [dist] reads. *)
Record point : Type := mk { x : float; y : float }.

(** C99 [round] on the specification of a double: the nearest integer,
    halves away from zero; zeros, infinities and NaN are returned as they
    are, and so is every double with a non-negative exponent, which is an
    integer already. *)
Definition SFround (v : spec_float) : spec_float :=
  match v with
  | S754_finite s m e =>
      if 0 <=? e then v
      else
        let q := Z.shiftr (Zpos m) (- e) in
        let r := Z.land (Zpos m) (Z.ones (- e)) in
        let n := if 2 ^ (- e - 1) <=? r then q + 1 else q in
        binary_normalize FloatOps.prec FloatOps.emax (cond_Zopp s n) 0 s
  | _ => v
  end.

Definition round (v : float) : float :=
  FloatOps.SF2Prim (SFround (FloatOps.Prim2SF v)).

Definition dist (nodes : list point) (i j : nat) : outcome float :=
  ni ← (match nodes !! i with Some n => Done n | None => Fault end);
  nj ← (match nodes !! j with Some n => Done n | None => Fault end);
  let dx := sub (x ni) (x nj) in
  let dy := sub (y ni) (y nj) in
  Done (round (sqrt (add (mul dx dx) (mul dy dy)))).

(** The sign of a double that is not NaN, and the doubles that are neither
    infinite nor NaN. *)
Definition SFsigned (s : bool) (v : spec_float) : Prop :=
  match v with
  | S754_zero s' | S754_infinity s' | S754_finite s' _ _ => s' = s
  | S754_nan => False
  end.

Definition SFfinite (v : spec_float) : Prop :=
  match v with
  | S754_zero _ | S754_finite _ _ _ => True
  | _ => False
  end.

(** Neither infinite nor NaN. *)
Definition finite (p : point) : Prop :=
  is_finite (x p) = true ∧ is_finite (y p) = true.

(** The integer that a double holds, if it holds one. *)
Definition SFto_Z (v : spec_float) : option Z :=
  match v with
  | S754_zero _ => Some 0
  | S754_finite s m e =>
      if 0 <=? e then Some (cond_Zopp s (Zpos m * 2 ^ e))
      else if Z.land (Zpos m) (Z.ones (- e)) =? 0
           then Some (cond_Zopp s (Z.shiftr (Zpos m) (- e)))
           else None
  | _ => None
  end.

Definition to_Z (v : float) : option Z := SFto_Z (FloatOps.Prim2SF v).

(** The double nearest to an integer, and to a rational whose numerator and
    denominator are doubles: what [fscanf] stores for [%lf]. *)
Definition of_Z (n : Z) : float :=
  FloatOps.SF2Prim (binary_normalize FloatOps.prec FloatOps.emax n 0 false).

Definition of_Q (q : Q) : float := div (of_Z (Qnum q)) (of_Z (Zpos (Qden q))).

Definition points (records : list (Z * Q * Q)) : list point :=
  map (λ r, mk (of_Q r.1.2) (of_Q r.2)) records.

(** The start value of [best_d]: the double that the literal [1e100]
    denotes. *)
Definition best_d_init : float := 0x1.249ad2594c37dp+332%float.

(** Two nodes just under 67108864.5 apart. *)
Definition half_way : list point :=
  [mk 0 0; mk 67108864 8192]%float.

(** The exact [dist] and the one in double precision return the same value
    for every pair of nodes of an instance. *)
Definition agrees (records : list (Z * Q * Q)) : bool :=
  let n := length records in
  forallb (λ i,
      forallb (λ j,
          match dist_of records i j, dist (points records) i j with
          | Done d, Done f => Leibniz.eqb f (of_Z d)
          | _, _ => false
          end)
        (seq 0 n))
    (seq 0 n).

End Binary64.

(** * Proofs *)

(** ** Outcomes and bounded loops *)

Lemma bind_Done {A B} (m : outcome A) (f : A → outcome B) (b : B) :
  m ≫= f = Done b ↔ ∃ a, m = Done a ∧ f a = Done b.
Proof.
  destruct m as [a | | ]; cbn; split; try (intros [a' [? ?]]); eauto;
    try discriminate.
  congruence.
Qed.

Lemma bind_Done_l {A B} (a : A) (f : A → outcome B) : Done a ≫= f = f a.
Proof. reflexivity. Qed.

Ltac inv_bind H :=
  let a := fresh "r" in
  let H1 := fresh H in
  apply bind_Done in H; destruct H as (a & H1 & H).

Lemma for_range_split {St} (body : nat → St → outcome St) (n m lo : nat) (s : St) :
  for_range body lo (n + m) s
  = for_range body lo n s ≫= for_range body (lo + n) m.
Proof.
  revert lo s. induction n as [ | n IH ]; intros lo s; cbn.
  - now rewrite Nat.add_0_r.
  - destruct (body lo s) as [s' | | ]; cbn; try reflexivity.
    rewrite IH. now rewrite Nat.add_succ_r.
Qed.

(** Invariant rule: [I k] holds of the loop state before iteration [k]. *)
Lemma for_range_invariant {St} (body : nat → St → outcome St)
    (I : nat → St → Prop) (n lo : nat) (s : St) :
  I lo s →
  (∀ i s, (lo ≤ i < lo + n)%nat → I i s → ∃ s', body i s = Done s' ∧ I (S i) s') →
  ∃ s', for_range body lo n s = Done s' ∧ I (lo + n)%nat s'.
Proof.
  revert lo s. induction n as [ | n IH ]; intros lo s H0 Hstep; cbn.
  - exists s. now rewrite Nat.add_0_r.
  - destruct (Hstep lo s ltac:(lia) H0) as (s1 & E1 & H1). rewrite E1. cbn.
    destruct (IH (S lo) s1 H1) as (s2 & E2 & H2).
    + intros i s0 Hi. apply Hstep. lia.
    + exists s2. split; [ exact E2 | ]. now rewrite Nat.add_succ_r.
Qed.

(** A loop whose body either leaves the state alone or raises a flag: when
    the flag is down at the end, nothing was changed. *)
Lemma for_range_flag {St} (flag : St → bool) (body : nat → St → outcome St)
    (n lo : nat) (s s' : St) :
  (∀ i s s', body i s = Done s' → flag s' = false → s' = s) →
  for_range body lo n s = Done s' → flag s' = false → s' = s.
Proof.
  intros Hbody. revert lo s. induction n as [ | n IH ]; intros lo s H Hf; cbn in H.
  - congruence.
  - inv_bind H. pose proof (IH _ _ H Hf) as E. subst s'. eauto.
Qed.

(** * Properties *)

(** ** Distance *)

Lemma round_sqrt_comp (q1 q2 : Q) : q1 == q2 → round_sqrt q1 = round_sqrt q2.
Proof.
  intros H. unfold round_sqrt.
  assert (E : Qfloor (4 * q1) = Qfloor (4 * q2)); [ | now rewrite E ].
  apply Qfloor_comp. now rewrite H.
Qed.

Lemma round_sqrt_nonneg (q : Q) : 0 ≤ round_sqrt q.
Proof.
  unfold round_sqrt. apply Z.div_pos; [ | lia ].
  pose proof (Z.sqrt_nonneg (Qfloor (4 * q))). lia.
Qed.

Lemma Qfloor_nonneg (q : Q) : (0 <= q)%Q → 0 ≤ Qfloor q.
Proof.
  intros H. change 0 with (Qfloor (inject_Z 0)).
  rewrite Qfloor_Z. rewrite <- (Qfloor_Z 0). now apply Qfloor_resp_le.
Qed.

(** The three integers involved in rounding [sqrt q]. *)
Lemma round_sqrt_bounds (q : Q) :
  (0 <= q)%Q →
  let f := Qfloor (4 * q) in
  let m := Z.sqrt f in
  let r := round_sqrt q in
  0 ≤ f ∧ m * m ≤ f < (m + 1) * (m + 1) ∧ 0 ≤ m ∧ 2 * r - 1 ≤ m ≤ 2 * r.
Proof.
  intros Hq f m r.
  assert (Hf : 0 ≤ f) by (apply Qfloor_nonneg; lra).
  pose proof (Z.sqrt_spec f Hf) as Hm. cbv zeta in Hm. fold m in Hm.
  pose proof (Z.sqrt_nonneg f) as Hm0. fold m in Hm0.
  assert (Hr : r = (m + 1) / 2) by reflexivity.
  pose proof (Z.div_mod (m + 1) 2 ltac:(lia)) as Hd.
  pose proof (Z.mod_pos_bound (m + 1) 2 ltac:(lia)) as Hb.
  rewrite <- Hr in Hd. repeat split; lia.
Qed.

Lemma round_sqrt_spec (q : Q) :
  (0 <= q)%Q →
  let r := round_sqrt q in
  (4 * q < inject_Z ((2 * r + 1) ^ 2))%Q ∧
  (r = 0 ∨ (inject_Z ((2 * r - 1) ^ 2) <= 4 * q)%Q).
Proof.
  intros Hq r.
  destruct (round_sqrt_bounds q Hq) as (Hf & [Hlo Hhi] & Hm & Hr1 & Hr2).
  fold r in Hr1, Hr2.
  set (f := Qfloor (4 * q)) in *. set (m := Z.sqrt f) in *.
  pose proof (Qfloor_le (4 * q)) as Hfl. pose proof (Qlt_floor (4 * q)) as Hfu.
  fold f in Hfl, Hfu.
  split.
  - eapply Qlt_le_trans; [ exact Hfu | ]. rewrite <- Zle_Qle. nia.
  - destruct (decide (r = 0)) as [ | Hr0 ]; [ now left | right ].
    eapply Qle_trans; [ | exact Hfl ]. rewrite <- Zle_Qle.
    pose proof (round_sqrt_nonneg q) as Hr. fold r in Hr. nia.
Qed.

Lemma round_sqrt_zero_iff (q : Q) :
  (0 <= q)%Q → round_sqrt q = 0 ↔ (4 * q < 1)%Q.
Proof.
  intros Hq.
  destruct (round_sqrt_bounds q Hq) as (Hf & [Hlo Hhi] & Hm & Hr1 & Hr2).
  set (f := Qfloor (4 * q)) in *. set (m := Z.sqrt f) in *.
  pose proof (Qfloor_le (4 * q)) as Hfl. pose proof (Qlt_floor (4 * q)) as Hfu.
  fold f in Hfl, Hfu.
  pose proof (round_sqrt_nonneg q) as Hr.
  split.
  - intros E. rewrite E in Hr1, Hr2.
    assert (m = 0) as Em by lia. rewrite Em in Hhi.
    assert (f = 0) as Ef by lia. rewrite Ef in Hfu. exact Hfu.
  - intros Hlt.
    assert (f < 1) as Hf1.
    { rewrite Zlt_Qlt. eapply Qle_lt_trans; [ exact Hfl | exact Hlt ]. }
    assert (m * m ≤ 0) as Hmm by lia.
    assert (m = 0) as Em by (clear - Hmm Hm; clearbody m; nia). lia.
Qed.

Lemma sq_dist_nonneg (n1 n2 : Node.t) : (0 <= sq_dist n1 n2)%Q.
Proof.
  unfold sq_dist. cbv zeta.
  generalize (Node.x n1 - Node.x n2)%Q (Node.y n1 - Node.y n2)%Q.
  intros a b. nra.
Qed.

Lemma sq_dist_sym (n1 n2 : Node.t) : sq_dist n1 n2 == sq_dist n2 n1.
Proof. unfold sq_dist. cbv zeta. ring. Qed.

Lemma sq_dist_self (n : Node.t) : sq_dist n n == 0.
Proof. unfold sq_dist. cbv zeta. ring. Qed.

Lemma dist_lookup (s : state) (i j : nat) (ni nj : Node.t) :
  s !! i = Some ni → s !! j = Some nj →
  dist s i j = Done (round_sqrt (sq_dist ni nj)).
Proof. intros Hi Hj. unfold dist, node. now rewrite Hi, Hj. Qed.

(** The exact [dist] is a non-negative integer, symmetric, zero on the
    diagonal, and the integer nearest to the Euclidean distance (it is the
    [r] with [(2r-1)^2 <= 4 d^2 < (2r+1)^2]); it is zero exactly when the two
    nodes are less than half a unit apart. *)
Lemma dist_exact_nearest (s : state) (i j : nat) (ni nj : Node.t) :
  s !! i = Some ni → s !! j = Some nj →
  ∃ r : Z,
    dist s i j = Done r ∧ dist s j i = Done r ∧ 0 ≤ r ∧
    dist s i i = Done 0 ∧
    (4 * sq_dist ni nj < inject_Z ((2 * r + 1) ^ 2))%Q ∧
    (r = 0 ∨ (inject_Z ((2 * r - 1) ^ 2) <= 4 * sq_dist ni nj)%Q) ∧
    (r = 0 ↔ (4 * sq_dist ni nj < 1)%Q).
Proof.
  intros Hi Hj. exists (round_sqrt (sq_dist ni nj)).
  pose proof (sq_dist_nonneg ni nj) as H0.
  destruct (round_sqrt_spec _ H0) as [Hup Hlo].
  repeat split.
  - now apply dist_lookup.
  - rewrite (dist_lookup s j i nj ni Hj Hi). f_equal.
    apply round_sqrt_comp, sq_dist_sym.
  - apply round_sqrt_nonneg.
  - rewrite (dist_lookup s i i ni ni Hi Hi). f_equal.
    rewrite (round_sqrt_comp _ 0 (sq_dist_self ni)). reflexivity.
  - exact Hup.
  - exact Hlo.
  - now apply round_sqrt_zero_iff.
  - now apply round_sqrt_zero_iff.
Qed.

(** ** Distance in double precision *)

Section binary64.
Import SpecFloat.
Local Abbreviation prec := FloatOps.prec.
Local Abbreviation emax := FloatOps.emax.

(** The sign passed to the rounding function is the sign of its result. *)
Lemma binary_round_aux_abs (s : bool) (m e : Z) (l : location) :
  SFabs (binary_round_aux prec emax s m e l) = binary_round_aux prec emax false m e l.
Proof.
  unfold binary_round_aux.
  destruct (shr_fexp prec emax m e l) as [mrs' e'].
  destruct (shr_fexp _ _ _ _ _) as [mrs'' e''].
  destruct (shr_m mrs''); try done.
  by destruct (_ <=? _).
Qed.

Lemma binary_normalize_opp_abs (z e : Z) :
  SFabs (binary_normalize prec emax (- z) e false) =
  SFabs (binary_normalize prec emax z e false).
Proof.
  destruct z as [ | p | p ]; try done.
  - change (- Z.pos p) with (Z.neg p). cbn [binary_normalize]. unfold binary_round.
    destruct (shl_align _ _ _) as [mz ez]. by rewrite !binary_round_aux_abs.
  - change (- Z.neg p) with (Z.pos p). cbn [binary_normalize]. unfold binary_round.
    destruct (shl_align _ _ _) as [mz ez]. by rewrite !binary_round_aux_abs.
Qed.

Lemma SFsub_abs (a b : spec_float) :
  SFabs (SFsub prec emax a b) = SFabs (SFsub prec emax b a).
Proof.
  destruct a as [sa|sa| |sa ma ea], b as [sb|sb| |sb mb eb];
    try (by destruct sa, sb); try done.
  cbn [SFsub]. rewrite (Z.min_comm eb ea).
  rewrite <- binary_normalize_opp_abs. f_equal. f_equal. lia.
Qed.

Lemma SFmul_abs (v : spec_float) :
  SFmul prec emax v v = SFmul prec emax (SFabs v) (SFabs v).
Proof. by destruct v as [[]|[]| |[] m e]. Qed.

(** [dx * dx] does not depend on the order of the two nodes. *)
Lemma square_sub_sym (a b : PrimFloat.float) :
  PrimFloat.mul (PrimFloat.sub a b) (PrimFloat.sub a b)
  = PrimFloat.mul (PrimFloat.sub b a) (PrimFloat.sub b a).
Proof.
  apply FloatAxioms.Prim2SF_inj.
  rewrite !FloatAxioms.mul_spec, !FloatAxioms.sub_spec.
  unfold FloatAxioms.SF64mul, FloatAxioms.SF64sub.
  rewrite SFmul_abs, (SFmul_abs (SFsub _ _ (FloatOps.Prim2SF b) _)), SFsub_abs.
  reflexivity.
Qed.

(** Rounding a non-negative mantissa gives no NaN. *)
Lemma shr_1_nonneg (mrs : shr_record) : 0 ≤ shr_m mrs → 0 ≤ shr_m (shr_1 mrs).
Proof.
  destruct mrs as [m r s]. cbn [shr_m shr_1].
  destruct m as [ | [p|p| ] | p ]; cbn [shr_m]; lia.
Qed.

Lemma iter_shr_1_nonneg (p : positive) (mrs : shr_record) :
  0 ≤ shr_m mrs → 0 ≤ shr_m (iter_pos shr_1 p mrs).
Proof.
  revert mrs. induction p as [ p IH | p IH | ]; intros mrs H; cbn [iter_pos];
    auto using shr_1_nonneg.
Qed.

Lemma shr_fexp_nonneg (m e : Z) (l : location) :
  0 ≤ m → 0 ≤ shr_m (shr_fexp prec emax m e l).1.
Proof.
  intros H. unfold shr_fexp, shr.
  assert (H0 : 0 ≤ shr_m (shr_record_of_loc m l)) by (by destruct l as [ | [] ]).
  destruct (_ - e); cbn [fst]; auto using iter_shr_1_nonneg.
Qed.

Lemma binary_round_aux_signed (s : bool) (m e : Z) (l : location) :
  0 ≤ m → Binary64.SFsigned s (binary_round_aux prec emax s m e l).
Proof.
  intros H. unfold binary_round_aux.
  pose proof (shr_fexp_nonneg m e l H) as H1.
  destruct (shr_fexp prec emax m e l) as [mrs' e']. cbn [fst] in H1.
  assert (H2 : 0 ≤ round_nearest_even (shr_m mrs') (loc_of_shr_record mrs')).
  { unfold round_nearest_even.
    destruct (loc_of_shr_record mrs') as [ | [] ]; try destruct (Z.even _); lia. }
  pose proof (shr_fexp_nonneg _ e' loc_Exact H2) as H3.
  destruct (shr_fexp _ _ _ _ _) as [mrs'' e'']. cbn [fst] in H3.
  destruct (shr_m mrs''); [ done | by destruct (_ <=? _) | lia ].
Qed.

Lemma binary_round_signed (s : bool) (m : positive) (e : Z) :
  Binary64.SFsigned s (binary_round prec emax s m e).
Proof.
  unfold binary_round. destruct (shl_align _ _ _) as [mz ez].
  by apply binary_round_aux_signed.
Qed.

Lemma SFsub_finite (a b : spec_float) :
  Binary64.SFfinite a → Binary64.SFfinite b → SFsub prec emax a b ≠ S754_nan.
Proof.
  destruct a as [sa|sa| |sa ma ea], b as [sb|sb| |sb mb eb]; try done.
  - intros _ _. by destruct sa, sb.
  - intros _ _. cbn [SFsub].
    destruct (_ - _) as [ | p | p ]; cbn [binary_normalize]; [ done | | ].
    + pose proof (binary_round_signed false p (Z.min ea eb)) as H.
      intros E. by rewrite E in H.
    + pose proof (binary_round_signed true p (Z.min ea eb)) as H.
      intros E. by rewrite E in H.
Qed.

Lemma SFsub_diag (a : spec_float) :
  Binary64.SFfinite a → SFsub prec emax a a = S754_zero false.
Proof.
  destruct a as [[]|sa| |sa ma ea]; try done.
  intros _. cbn [SFsub]. by rewrite Z.sub_diag.
Qed.

Lemma SFmul_square_signed (v : spec_float) :
  v ≠ S754_nan → Binary64.SFsigned false (SFmul prec emax v v).
Proof.
  destruct v as [[]|[]| |s m e]; try done.
  intros _. cbn [SFmul]. replace (xorb s s) with false by (by destruct s).
  by apply binary_round_aux_signed.
Qed.

Lemma SFadd_signed (u v : spec_float) :
  Binary64.SFsigned false u → Binary64.SFsigned false v →
  Binary64.SFsigned false (SFadd prec emax u v).
Proof.
  destruct u as [su|su| |su mu eu], v as [sv|sv| |sv mv ev]; try done;
    cbn [Binary64.SFsigned]; intros -> ->; try done.
  cbn [SFadd cond_Zopp]. rewrite <- Pos2Z.inj_add. apply binary_round_signed.
Qed.

Lemma SFsqrt_signed (v : spec_float) :
  Binary64.SFsigned false v → Binary64.SFsigned false (SFsqrt prec emax v).
Proof.
  destruct v as [s|s| |s m e]; try done; cbn [Binary64.SFsigned]; intros ->;
    try done.
  cbn [SFsqrt]. unfold SFsqrt_core_binary.
  match goal with |- context [Z.sqrtrem ?n] =>
    pose proof (Z.sqrtrem_sqrt n) as E; pose proof (Z.sqrt_nonneg n) as H;
    destruct (Z.sqrtrem n) as [q r] end.
  cbn [fst] in E. subst q. by apply binary_round_aux_signed.
Qed.

Lemma Prim2SF_finite (v : PrimFloat.float) :
  PrimFloat.is_finite v = true → Binary64.SFfinite (FloatOps.Prim2SF v).
Proof.
  unfold PrimFloat.is_finite, FloatOps.Prim2SF.
  destruct (PrimFloat.is_nan v), (PrimFloat.is_infinity v); try done.
  intros _. destruct (PrimFloat.is_zero v); [ done | ].
  destruct (FloatOps.Z.frexp v) as [r e].
  destruct (shr_fexp _ _ _ _ _) as [mrs e']. by destruct (shr_m mrs).
Qed.

(** Integers below 2^53 are doubles.  [digits2_pos] and [Pos.size] are the
    same function. *)
Lemma iter_xO_value (p k : positive) :
  Z.pos (Pos.iter xO p k) = Z.pos p * 2 ^ Z.pos k.
Proof.
  induction k as [ | k IH ] using Pos.peano_ind.
  - cbn [Pos.iter]. lia.
  - rewrite Pos.iter_succ, Pos2Z.inj_xO, IH, Pos2Z.inj_succ, Z.pow_succ_r by lia.
    lia.
Qed.

Lemma iter_xO_size (p k : positive) :
  Pos.size (Pos.iter xO p k) = (Pos.size p + k)%positive.
Proof.
  induction k as [ | k IH ] using Pos.peano_ind.
  - cbn [Pos.iter Pos.size]. lia.
  - rewrite Pos.iter_succ. cbn [Pos.size]. rewrite IH. lia.
Qed.

Lemma binary_round_aux_canonical (m : positive) (e : Z) :
  Z.pos (digits2_pos m) = 53 → -1074 ≤ e ≤ 971 →
  binary_round_aux prec emax false (Z.pos m) e loc_Exact = S754_finite false m e.
Proof.
  intros Hd He. unfold binary_round_aux, shr_fexp. cbn [Zdigits2]. rewrite Hd.
  replace (fexp prec emax (53 + e) - e) with 0
    by (unfold fexp, emin, FloatOps.prec, FloatOps.emax; lia).
  cbn [shr shr_record_of_loc shr_m loc_of_shr_record round_nearest_even Zdigits2].
  rewrite Hd.
  replace (fexp prec emax (53 + e) - e) with 0
    by (unfold fexp, emin, FloatOps.prec, FloatOps.emax; lia).
  cbn [shr shr_record_of_loc shr_m].
  replace (e <=? emax - prec) with true; [ done | ].
  symmetry. apply Z.leb_le. unfold FloatOps.prec, FloatOps.emax. lia.
Qed.

Lemma binary_normalize_exact (n : Z) :
  0 ≤ n < 2 ^ 53 →
  valid_binary prec emax (binary_normalize prec emax n 0 false) = true ∧
  Binary64.SFto_Z (binary_normalize prec emax n 0 false) = Some n.
Proof.
  intros Hn. destruct n as [ | p | p ]; [ done | | lia ].
  cbn [binary_normalize]. unfold binary_round.
  pose proof (Pos.size_gt p) as Hgt. pose proof (Pos.size_le p) as Hle.
  apply Pos2Z.pos_lt_pos in Hgt. apply Pos2Z.pos_le_pos in Hle.
  rewrite Pos2Z.inj_pow in Hgt, Hle. change (Z.pos p~0) with (2 * Z.pos p) in Hle.
  assert (Hd : Z.pos (Pos.size p) ≤ 53).
  { destruct (decide (Z.pos (Pos.size p) ≤ 53)) as [ | Hgt53 ]; [ done | ].
    assert (2 ^ 54 ≤ 2 ^ Z.pos (Pos.size p)) by (apply Z.pow_le_mono_r; lia).
    lia. }
  replace (fexp prec emax (Z.pos (digits2_pos p) + 0))
    with (Z.pos (Pos.size p) - 53)
    by (change (digits2_pos p) with (Pos.size p);
        unfold fexp, emin, FloatOps.prec, FloatOps.emax; lia).
  unfold shl_align.
  destruct (Z.pos (Pos.size p) - 53 - 0) as [ | k | k ] eqn:Ek; [ | lia | ].
  - rewrite binary_round_aux_canonical
      by (change (digits2_pos p) with (Pos.size p); lia).
    cbn [valid_binary Binary64.SFto_Z cond_Zopp]. split.
    + unfold bounded, canonical_mantissa.
      change (digits2_pos p) with (Pos.size p).
      apply andb_true_intro. split; [ apply Z.eqb_eq | apply Z.leb_le ];
        unfold fexp, emin, FloatOps.prec, FloatOps.emax; lia.
    + cbn. f_equal. lia.
  - assert (Hs : Z.pos (digits2_pos (Pos.iter xO p k)) = 53).
    { change (digits2_pos (Pos.iter xO p k)) with (Pos.size (Pos.iter xO p k)).
      rewrite iter_xO_size. lia. }
    rewrite binary_round_aux_canonical by (done || lia).
    cbn [valid_binary Binary64.SFto_Z cond_Zopp]. split.
    + unfold bounded, canonical_mantissa. rewrite Hs.
      apply andb_true_intro. split; [ apply Z.eqb_eq | apply Z.leb_le ];
        unfold fexp, emin, FloatOps.prec, FloatOps.emax; lia.
    + replace (0 <=? Z.pos (Pos.size p) - 53) with false
        by (symmetry; apply Z.leb_gt; lia).
      replace (- (Z.pos (Pos.size p) - 53)) with (Z.pos k) by lia.
      rewrite iter_xO_value, Z.land_ones by lia.
      rewrite Z.mod_mul by lia. cbn [Z.eqb].
      rewrite Z.shiftr_div_pow2 by lia. rewrite Z.div_mul by lia. done.
Qed.

(** [round] of a double that is not negative is an integer that is not
    negative, or infinite. *)
Lemma SFround_integral (v : spec_float) :
  valid_binary prec emax v = true → Binary64.SFsigned false v →
  Binary64.SFround v = S754_infinity false ∨
  (valid_binary prec emax (Binary64.SFround v) = true ∧
   ∃ n : Z, 0 ≤ n ∧ Binary64.SFto_Z (Binary64.SFround v) = Some n).
Proof.
  destruct v as [s|s| |s m e]; try done; cbn [Binary64.SFsigned];
    intros Hv ->.
  - right. split; [ done | ]. by exists 0.
  - by left.
  - right. cbn [Binary64.SFround Binary64.SFto_Z].
    destruct (0 <=? e) eqn:He.
    + split; [ done | ]. cbn [Binary64.SFto_Z]. rewrite He.
      eexists. split; [ | done ]. cbn [cond_Zopp]. apply Z.leb_le in He. lia.
    + apply Z.leb_gt in He. cbn [cond_Zopp].
      cbn [valid_binary] in Hv. unfold bounded, canonical_mantissa in Hv.
      apply andb_prop in Hv as [Hc _]. apply Z.eqb_eq in Hc.
      change (digits2_pos m) with (Pos.size m) in Hc.
      assert (Hd : Z.pos (Pos.size m) ≤ 53)
        by (revert Hc; unfold fexp, emin, FloatOps.prec, FloatOps.emax; lia).
      pose proof (Pos.size_gt m) as Hgt. apply Pos2Z.pos_lt_pos in Hgt.
      rewrite Pos2Z.inj_pow in Hgt.
      assert (Hm : Z.pos m < 2 ^ 53).
      { eapply Z.lt_le_trans; [ exact Hgt | ]. apply Z.pow_le_mono_r; lia. }
      assert (Hq : 0 ≤ Z.shiftr (Z.pos m) (- e) < 2 ^ 52).
      { rewrite Z.shiftr_div_pow2 by lia. split.
        - apply Z.div_pos; lia.
        - apply Z.div_lt_upper_bound; [ lia | ].
          assert (2 ^ 1 ≤ 2 ^ (- e)) by (apply Z.pow_le_mono_r; lia).
          change (2 ^ 53) with (2 ^ 1 * 2 ^ 52) in Hm. nia. }
      set (n := if 2 ^ (- e - 1) <=? _ then _ else _).
      assert (Hn : 0 ≤ n < 2 ^ 53) by (subst n; destruct (_ <=? _); lia).
      destruct (binary_normalize_exact n Hn) as [Hval Hto].
      split; [ done | ]. exists n. split; [ lia | done ].
Qed.


Lemma round_integral (v : PrimFloat.float) :
  Binary64.SFsigned false (FloatOps.Prim2SF v) →
  Binary64.round v = PrimFloat.infinity ∨
  ∃ n : Z, 0 ≤ n ∧ Binary64.to_Z (Binary64.round v) = Some n.
Proof.
  intros Hs. unfold Binary64.round, Binary64.to_Z.
  destruct (SFround_integral _ (FloatAxioms.Prim2SF_valid v) Hs)
    as [-> | [Hval (n & Hn & E)]]; [ by left | right ].
  rewrite FloatAxioms.Prim2SF_SF2Prim by done. by exists n.
Qed.

Lemma sub_not_nan (a b : PrimFloat.float) :
  PrimFloat.is_finite a = true → PrimFloat.is_finite b = true →
  FloatOps.Prim2SF (PrimFloat.sub a b) ≠ S754_nan.
Proof.
  intros Ha Hb. rewrite FloatAxioms.sub_spec.
  apply SFsub_finite; by apply Prim2SF_finite.
Qed.

Lemma sub_diag (a : PrimFloat.float) :
  PrimFloat.is_finite a = true → PrimFloat.sub a a = PrimFloat.zero.
Proof.
  intros Ha. apply FloatAxioms.Prim2SF_inj. rewrite FloatAxioms.sub_spec.
  unfold FloatAxioms.SF64sub. rewrite SFsub_diag by (by apply Prim2SF_finite).
  reflexivity.
Qed.

(** What [dist] hands to [round] is not negative. *)
Lemma sqrt_sum_signed (dx dy : PrimFloat.float) :
  FloatOps.Prim2SF dx ≠ S754_nan → FloatOps.Prim2SF dy ≠ S754_nan →
  Binary64.SFsigned false
    (FloatOps.Prim2SF
       (PrimFloat.sqrt (PrimFloat.add (PrimFloat.mul dx dx) (PrimFloat.mul dy dy)))).
Proof.
  intros Hx Hy.
  rewrite FloatAxioms.sqrt_spec, FloatAxioms.add_spec, !FloatAxioms.mul_spec.
  apply SFsqrt_signed, SFadd_signed; by apply SFmul_square_signed.
Qed.

End binary64.




(** The start value of [best_d] is the first double above 10^100. *)
Lemma best_d_init_double :
  (∃ n, Binary64.to_Z (PrimFloat.next_down Binary64.best_d_init) = Some n ∧
        n < best_d_init) ∧
  (∃ n, Binary64.to_Z Binary64.best_d_init = Some n ∧ best_d_init < n).
Proof. split; eexists; (split; [ vm_compute; reflexivity | done ]). Qed.

Lemma agrees_dist (records : list (Z * Q * Q)) (i j : nat) (d : Z) :
  Binary64.agrees records = true →
  dist (read_tsplib records) i j = Done d →
  Binary64.dist (Binary64.points records) i j = Done (Binary64.of_Z d).
Proof.
  unfold Binary64.agrees. intros H Hd.
  assert (L : length (read_tsplib records) = length records)
    by (unfold read_tsplib; apply length_map).
  assert (Hi : (i < length records)%nat).
  { unfold dist in Hd. inv_bind Hd. unfold node in Hd0.
    destruct (read_tsplib records !! i) eqn:E; [ | discriminate ].
    apply lookup_lt_Some in E. lia. }
  assert (Hj : (j < length records)%nat).
  { unfold dist in Hd. inv_bind Hd. inv_bind Hd. unfold node in Hd1.
    destruct (read_tsplib records !! j) eqn:E; [ | discriminate ].
    apply lookup_lt_Some in E. lia. }
  rewrite forallb_forall in H.
  specialize (H i ltac:(apply in_seq; lia)). rewrite forallb_forall in H.
  specialize (H j ltac:(apply in_seq; lia)).
  unfold dist_of in H. rewrite Hd in H.
  destruct (Binary64.dist (Binary64.points records) i j) as [f | | ];
    try discriminate.
  apply FloatAxioms.Leibniz.eqb_spec in H. by subst f.
Qed.

(** On the instances on which runs are evaluated, the exact [dist] returns
    what the code computes in double precision, for every pair of nodes. *)
Lemma dist_agrees_on_instances (records : list (Z * Q * Q)) (i j : nat) (d : Z) :
  records ∈ [doubling; cluster; zigzag; cross; three; close_pair; far_pair; single] →
  dist (read_tsplib records) i j = Done d →
  Binary64.dist (Binary64.points records) i j = Done (Binary64.of_Z d).
Proof.
  intros Hin. apply agrees_dist. revert records Hin. apply Forall_forall.
  repeat constructor; vm_compute; reflexivity.
Qed.

(** ** A pass that accepts no move *)

Lemma two_opt_try_flag (fuel a b k : nat) (st st' : state * bool) :
  two_opt_try fuel a b k st = Done st' → st'.2 = false → st' = st.
Proof.
  unfold two_opt_try. intros H Hf.
  inv_bind H. inv_bind H. inv_bind H.
  destruct (decide _); [ congruence | ].
  inv_bind H. inv_bind H. inv_bind H. inv_bind H.
  destruct (exceeds_tolerance _); [ | congruence ].
  inv_bind H. injection H as <-. discriminate Hf.
Qed.

Lemma two_opt_node_flag (fuel i : nat) (st st' : state * bool) :
  two_opt_node fuel i st = Done st' → st'.2 = false → st' = st.
Proof.
  unfold two_opt_node. intros H Hf. inv_bind H. inv_bind H.
  eapply (for_range_flag snd); eauto using two_opt_try_flag.
Qed.

Lemma two_opt_pass_flag (fuel : nat) (s s' : state) :
  two_opt_pass fuel s = Done (s', false) → s' = s.
Proof.
  unfold two_opt_pass. intros H.
  apply (for_range_flag snd) in H; eauto using two_opt_node_flag.
  congruence.
Qed.

(** The state at which the pass loop stops is one on which a pass accepts
    nothing. *)
Lemma two_opt_local_search_stops (passes fuel : nat) (s r : state) :
  two_opt_local_search passes fuel s = Done r →
  two_opt_pass fuel r = Done (r, false).
Proof.
  revert s. induction passes as [ | n IH ]; intros s H; cbn in H; [ discriminate | ].
  inv_bind H. destruct r0 as [s1 [ | ]]; cbn in H.
  - eauto.
  - injection H as <-. now rewrite (two_opt_pass_flag _ _ _ H0) in H0 |- *.
Qed.

(** C10: a pass that returns false has written nothing, a further pass from
    there again accepts nothing and returns the same state, the tour length is
    the same, and the pass loop started there stops at once; and the state
    the pass loop returns is always such a state. *)
Theorem two_opt_pass_false_is_identity (fuel : nat) (s s' : state) :
  two_opt_pass fuel s = Done (s', false) →
  s' = s ∧
  two_opt_pass fuel s' = Done (s', false) ∧
  (∀ f, tour_length f s' = tour_length f s) ∧
  (∀ passes, two_opt_local_search (S passes) fuel s = Done s) ∧
  (∀ passes s0 r, two_opt_local_search passes fuel s0 = Done r →
     two_opt_pass fuel r = Done (r, false)).
Proof.
  intros H. pose proof (two_opt_pass_flag _ _ _ H) as E. subst s'.
  split; [ reflexivity | ]. split; [ exact H | ]. split; [ reflexivity | ].
  split.
  - intros passes. cbn. now rewrite H.
  - intros passes s0 r. apply two_opt_local_search_stops.
Qed.

Lemma two_opt_pass_false_is_identity_witness :
  two_opt_pass 30 (tour_of doubling) = Done (tour_of doubling, false) ∧
  tour_of doubling = tour_of doubling ∧
  two_opt_pass 30 (tour_of doubling) = Done (tour_of doubling, false) ∧
  (∀ f, tour_length f (tour_of doubling) = tour_length f (tour_of doubling)) ∧
  (∀ passes,
     two_opt_local_search (S passes) 30 (tour_of doubling)
     = Done (tour_of doubling)) ∧
  (∀ passes s0 r, two_opt_local_search passes 30 s0 = Done r →
     two_opt_pass 30 r = Done (r, false)).
Proof.
  split; [ vm_compute; reflexivity | ].
  apply (two_opt_pass_false_is_identity 30 (tour_of doubling) (tour_of doubling)).
  vm_compute. reflexivity.
Defined.

(** ** The greedy tour *)

Lemma dist_Done (s : state) (i j : nat) :
  (i < length s)%nat → (j < length s)%nat → ∃ d, dist s i j = Done d.
Proof.
  intros Hi Hj.
  destruct (lookup_lt_is_Some_2 s i Hi) as [ni Ei].
  destruct (lookup_lt_is_Some_2 s j Hj) as [nj Ej].
  eexists. now apply (dist_lookup s i j ni nj).
Qed.

Section Greedy.

Variable s : state.
Hypothesis Hbelow : below_sentinel s.

Lemma nearest_step_inv (vis : array bool) (ord : list nat) (cur i : nat)
    (best : Z * option nat) :
  (cur < length s)%nat → (i < length s)%nat →
  (∀ j, (j < length s)%nat → vis !! j = Some (Some (bool_decide (j ∈ ord)))) →
  scan_inv s ord cur i best →
  ∃ best', nearest_step s vis cur i best = Done best' ∧ scan_inv s ord cur (S i) best'.
Proof.
  intros Hcur Hi Hvis Hinv. unfold nearest_step, aget. rewrite (Hvis i Hi). cbn.
  destruct (dist_Done s cur i Hcur Hi) as [d Ed].
  destruct best as [bd bj]. unfold scan_inv in *. cbn [fst snd] in *.
  case_bool_decide as Hin; cbn.
  - (* visited[i] *)
    eexists; split; [ reflexivity | ]. cbn [snd fst].
    destruct bj as [c | ].
    + destruct Hinv as (Hc & Hnc & Edc & Hmin). repeat split; try done; [ lia | ].
      intros j dj Hj Hnj Edj. apply Hmin; try done.
      destruct (decide (j = i)) as [-> | ]; [ done | lia ].
    + destruct Hinv as [Hbd Hall]. split; [ done | ].
      intros j Hj. destruct (decide (j = i)) as [-> | ]; [ done | apply Hall; lia ].
  - rewrite Ed. cbn. destruct (decide (d < bd)) as [Hlt | Hge].
    + eexists; split; [ reflexivity | ]. cbn [fst snd].
      repeat split; try done; [ lia | ].
      intros j dj Hj Hnj Edj. destruct (decide (j = i)) as [-> | Hne].
      * right. split; [ congruence | lia ].
      * left. destruct bj as [c | ].
        -- destruct Hinv as (_ & _ & _ & Hmin).
           destruct (Hmin j dj ltac:(lia) Hnj Edj); lia.
        -- destruct Hinv as [_ Hall]. exfalso. apply Hnj, Hall. lia.
    + eexists; split; [ reflexivity | ]. cbn [fst snd].
      destruct bj as [c | ].
      * destruct Hinv as (Hc & Hnc & Edc & Hmin). repeat split; try done; [ lia | ].
        intros j dj Hj Hnj Edj. destruct (decide (j = i)) as [-> | Hne].
        -- assert (dj = d) as -> by congruence.
           destruct (decide (bd = d)); [ right; split; [ done | lia ] | left; lia ].
        -- apply Hmin; try done. lia.
      * destruct Hinv as [Hbd _]. pose proof (Hbelow _ _ _ Ed). lia.
Qed.

Lemma nearest_scan (vis : array bool) (ord : list nat) (cur : nat) :
  (cur < length s)%nat →
  (∀ j, (j < length s)%nat → vis !! j = Some (Some (bool_decide (j ∈ ord)))) →
  (∃ j, (j < length s)%nat ∧ j ∉ ord) →
  ∃ bd c,
    for_range (nearest_step s vis cur) 0 (length s) (best_d_init, None)
      = Done (bd, Some c) ∧
    (c < length s)%nat ∧ (c ∉ ord) ∧ dist s cur c = Done bd ∧
    ∀ j dj, (j < length s)%nat → j ∉ ord → dist s cur j = Done dj →
      bd < dj ∨ (bd = dj ∧ (c ≤ j)%nat).
Proof.
  intros Hcur Hvis (j0 & Hj0 & Hn0).
  destruct (for_range_invariant (nearest_step s vis cur) (scan_inv s ord cur)
              (length s) 0 (best_d_init, None)) as ([bd bj] & E & Hinv).
  - split; [ done | ]. intros j Hj. lia.
  - intros i best Hi Hinv. apply nearest_step_inv; try done. lia.
  - unfold scan_inv in Hinv. cbn [fst snd] in Hinv. destruct bj as [c | ].
    + destruct Hinv as (Hc & Hnc & Edc & Hmin).
      exists bd, c. repeat split; try done.
    + destruct Hinv as [_ Hall]. exfalso. apply Hn0, Hall. lia.
Qed.

End Greedy.

Lemma exists_unvisited (n : nat) (ord : list nat) :
  NoDup ord → (length ord < n)%nat → ∃ j, (j < n)%nat ∧ j ∉ ord.
Proof.
  intros Hnd Hlen.
  destruct (decide (Forall (λ j, j ∈ ord) (seq 0 n))) as [Hall | Hex].
  - exfalso. rewrite Forall_forall in Hall.
    pose proof (NoDup_submseteq (seq 0 n) ord (NoDup_seq 0 n) Hall) as Hsub.
    apply submseteq_length in Hsub. rewrite length_seq in Hsub. lia.
  - apply not_Forall_Exists in Hex; [ | intros x; apply _ ].
    apply Exists_exists in Hex. destruct Hex as (j & Hj & Hn).
    apply elem_of_seq in Hj. exists j. split; [ lia | exact Hn ].
Qed.

Lemma path_cost_snoc (s : state) (l : list nat) (z x : nat) (p d : Z) :
  last l = Some z → path_cost s l = Done p → dist s z x = Done d →
  path_cost s (l ++ [x]) = Done (p + d).
Proof.
  revert p. induction l as [ | a [ | b t ] IH ]; intros p Hl Hp Hd.
  - discriminate.
  - cbn in *. injection Hl as ->. injection Hp as <-. rewrite Hd. cbn.
    f_equal. lia.
  - change (path_cost s (a :: b :: t)) with
      (d1 ← dist s a b; c ← path_cost s (b :: t); Done (d1 + c)) in Hp.
    change (path_cost s ((a :: b :: t) ++ [x])) with
      (d1 ← dist s a b; c ← path_cost s ((b :: t) ++ [x]); Done (d1 + c)).
    inv_bind Hp. inv_bind Hp. injection Hp as <-.
    rewrite Hp0, bind_Done_l, (IH r0 Hl Hp1 Hd), bind_Done_l. f_equal. lia.
Qed.

Lemma greedy_choice_app (s : state) (ord l : list nat) (k : nat) :
  (k < length ord)%nat → greedy_choice s ord k → greedy_choice s (ord ++ l) k.
Proof.
  intros Hk (p & c & d & Hp & Hc & Hd & Hn & Hmin).
  exists p, c, d.
  rewrite !lookup_app_l by lia. rewrite take_app_le by lia. done.
Qed.

Lemma greedy_step_inv (s : state) (k : nat) (g : Greedy.t) :
  below_sentinel s →
  (1 ≤ k < length s)%nat → greedy_inv s k g →
  ∃ g', greedy_step s k g = Done g' ∧ greedy_inv s (S k) g'.
Proof.
  intros Hbelow Hk (ord & Hlen & Hol & Hot & Hnd & Hlt & Hvl & Hvis & Hlast & H0
                    & Hgc & Hcost).
  assert (Hcur : (Greedy.current g < length s)%nat).
  { rewrite Forall_forall in Hlt. apply Hlt.
    apply last_Some in Hlast as [l' ->].
    apply elem_of_app. right. now apply list_elem_of_singleton. }
  destruct (exists_unvisited (length s) ord Hnd ltac:(lia)) as (j0 & Hj0 & Hn0).
  destruct (nearest_scan s Hbelow (Greedy.visited g) ord (Greedy.current g)
              Hcur Hvis (ex_intro _ j0 (conj Hj0 Hn0)))
    as (bd & c & Escan & Hc & Hnc & Edc & Hmin).
  unfold greedy_step. rewrite Escan, bind_Done_l. cbn [fst snd link].
  rewrite bind_Done_l. unfold aset. rewrite !decide_True by lia.
  rewrite !bind_Done_l.
  eexists; split; [ reflexivity | ].
  exists (ord ++ [c]). cbn [Greedy.order Greedy.visited Greedy.current Greedy.cost].
  assert (Hlk : ord !! (k - 1)%nat = Some (Greedy.current g)).
  { rewrite <- Hlast, last_lookup. f_equal. lia. }
  repeat split.
  - rewrite length_app. cbn. lia.
  - now rewrite length_insert.
  - rewrite (take_S_r _ _ (Some c)) by (apply list_lookup_insert_eq; lia).
    rewrite take_insert_ge by lia. rewrite Hot, fmap_app. reflexivity.
  - apply NoDup_app. repeat split; [ done | | apply NoDup_singleton ].
    intros x Hx Hx'. apply list_elem_of_singleton in Hx' as ->. done.
  - apply Forall_app. split; [ done | ]. now apply Forall_singleton.
  - now rewrite length_insert.
  - intros j Hj. destruct (decide (j = c)) as [-> | Hne].
    + rewrite list_lookup_insert_eq by lia. do 2 f_equal.
      symmetry. apply bool_decide_eq_true.
      apply elem_of_app. right. now apply list_elem_of_singleton.
    + rewrite list_lookup_insert_ne by done. rewrite (Hvis j Hj). do 2 f_equal.
      apply bool_decide_ext. rewrite elem_of_app, list_elem_of_singleton. tauto.
  - apply last_snoc.
  - rewrite lookup_app_l by lia. done.
  - intros k' Hk'. destruct (decide (k' = k)) as [-> | Hne].
    + exists (Greedy.current g), c, bd.
      rewrite lookup_app_l by lia.
      rewrite (list_lookup_middle ord [] c k) by lia.
      rewrite take_app_length' by lia. done.
    + apply greedy_choice_app; [ lia | ]. apply Hgc. lia.
  - now apply (path_cost_snoc s ord (Greedy.current g) c).
Qed.

(** The order and the length returned by the greedy constructor. *)
Lemma build_initial_tour_spec (s : state) :
  (0 < length s)%nat → below_sentinel s →
  ∃ (ord : list nat) (cst : Z),
    build_initial_tour s (malloc (length s)) = Done (Some <$> ord, cst) ∧
    ord ≡ₚ seq 0 (length s) ∧
    ord !! 0%nat = Some 0%nat ∧
    (∀ k, (1 ≤ k < length s)%nat → greedy_choice s ord k) ∧
    tour_cost s ord = Done cst.
Proof.
  intros HN Hbelow. unfold build_initial_tour, aset, calloc, malloc.
  rewrite !length_replicate, !decide_True by lia. rewrite !bind_Done_l.
  destruct (for_range_invariant (greedy_step s) (greedy_inv s) (length s - 1) 1
              (Greedy.mk 0 (<[0%nat:=Some true]> (replicate (length s) (Some false)))
                 (<[0%nat:=Some 0%nat]> (replicate (length s) None)) 0))
    as (g & E & ord & Hlen & Hol & Hot & Hnd & Hlt & Hvl & Hvis & Hlast & H0
        & Hgc & Hcost).
  - exists [0%nat]. cbn [Greedy.order Greedy.visited Greedy.current Greedy.cost].
    rewrite !length_insert, !length_replicate.
    split; [ done | ]. split; [ done | ]. split.
    { destruct (length s); [ lia | reflexivity ]. }
    split; [ apply NoDup_singleton | ]. split; [ now apply Forall_singleton | ].
    split; [ done | ]. split.
    { intros j Hj. destruct (decide (j = 0%nat)) as [-> | Hne].
      - rewrite list_lookup_insert_eq by (rewrite length_replicate; lia).
        reflexivity.
      - rewrite list_lookup_insert_ne by done.
        rewrite (proj2 (lookup_replicate _ _ (Some false) _)) by done.
        do 2 f_equal. symmetry. apply bool_decide_eq_false.
        rewrite list_elem_of_singleton. done. }
    split; [ done | ]. split; [ done | ]. split; [ intros k' Hk'; lia | done ].
  - intros k g Hk Hinv. apply greedy_step_inv; [ done | lia | done ].
  - replace (1 + (length s - 1))%nat with (length s) in * by lia.
    rewrite E, bind_Done_l.
    rewrite take_ge in Hot by lia.
    assert (Hz : ord !! (length s - 1)%nat = Some (Greedy.current g)).
    { rewrite <- Hlast, last_lookup. f_equal. lia. }
    unfold aget. rewrite Hot, !list_lookup_fmap, Hz, H0. cbn [fmap option_fmap option_map].
    rewrite !bind_Done_l.
    assert (Hcur : (Greedy.current g < length s)%nat).
    { rewrite Forall_forall in Hlt. apply Hlt.
      apply list_elem_of_lookup. eauto. }
    destruct (dist_Done s (Greedy.current g) 0 Hcur HN) as [d Ed].
    rewrite Ed, bind_Done_l.
    exists ord, (Greedy.cost g + d). repeat split; try done.
    + apply submseteq_length_Permutation; [ | rewrite length_seq; lia ].
      apply NoDup_submseteq; [ done | ].
      intros j Hj. apply elem_of_seq. rewrite Forall_forall in Hlt.
      specialize (Hlt j Hj). lia.
    + unfold tour_cost. destruct ord as [ | a ord' ]; [ discriminate | ].
      injection H0 as ->. rewrite Hlast, Hcost, bind_Done_l, Ed. reflexivity.
Qed.

(** C6: the code departs from the claim on an instance of two nodes 10^101
    apart.  The distance from node 0 to the only unvisited node is not below
    the start value [1e100] of [best_d], in double precision as in the exact
    model, so the scan over [j] ends with [best_j = -1]; [best_j] is not
    checked, [visited[best_j]] is written outside its block, and neither an
    order nor a length is returned. *)
Theorem build_initial_tour_sentinel_unchecked :
  length (read_tsplib far_pair) = 2%nat ∧
  (∃ d : PrimFloat.float,
     Binary64.dist (Binary64.points far_pair) 0 1 = Done d ∧
     PrimFloat.ltb d Binary64.best_d_init = false) ∧
  (∃ d : Z, dist (read_tsplib far_pair) 0 1 = Done d ∧ ¬ d < best_d_init) ∧
  for_range (nearest_step (read_tsplib far_pair) [Some true; Some false] 0)
    0 2 (best_d_init, None) = Done (best_d_init, None) ∧
  build_initial_tour (read_tsplib far_pair) (malloc 2) = Fault ∧
  ∀ qsort fuel, main qsort fuel far_pair = Fault.
Proof.
  split; [ reflexivity | ].
  split; [ eexists; split; vm_compute; reflexivity | ].
  split; [ eexists; split; [ vm_compute; reflexivity | ]; unfold best_d_init; lia | ].
  split; [ vm_compute; reflexivity | ].
  split; [ vm_compute; reflexivity | ].
  intros qsort fuel. vm_compute. reflexivity.
Qed.

(** ** The tour built from an order *)

Lemma update_Done (s : state) (i : nat) (f : Node.t → Node.t) :
  (i < length s)%nat → ∃ n, s !! i = Some n ∧ update s i f = Done (<[i := f n]> s).
Proof.
  intros Hi. destruct (lookup_lt_is_Some_2 s i Hi) as [n E].
  exists n. unfold update, node. now rewrite E.
Qed.

Lemma get_next_insert (s : state) (i v : nat) (n n' : Node.t) :
  s !! i = Some n →
  get_next (<[i := n']> s) v
  = if decide (v = i) then link (Node.next n') else get_next s v.
Proof.
  intros E. unfold get_next, node. destruct (decide (v = i)) as [-> | Hne].
  - rewrite list_lookup_insert_eq by now apply lookup_lt_Some in E. reflexivity.
  - now rewrite list_lookup_insert_ne.
Qed.

Lemma get_prev_insert (s : state) (i v : nat) (n n' : Node.t) :
  s !! i = Some n →
  get_prev (<[i := n']> s) v
  = if decide (v = i) then link (Node.prev n') else get_prev s v.
Proof.
  intros E. unfold get_prev, node. destruct (decide (v = i)) as [-> | Hne].
  - rewrite list_lookup_insert_eq by now apply lookup_lt_Some in E. reflexivity.
  - now rewrite list_lookup_insert_ne.
Qed.

Lemma succ_mod_inj (n i i' : nat) :
  (i < n)%nat → (i' < n)%nat →
  ((i' + 1) `mod` n = (i + 1) `mod` n)%nat → i' = i.
Proof.
  intros Hi Hi' H.
  destruct (decide (i + 1 = n)%nat) as [E | E];
    destruct (decide (i' + 1 = n)%nat) as [E' | E'].
  - lia.
  - rewrite E, Nat.Div0.mod_same, Nat.mod_small in H by lia. lia.
  - rewrite E', Nat.Div0.mod_same, Nat.mod_small in H by lia. lia.
  - rewrite !Nat.mod_small in H by lia. lia.
Qed.

Lemma tour_from_order_step (n : nat) (ord : list nat) (i : nat) (s : state) :
  ord ≡ₚ seq 0 n → (i < n)%nat → tour_inv n ord i s →
  ∃ s',
    (let j := ((i + 1) `mod` n)%nat in
     oi ← aget (Some <$> ord) i;
     oj ← aget (Some <$> ord) j;
     s ← update s oi (λ n, Node.set_next n (Some oj));
     update s oj (λ n, Node.set_prev n (Some oi))) = Done s' ∧
    tour_inv n ord (S i) s'.
Proof.
  intros Hp Hi [Hlen Hinv]. cbv zeta.
  assert (Hol : length ord = n) by now rewrite Hp, length_seq.
  assert (Hnd : NoDup ord) by (rewrite Hp; apply NoDup_seq).
  assert (Hj : ((i + 1) `mod` n < n)%nat) by (apply Nat.mod_upper_bound; lia).
  destruct (lookup_lt_is_Some_2 ord i ltac:(lia)) as [oi Eoi].
  destruct (lookup_lt_is_Some_2 ord ((i + 1) `mod` n) ltac:(lia)) as [oj Eoj].
  assert (Hlt : ∀ k v, ord !! k = Some v → (v < n)%nat).
  { intros k v E. apply list_elem_of_lookup_2 in E. rewrite Hp in E.
    apply elem_of_seq in E. lia. }
  unfold aget. rewrite !list_lookup_fmap, Eoi, Eoj. cbn [fmap option_fmap option_map].
  rewrite !bind_Done_l.
  destruct (update_Done s oi (λ n, Node.set_next n (Some oj)))
    as (n1 & E1 & ->); [ rewrite Hlen; eauto | ].
  rewrite bind_Done_l.
  destruct (update_Done (<[oi := Node.set_next n1 (Some oj)]> s) oj
              (λ n, Node.set_prev n (Some oi)))
    as (n2 & E2 & ->); [ rewrite length_insert, Hlen; eauto | ].
  eexists. split; [ reflexivity | ]. split; [ now rewrite !length_insert | ].
  intros i' a b Hi' Ea Eb.
  rewrite (get_next_insert _ oj a n2) by done.
  rewrite (get_prev_insert _ oj b n2) by done.
  rewrite (get_next_insert s oi a n1) by done.
  rewrite (get_prev_insert s oi b n1) by done.
  assert (Hn2 : Node.next n2 = if decide (oj = oi) then Some oj else Node.next n2).
  { destruct (decide (oj = oi)) as [-> | Hne]; [ | done ].
    rewrite list_lookup_insert_eq in E2 by (rewrite Hlen; eauto).
    now injection E2 as <-. }
  destruct (decide (i' = i)) as [-> | Hne].
  - assert (a = oi) as -> by congruence. assert (b = oj) as -> by congruence.
    rewrite (decide_True (P := oj = oj)) by done. cbn [Node.set_prev Node.prev link].
    split; [ | done ].
    destruct (decide (oi = oj)) as [E | E].
    + cbn [Node.set_prev Node.next]. rewrite Hn2, <- E, decide_True by done.
      now rewrite E.
    + rewrite decide_True by done. reflexivity.
  - destruct (Hinv i' a b ltac:(lia) Ea Eb) as [Hna Hpb].
    assert (a ≠ oi).
    { intros ->. apply Hne. now apply (NoDup_lookup ord i' i oi). }
    assert (b ≠ oj).
    { intros ->. apply Hne. apply (succ_mod_inj n); [ lia | lia | ].
      now apply (NoDup_lookup ord _ _ oj). }
    rewrite (decide_False (P := b = oj)) by done.
    rewrite (decide_False (P := a = oi)) by done.
    split; [ | ].
    + destruct (decide (a = oj)) as [-> | Ha]; [ | done ].
      cbn [Node.set_prev Node.next].
      rewrite list_lookup_insert_ne in E2 by done.
      unfold get_next, node in Hna. rewrite E2 in Hna. exact Hna.
    + destruct (decide (b = oi)) as [-> | Hb]; [ | done ].
      cbn [Node.set_next Node.prev].
      unfold get_prev, node in Hpb. rewrite E1 in Hpb. exact Hpb.
Qed.

Lemma tour_from_order_links (s : state) (ord : list nat) :
  ord ≡ₚ seq 0 (length s) →
  ∃ s', tour_from_order s (Some <$> ord) = Done s' ∧
        tour_inv (length s) ord (length s) s'.
Proof.
  intros Hp. unfold tour_from_order. cbv zeta.
  destruct (for_range_invariant
              (λ i s0,
                 oi ← aget (Some <$> ord) i;
                 oj ← aget (Some <$> ord) ((i + 1) `mod` length s)%nat;
                 s1 ← update s0 oi (λ n, Node.set_next n (Some oj));
                 update s1 oj (λ n, Node.set_prev n (Some oi)))
              (tour_inv (length s) ord) (length s) 0 s) as (s' & E & Hinv).
  - split; [ done | ]. intros i' a b Hi'. lia.
  - intros i s0 Hi Hinv. now apply (tour_from_order_step (length s) ord i s0).
  - exists s'. split; [ exact E | exact Hinv ].
Qed.

Section Cycle.

Variables (n : nat) (ord : list nat) (s : state).
Hypothesis Hp : ord ≡ₚ seq 0 n.
Hypothesis Hinv : tour_inv n ord n s.

Lemma cycle_next (i : nat) (v : nat) :
  (i < n)%nat → ord !! i = Some v →
  ∃ w, ord !! ((i + 1) `mod` n)%nat = Some w ∧
       get_next s v = Done w ∧ get_prev s w = Done v.
Proof.
  intros Hi Ev. destruct Hinv as [_ H].
  assert (Hol : length ord = n) by now rewrite Hp, length_seq.
  assert (Hj : ((i + 1) `mod` n < n)%nat) by (apply Nat.mod_upper_bound; lia).
  destruct (lookup_lt_is_Some_2 ord ((i + 1) `mod` n) ltac:(lia)) as [w Ew].
  exists w. split; [ done | ]. now apply (H i).
Qed.

Lemma cycle_walk_lookup (m i t : nat) (v : nat) :
  (i < n)%nat → ord !! i = Some v → (t < m)%nat →
  walk s m v !! t = ord !! ((i + t) `mod` n)%nat.
Proof.
  revert i t v. induction m as [ | m IH ]; intros i t v Hi Ev Ht; [ lia | ].
  cbn [walk]. destruct (cycle_next i v Hi Ev) as (w & Ew & Hn & _). rewrite Hn.
  destruct t as [ | t ].
  - cbn. now rewrite Nat.add_0_r, Nat.mod_small.
  - change ((v :: walk s m w) !! S t) with (walk s m w !! t).
    rewrite (IH ((i + 1) `mod` n)%nat t w); [ | apply Nat.mod_upper_bound; lia | done | lia ].
    rewrite Nat.Div0.add_mod_idemp_l. f_equal. f_equal. lia.
Qed.

Lemma cycle_walk_length (m i : nat) (v : nat) :
  (i < n)%nat → ord !! i = Some v → length (walk s m v) = m.
Proof.
  revert i v. induction m as [ | m IH ]; intros i v Hi Ev; [ done | ].
  cbn [walk]. destruct (cycle_next i v Hi Ev) as (w & Ew & Hn & _). rewrite Hn.
  cbn [length]. f_equal. apply (IH ((i + 1) `mod` n)%nat); [ | done ].
  apply Nat.mod_upper_bound. lia.
Qed.

Lemma cycle_steps (m i : nat) (v : nat) :
  (i < n)%nat → ord !! i = Some v →
  ∃ w, ord !! ((i + m) `mod` n)%nat = Some w ∧ steps s m v = Done w.
Proof.
  revert i v. induction m as [ | m IH ]; intros i v Hi Ev.
  - exists v. cbn. now rewrite Nat.add_0_r, Nat.mod_small.
  - cbn [steps]. destruct (cycle_next i v Hi Ev) as (w & Ew & Hn & _).
    rewrite Hn, bind_Done_l.
    destruct (IH ((i + 1) `mod` n)%nat w) as (u & Eu & Hu);
      [ apply Nat.mod_upper_bound; lia | done | ].
    exists u. split; [ | done ].
    rewrite Nat.Div0.add_mod_idemp_l in Eu. rewrite <- Eu. f_equal. f_equal. lia.
Qed.

Lemma add_mod_inj (i t t' : nat) :
  (t < n)%nat → (t' < n)%nat →
  ((i + t) `mod` n = (i + t') `mod` n)%nat → t = t'.
Proof.
  intros Ht Ht' H.
  assert (∀ a b, (a ≤ b)%nat → (b < n)%nat →
                 ((i + a) `mod` n = (i + b) `mod` n)%nat → a = b) as Hle.
  { intros a b Hab Hb E.
    replace (i + b)%nat with ((i + a) + (b - a))%nat in E by lia.
    rewrite <- (Nat.Div0.add_mod_idemp_l (i + a)) in E.
    pose proof (Nat.mod_upper_bound (i + a) n ltac:(lia)) as Hr.
    set (r := ((i + a) `mod` n)%nat) in *.
    destruct (decide (r + (b - a) < n)%nat) as [Hs | Hs].
    - rewrite (Nat.mod_small (r + (b - a))) in E by lia. lia.
    - replace (r + (b - a))%nat with ((r + (b - a) - n) + 1 * n)%nat in E by lia.
      rewrite Nat.Div0.mod_add, Nat.mod_small in E by lia. lia. }
  destruct (decide (t ≤ t')%nat); [ now apply Hle | ].
  symmetry. apply Hle; [ lia | done | done ].
Qed.

Lemma cycle_valid : (0 < n)%nat → valid_tour s.
Proof.
  intros Hn. destruct Hinv as [Hlen _].
  assert (Hol : length ord = n) by now rewrite Hp, length_seq.
  assert (Hnd : NoDup ord) by (rewrite Hp; apply NoDup_seq).
  assert (Hidx : ∀ v, (v < n)%nat → ∃ i, (i < n)%nat ∧ ord !! i = Some v).
  { intros v Hv. assert (Hin : v ∈ ord) by (rewrite Hp; apply elem_of_seq; lia).
    apply list_elem_of_lookup_1 in Hin as [i Ei]. exists i. split; [ | done ].
    apply lookup_lt_Some in Ei. lia. }
  split.
  - unfold links_inverse. rewrite Hlen. apply Forall_forall. intros v Hv.
    apply elem_of_seq in Hv. destruct (Hidx v ltac:(lia)) as (i & Hi & Ei).
    split.
    + set (i' := ((i + (n - 1)) `mod` n)%nat).
      assert (Hi' : (i' < n)%nat) by (apply Nat.mod_upper_bound; lia).
      destruct (lookup_lt_is_Some_2 ord i' ltac:(lia)) as [u Eu].
      destruct (cycle_next i' u Hi' Eu) as (w & Ew & Hnx & Hpv).
      assert (E : ((i' + 1) `mod` n)%nat = i).
      { unfold i'. rewrite Nat.Div0.add_mod_idemp_l.
        replace (i + (n - 1) + 1)%nat with (i + 1 * n)%nat by lia.
        rewrite Nat.Div0.mod_add. now apply Nat.mod_small. }
      rewrite E in Ew. assert (w = v) as -> by congruence.
      now rewrite Hpv, bind_Done_l.
    + destruct (cycle_next i v Hi Ei) as (w & Ew & Hnx & Hpv).
      now rewrite Hnx, bind_Done_l.
  - unfold single_cycle. rewrite Hlen. apply Forall_forall. intros v Hv.
    apply elem_of_seq in Hv. destruct (Hidx v ltac:(lia)) as (i & Hi & Ei).
    unfold single_cycle_from. rewrite Hlen. split.
    + apply submseteq_length_Permutation.
      2: { rewrite length_seq, (cycle_walk_length n i v); done. }
      apply NoDup_submseteq.
      * apply NoDup_alt. intros t t' u Et Et'.
        assert (Ht : (t < n)%nat).
        { apply lookup_lt_Some in Et. now rewrite (cycle_walk_length n i v) in Et. }
        assert (Ht' : (t' < n)%nat).
        { apply lookup_lt_Some in Et'. now rewrite (cycle_walk_length n i v) in Et'. }
        rewrite (cycle_walk_lookup n i t v) in Et by done.
        rewrite (cycle_walk_lookup n i t' v) in Et' by done.
        apply (add_mod_inj i); try done.
        now apply (NoDup_lookup ord _ _ u).
      * intros u Hu. apply list_elem_of_lookup_1 in Hu as [t Et].
        assert (Ht : (t < n)%nat).
        { apply lookup_lt_Some in Et. now rewrite (cycle_walk_length n i v) in Et. }
        rewrite (cycle_walk_lookup n i t v) in Et by done.
        apply list_elem_of_lookup_2 in Et. now rewrite Hp in Et.
    + destruct (cycle_steps n i v Hi Ei) as (w & Ew & Hs).
      replace (i + n)%nat with (i + 1 * n)%nat in Ew by lia.
      rewrite Nat.Div0.mod_add, Nat.mod_small in Ew by done.
      congruence.
Qed.

End Cycle.

(** The part of C1 that holds: the structure built by [tour_from_order] from
    a permutation of the node indices is a valid tour. *)
Lemma tour_from_order_valid (s : state) (ord : list nat) :
  (0 < length s)%nat → ord ≡ₚ seq 0 (length s) →
  ∃ s', tour_from_order s (Some <$> ord) = Done s' ∧ valid_tour s'.
Proof.
  intros Hn Hp. destruct (tour_from_order_links s ord Hp) as (s' & E & Hinv).
  exists s'. split; [ exact E | ].
  now apply (cycle_valid (length s) ord s').
Qed.

(** In particular the greedy order gives a valid tour. *)
Lemma greedy_tour_valid (s : state) :
  (0 < length s)%nat → below_sentinel s →
  ∃ (ord : list nat) (cst : Z) (s' : state),
    build_initial_tour s (malloc (length s)) = Done (Some <$> ord, cst) ∧
    tour_from_order s (Some <$> ord) = Done s' ∧
    valid_tour s'.
Proof.
  intros Hn Hb.
  destruct (build_initial_tour_spec s Hn Hb) as (ord & cst & E & Hp & _).
  destruct (tour_from_order_valid s ord Hn Hp) as (s' & E' & Hv).
  now exists ord, cst, s'.
Qed.

(** ** Runs on concrete instances *)

(** Conjunctions of closed equations, each settled by evaluation. *)
Ltac by_evaluation :=
  repeat match goal with |- _ ∧ _ => split end; vm_compute; reflexivity.
Ltac by_decision := apply (bool_decide_unpack _); vm_compute; exact I.

(** C4 on three collinear nodes at 0, 10 and 5, whatever the library sort
    does: node 0 is given [cand_count = 20] although only two candidates
    exist, the two entries are in index order with distances 10 then 5, and
    the other 18 cells were never written. *)
Theorem candidates_unsorted_overcounted
    (qsort : (Edge.t → Edge.t → Z) → list Edge.t → list Edge.t) :
  (s ← build_candidate_set qsort (read_tsplib three);
   n ← node s 0;
   Done (Node.cand_count n, Node.cands n))
  = Done (20%nat,
          [Some (Edge.mk 1 0 10); Some (Edge.mk 2 0 5)] ++ replicate 18 None).
Proof. vm_compute. reflexivity. Qed.

(** C7: on the empty instance [build_initial_tour] writes [visited[0]]
    outside its block; on a single node it returns the order [0] with length
    0 and the materialised tour has length 0, but the first pass of the local
    search reads the never-written candidate cell 0 (there are
    [cand_count = 20] of them), so that [main] does not complete. *)
Theorem degenerate_instances_fault
    (qsort : (Edge.t → Edge.t → Z) → list Edge.t → list Edge.t) (fuel : nat) :
  build_initial_tour (read_tsplib []) (malloc 0) = Fault ∧
  (s ← build_candidate_set qsort (read_tsplib single);
   build_initial_tour s (malloc 1)) = Done ([Some 0%nat], 0) ∧
  (s ← initial_tour qsort single; tour_length 1 s) = Done 0 ∧
  (s ← initial_tour qsort single;
   n ← node s 0; Done (Node.cand_count n, Node.cands n))
  = Done (20%nat, replicate 20 None) ∧
  (s ← initial_tour qsort single; two_opt_pass fuel s) = Fault ∧
  main qsort (S fuel) single = Fault ∧
  main qsort fuel [] = Fault.
Proof. by_evaluation. Qed.

(** C1 on [cluster]: the greedy tour 0, 3, 1, 2, 4, ..., 20 is a valid tour;
    the first pass accepts one move, for [a = 0] and its second candidate
    ([b = 3], [c = 1], [d = 2]); the local search then stops, and in the
    structure it leaves [next] runs 0, 1, 2, 3 and back to 0, so that 17 of
    the 21 nodes are never reached from node 0 and neither invariant holds. *)
Theorem two_opt_breaks_tour :
  initial_tour isort cluster = Done (tour_of cluster) ∧
  valid_tour (tour_of cluster) ∧
  two_opt_check 0 3 1 (tour_of cluster) = Done (Some (1%nat, 2%nat)) ∧
  two_opt_try 30 0 3 1 (tour_of cluster, false) = Done (cluster_final, true) ∧
  two_opt_local_search 30 30 (tour_of cluster) = Done cluster_final ∧
  successors cluster_final
  = Some <$> [1; 2; 3; 0; 5; 6; 7; 8; 9; 10; 11; 12; 13; 14; 15; 16; 17; 18;
              19; 20; 0]%nat ∧
  predecessors cluster_final
  = Some <$> [20; 0; 1; 2; 2; 4; 5; 6; 7; 8; 9; 10; 11; 12; 13; 14; 15; 16;
              17; 18; 19]%nat ∧
  walk cluster_final 21 0
  = [0; 1; 2; 3; 0; 1; 2; 3; 0; 1; 2; 3; 0; 1; 2; 3; 0; 1; 2; 3; 0]%nat ∧
  ¬ links_inverse cluster_final ∧
  ¬ single_cycle cluster_final.
Proof.
  split; [ vm_compute; reflexivity | ].
  split; [ by_decision | ].
  repeat (split; [ vm_compute; reflexivity | ]).
  split; by_decision.
Qed.

(** What [main] prints as the tour is the block filled by
    [build_initial_tour]; the tour structure is not read for it. *)
Lemma main_prints_greedy_order
    (qsort : (Edge.t → Edge.t → Z) → list Edge.t → list Edge.t)
    (fuel : nat) (records : list (Z * Q * Q)) (out : Output.t) :
  main qsort fuel records = Done out →
  ∃ s order,
    build_candidate_set qsort (read_tsplib records) = Done s ∧
    build_initial_tour s (malloc (length (read_tsplib records)))
      = Done (order, Output.initial_length out) ∧
    print_tour (length (read_tsplib records)) order = Done (Output.tour out).
Proof.
  unfold main. intros H.
  inv_bind H. inv_bind H. inv_bind H. inv_bind H.
  inv_bind H. inv_bind H. injection H as <-. destruct r0 as [order len].
  exists r, order. cbn [fst snd Output.initial_length Output.tour] in *.
  repeat split; assumption.
Qed.

(** C5 on [cluster]: [main] completes and prints the greedy order
    0, 3, 1, 2, 4, ..., 20, while the tour structure after the local search,
    read from node 0 along [next], is 0, 1, 2, 3. *)
Theorem main_prints_stale_order :
  main isort 30 cluster
  = Done (Output.mk 4304672112 21
            [0; 3; 1; 2; 4; 5; 6; 7; 8; 9; 10; 11; 12; 13; 14; 15; 16; 17; 18;
             19; 20]%nat) ∧
  (s ← initial_tour isort cluster; two_opt_local_search 30 30 s)
  = Done cluster_final ∧
  tour_order 30 cluster_final = Done [0; 1; 2; 3]%nat ∧
  tour_length 30 cluster_final = Done 21.
Proof. by_evaluation. Qed.

(** C2 on [cross]: the greedy tour 0, 1, ..., 20 is a valid tour of length
    2457.  In the first pass node 0 accepts nothing and node 1 ([b = 2])
    rejects its candidates 0 to 18 and accepts candidate 19 ([c = 20],
    [d = 0], [delta = 102 + 1204 - 1191 - 100 = 15]); this is the first move
    of the run, and after it [tour_length] is 2597. *)
Theorem two_opt_move_increases_length :
  initial_tour isort cross = Done (tour_of cross) ∧
  valid_tour (tour_of cross) ∧
  tour_length 30 (tour_of cross) = Done 2457 ∧
  two_opt_node 30 0 (tour_of cross, false) = Done (tour_of cross, false) ∧
  get_next (tour_of cross) 1 = Done 2%nat ∧
  for_range (two_opt_try 30 1 2) 0 19 (tour_of cross, false)
  = Done (tour_of cross, false) ∧
  two_opt_check 1 2 19 (tour_of cross) = Done (Some (20%nat, 0%nat)) ∧
  (dab ← dist (tour_of cross) 1 2; dcd ← dist (tour_of cross) 20 0;
   dac ← dist (tour_of cross) 1 20; dbd ← dist (tour_of cross) 2 0;
   Done (dab, dcd, dac, dbd)) = Done (102, 1204, 1191, 100) ∧
  two_opt_try 30 1 2 19 (tour_of cross, false) = Done (cross_1, true) ∧
  tour_length 30 cross_1 = Done 2597.
Proof.
  split; [ vm_compute; reflexivity | ]. split; [ by_decision | ]. by_evaluation.
Qed.

(** The same on [zigzag], later in a run: once the nodes 0 and 1 have been
    treated (one move accepted, for node 0, with [delta = 2]) [tour_length]
    is 220, down from 8609344236; node 2 then has [b = 3], its candidates 0
    to 2 are rejected and candidate 3 is accepted with [delta = 14], after
    which [tour_length] is 8609344200. *)
Lemma zigzag_lengths :
  initial_tour isort zigzag = Done (tour_of zigzag) ∧
  tour_length 30 (tour_of zigzag) = Done 8609344236 ∧
  for_range (two_opt_node 30) 0 2 (tour_of zigzag, false) = Done (zigzag_1, true) ∧
  tour_length 30 zigzag_1 = Done 220 ∧
  get_next zigzag_1 2 = Done 3%nat ∧
  for_range (two_opt_try 30 2 3) 0 3 (zigzag_1, true) = Done (zigzag_1, true) ∧
  two_opt_check 2 3 3 zigzag_1 = Done (Some (4%nat, 3%nat)) ∧
  two_opt_try 30 2 3 3 (zigzag_1, true) = Done (zigzag_2, true) ∧
  tour_length 30 zigzag_2 = Done 8609344200.
Proof. by_evaluation. Qed.

(** C9 on the greedy tour of [cluster], a valid cycle with [a = 0], [b = 3],
    [c = 1], [d = 2] ([c] is the successor of [b]): reversing twice with the
    same nodes does not give the links back, and neither does reversing back
    with [b] and [c] exchanged. *)
Theorem reverse_segment_twice_differs :
  valid_tour (tour_of cluster) ∧
  get_next (tour_of cluster) 0 = Done 3%nat ∧
  get_next (tour_of cluster) 3 = Done 1%nat ∧
  get_next (tour_of cluster) 1 = Done 2%nat ∧
  successors (tour_of cluster)
  = Some <$> [3; 2; 4; 1; 5; 6; 7; 8; 9; 10; 11; 12; 13; 14; 15; 16; 17; 18;
              19; 20; 0]%nat ∧
  (s ← reverse_segment 30 0 3 1 2 (tour_of cluster);
   s ← reverse_segment 30 0 3 1 2 s; Done (successors s))
  = Done (Some <$> [1; 2; 3; 2; 5; 6; 7; 8; 9; 10; 11; 12; 13; 14; 15; 16; 17;
                    18; 19; 20; 0]%nat) ∧
  (s ← reverse_segment 30 0 3 1 2 (tour_of cluster);
   s ← reverse_segment 30 0 1 3 2 s; Done (successors s))
  = Done (Some <$> [3; 0; 1; 0; 5; 6; 7; 8; 9; 10; 11; 12; 13; 14; 15; 16; 17;
                    18; 19; 20; 0]%nat).
Proof.
  split; [ by_decision | ]. by_evaluation.
Qed.

(** ** Fuel *)

Lemma for_range_Done_impl {St} (body body' : nat → St → outcome St)
    (n lo : nat) (s r : St) :
  (∀ i s r, body i s = Done r → body' i s = Done r) →
  for_range body lo n s = Done r → for_range body' lo n s = Done r.
Proof.
  intros Himpl. revert lo s. induction n as [ | n IH ]; intros lo s H; cbn in *.
  - exact H.
  - inv_bind H. rewrite (Himpl _ _ _ H0). cbn. eauto.
Qed.

Lemma reverse_loop_unfold (fuel c p : nat) (s : state) :
  reverse_loop fuel c p s =
  if decide (p ≠ c) then
    match fuel with
    | O => Timeout
    | S fuel' =>
        n ← node s p;
        tmp ← link (Node.next n);
        reverse_loop fuel' c tmp
          (<[p := Node.set_prev (Node.set_next n (Node.prev n)) (Some tmp)]> s)
    end
  else Done s.
Proof. destruct fuel; reflexivity. Qed.

(** More fuel does not change a completed reversal. *)
Lemma reverse_loop_mono (f f' c p : nat) (s r : state) :
  (f ≤ f')%nat → reverse_loop f c p s = Done r → reverse_loop f' c p s = Done r.
Proof.
  revert f' p s. induction f as [ | f IH ]; intros f' p s Hle H;
    rewrite reverse_loop_unfold in H; rewrite reverse_loop_unfold;
    destruct (decide (p ≠ c)); try done.
  destruct f' as [ | f' ]; [ lia | ].
  inv_bind H. inv_bind H. rewrite H0. cbn. rewrite H1. cbn.
  apply IH; [ lia | exact H ].
Qed.

Lemma reverse_segment_mono (f f' a b c d : nat) (s r : state) :
  (f ≤ f')%nat →
  reverse_segment f a b c d s = Done r → reverse_segment f' a b c d s = Done r.
Proof.
  unfold reverse_segment. intros Hle H. inv_bind H.
  now rewrite (reverse_loop_mono f f' c b s r0 Hle H0).
Qed.

Lemma two_opt_try_check (fuel a b k : nat) (st : state * bool) :
  two_opt_try fuel a b k st =
  m ← two_opt_check a b k st.1;
  match m with
  | Some (c, d) => s ← reverse_segment fuel a b c d st.1; Done (s, true)
  | None => Done st
  end.
Proof.
  unfold two_opt_try, two_opt_check.
  destruct (node st.1 a) as [na | | ]; cbn; try reflexivity.
  destruct (aget (Node.cands na) k) as [e | | ]; cbn; try reflexivity.
  destruct (get_next st.1 (Edge.to e)) as [d | | ]; cbn; try reflexivity.
  destruct (decide _); [ reflexivity | ].
  destruct (dist st.1 a b) as [dab | | ]; cbn; try reflexivity.
  destruct (dist st.1 (Edge.to e) d) as [dcd | | ]; cbn; try reflexivity.
  destruct (dist st.1 a (Edge.to e)) as [dac | | ]; cbn; try reflexivity.
  destruct (dist st.1 b d) as [dbd | | ]; cbn; try reflexivity.
  destruct (exceeds_tolerance _); reflexivity.
Qed.

Lemma two_opt_try_mono (f f' a b k : nat) (st r : state * bool) :
  (f ≤ f')%nat →
  two_opt_try f a b k st = Done r → two_opt_try f' a b k st = Done r.
Proof.
  rewrite !two_opt_try_check. intros Hle H. inv_bind H. rewrite H0. cbn.
  destruct r0 as [[c d] | ]; [ | exact H ].
  inv_bind H. now rewrite (reverse_segment_mono f f' a b c d _ _ Hle H1).
Qed.

Lemma two_opt_node_mono (f f' i : nat) (st r : state * bool) :
  (f ≤ f')%nat →
  two_opt_node f i st = Done r → two_opt_node f' i st = Done r.
Proof.
  unfold two_opt_node. intros Hle H. inv_bind H. inv_bind H.
  rewrite H0. cbn. rewrite H1. cbn.
  eapply for_range_Done_impl; [ | exact H ].
  intros k st' r'. now apply two_opt_try_mono.
Qed.

(** A node whose two links point to itself is never left by the reversal
    loop. *)
Lemma reverse_loop_self_loop (fuel c p : nat) (s : state) :
  p ≠ c →
  Node.next <$> s !! p = Some (Some p) →
  Node.prev <$> s !! p = Some (Some p) →
  reverse_loop fuel c p s = Timeout.
Proof.
  intros Hne Hn Hp. induction fuel as [ | fuel IH ];
    rewrite reverse_loop_unfold; rewrite decide_True by done; [ reflexivity | ].
  unfold node. destruct (s !! p) as [n | ] eqn:E; [ | discriminate ].
  cbn in Hn, Hp. injection Hn as Hn. injection Hp as Hp.
  cbn. rewrite Hn. cbn.
  replace (Node.set_prev (Node.set_next n (Node.prev n)) (Some p)) with n.
  - now rewrite list_insert_id.
  - destruct n; cbn in *. now subst.
Qed.

(** ** A run that does not end *)

Lemma two_opt_node_zigzag_2 (fuel : nat) :
  (3 ≤ fuel)%nat → two_opt_node fuel 2 (zigzag_1, true) = Timeout.
Proof.
  intros Hf. unfold two_opt_node. cbn [fst].
  assert (E1 : get_next zigzag_1 2 = Done 3%nat) by (vm_compute; reflexivity).
  rewrite E1, bind_Done_l.
  assert (E2 : ∃ n, node zigzag_1 2 = Done n ∧ Node.cand_count n = 20%nat).
  { eexists. split; vm_compute; reflexivity. }
  destruct E2 as (n & En & Ec). rewrite En, bind_Done_l, Ec.
  change 20%nat with (19 + 1)%nat. rewrite for_range_split.
  assert (E3 : for_range (two_opt_try 3 2 3) 0 19 (zigzag_1, true)
               = Done (zigzag_2, true)) by (vm_compute; reflexivity).
  apply (for_range_Done_impl _ (two_opt_try fuel 2 3)) in E3.
  2: { intros k st r. now apply two_opt_try_mono. }
  rewrite E3, bind_Done_l. cbn [for_range]. rewrite two_opt_try_check. cbn [fst].
  assert (E4 : two_opt_check 2 3 (0 + 19) zigzag_2 = Done (Some (20%nat, 0%nat)))
    by (vm_compute; reflexivity).
  rewrite E4, bind_Done_l. unfold reverse_segment.
  rewrite reverse_loop_self_loop; [ reflexivity | lia | | ];
    vm_compute; reflexivity.
Qed.

Lemma two_opt_pass_zigzag (fuel : nat) :
  two_opt_pass fuel (tour_of zigzag) = Timeout.
Proof.
  destruct (decide (fuel < 3)%nat) as [Hlt | Hge].
  - destruct fuel as [ | [ | [ | fuel ] ] ]; [ vm_compute; reflexivity .. | lia ].
  - unfold two_opt_pass.
    assert (E0 : length (tour_of zigzag) = (2 + 19)%nat) by (vm_compute; reflexivity).
    rewrite E0, for_range_split.
    assert (E1 : for_range (two_opt_node 3) 0 2 (tour_of zigzag, false)
                 = Done (zigzag_1, true)) by (vm_compute; reflexivity).
    apply (for_range_Done_impl _ (two_opt_node fuel)) in E1.
    2: { intros k st r. apply two_opt_node_mono. lia. }
    rewrite E1, bind_Done_l. cbn [for_range Nat.add].
    rewrite two_opt_node_zigzag_2 by lia. reflexivity.
Qed.

Lemma main_Timeout
    (qsort : (Edge.t → Edge.t → Z) → list Edge.t → list Edge.t)
    (fuel : nat) (records : list (Z * Q * Q)) (s : state) :
  initial_tour qsort records = Done s →
  two_opt_local_search fuel fuel s = Timeout →
  main qsort fuel records = Timeout.
Proof.
  unfold initial_tour, main. intros H Hs. inv_bind H. inv_bind H.
  rewrite H0, bind_Done_l, H1, bind_Done_l, H, bind_Done_l, Hs. reflexivity.
Qed.

Lemma two_opt_local_search_zigzag (passes fuel : nat) :
  two_opt_local_search passes fuel (tour_of zigzag) = Timeout.
Proof.
  destruct passes as [ | passes ]; [ reflexivity | ].
  cbn [two_opt_local_search]. now rewrite two_opt_pass_zigzag.
Qed.

Lemma main_zigzag (fuel : nat) : main isort fuel zigzag = Timeout.
Proof.
  apply (main_Timeout isort fuel zigzag (tour_of zigzag)).
  - vm_compute. reflexivity.
  - apply two_opt_local_search_zigzag.
Qed.

(** C3 on [zigzag]: however many passes and loop iterations are allowed, the
    local search started on the greedy tour does not return, and neither does
    [main].  In the first pass the third accepted move (node 2, [b = 3],
    [c = 20]) starts the reversal loop at node 3, whose two links both point
    to node 3 itself. *)
Theorem two_opt_local_search_diverges :
  initial_tour isort zigzag = Done (tour_of zigzag) ∧
  valid_tour (tour_of zigzag) ∧
  two_opt_check 2 3 19 zigzag_2 = Done (Some (20%nat, 0%nat)) ∧
  get_next zigzag_2 3 = Done 3%nat ∧
  get_prev zigzag_2 3 = Done 3%nat ∧
  (∀ fuel, reverse_loop fuel 20 3 zigzag_2 = Timeout) ∧
  (∀ passes fuel, two_opt_local_search passes fuel (tour_of zigzag) = Timeout) ∧
  (∀ fuel, main isort fuel zigzag = Timeout).
Proof.
  split; [ vm_compute; reflexivity | ]. split; [ by_decision | ].
  repeat (split; [ vm_compute; reflexivity | ]).
  split; [ | split ].
  - intros fuel. apply reverse_loop_self_loop; [ lia | | ]; vm_compute; reflexivity.
  - apply two_opt_local_search_zigzag.
  - apply main_zigzag.
Qed.

(** ** The library sort does not matter when distances are distinct *)

Lemma insert_edge_perm (e : Edge.t) (l : list Edge.t) :
  insert_edge cmp_edges e l ≡ₚ e :: l.
Proof.
  induction l as [ | e' l IH ]; cbn; [ done | ].
  destruct (decide _); [ done | ]. rewrite IH. apply Permutation_swap.
Qed.

Lemma insert_edge_sorted (e : Edge.t) (l : list Edge.t) :
  Sorted edge_le l → Sorted edge_le (insert_edge cmp_edges e l).
Proof.
  induction l as [ | e' l IH ]; intros Hs; cbn.
  - repeat constructor.
  - destruct (decide (cmp_edges e e' ≤ 0)) as [Hle | Hgt].
    + constructor; [ done | now constructor ].
    + apply Sorted_inv in Hs as [Hs Hhd]. constructor; [ now apply IH | ].
      assert (Hee : edge_le e' e) by (unfold edge_le, cmp_edges in *; lia).
      destruct l as [ | e'' l ]; cbn.
      * now constructor.
      * destruct (decide _); constructor; [ done | ].
        now apply HdRel_inv in Hhd.
Qed.

Lemma isort_sorts : sorts isort.
Proof.
  intros l. unfold isort. induction l as [ | e l [IHp IHs] ]; cbn.
  - split; [ done | constructor ].
  - split; [ rewrite insert_edge_perm; now f_equiv | now apply insert_edge_sorted ].
Qed.

#[global] Instance edge_le_trans : Transitive edge_le.
Proof. intros e1 e2 e3. unfold edge_le, cmp_edges. lia. Qed.

Lemma NoDup_fmap_eq {A B} (f : A → B) (l : list A) (x y : A) :
  NoDup (f <$> l) → x ∈ l → y ∈ l → f x = f y → x = y.
Proof.
  induction l as [ | a l IH ]; intros Hnd Hx Hy Hf; [ now apply elem_of_nil in Hx | ].
  cbn in Hnd. apply NoDup_cons in Hnd as [Hna Hnd].
  apply elem_of_cons in Hx as [-> | Hx]; apply elem_of_cons in Hy as [-> | Hy];
    try done.
  - exfalso. apply Hna. rewrite Hf. now apply list_elem_of_fmap_2.
  - exfalso. apply Hna. rewrite <- Hf. now apply list_elem_of_fmap_2.
  - now apply IH.
Qed.

Lemma sorts_unique (qsort : (Edge.t → Edge.t → Z) → list Edge.t → list Edge.t)
    (l : list Edge.t) :
  sorts qsort → NoDup (Edge.length <$> l) →
  qsort cmp_edges l = isort cmp_edges l.
Proof.
  intros Hq Hnd. destruct (Hq l) as [Hp Hs].
  destruct (isort_sorts l) as [Hp' Hs'].
  apply (Sorted_unique_strong edge_le); try done; [ | now rewrite Hp, Hp' ].
  intros e1 e2 H1 H2 H12 H21. rewrite Hp in H1. rewrite Hp' in H2.
  apply (NoDup_fmap_eq Edge.length l); try done.
  unfold edge_le, cmp_edges in *. lia.
Qed.

Lemma for_range_ext_inv {St} (body1 body2 : nat → St → outcome St)
    (I : nat → St → Prop) (n lo : nat) (s : St) :
  I lo s →
  (∀ i s, (lo ≤ i < lo + n)%nat → I i s →
     body1 i s = body2 i s ∧ ∀ s', body2 i s = Done s' → I (S i) s') →
  for_range body1 lo n s = for_range body2 lo n s.
Proof.
  revert lo s. induction n as [ | n IH ]; intros lo s H0 Hstep; cbn; [ done | ].
  destruct (Hstep lo s ltac:(lia) H0) as [E Hnext]. rewrite E.
  destruct (body2 lo s) as [s' | | ]; cbn; try done.
  apply IH; [ now apply Hnext | ]. intros i s0 Hi. apply Hstep. lia.
Qed.

Lemma aget_written {A} (l : list A) (rest : list (option A)) (i : nat) (v : A) :
  l !! i = Some v → aget ((Some <$> l) ++ rest) i = Done v.
Proof.
  intros H. unfold aget. rewrite lookup_app_l.
  - now rewrite list_lookup_fmap, H.
  - rewrite length_fmap. now apply lookup_lt_Some in H.
Qed.

(** Reading the written cells of a block back. *)
Lemma read_cells (pre es : list Edge.t) (rest : list (option Edge.t)) :
  for_range (λ i acc, e ← aget ((Some <$> pre ++ es) ++ rest) i; Done (acc ++ [e]))
    (length pre) (length es) pre
  = Done (pre ++ es).
Proof.
  revert pre. induction es as [ | e es IH ]; intros pre; cbn [for_range length].
  - now rewrite app_nil_r.
  - cbv beta.
    rewrite (aget_written (pre ++ e :: es) rest (length pre) e)
      by now apply list_lookup_middle.
    rewrite !bind_Done_l.
    specialize (IH (pre ++ [e])). rewrite length_app in IH. cbn in IH.
    rewrite Nat.add_1_r in IH. rewrite <- app_assoc in IH. exact IH.
Qed.

Lemma qsort_block_written
    (qsort : (Edge.t → Edge.t → Z) → list Edge.t → list Edge.t)
    (es : list Edge.t) (rest : list (option Edge.t)) :
  qsort_block qsort ((Some <$> es) ++ rest) (length es)
  = Done ((Some <$> qsort cmp_edges es) ++ rest).
Proof.
  unfold qsort_block. pose proof (read_cells [] es rest) as E.
  cbn [app length] in E. rewrite E, bind_Done_l.
  now rewrite drop_app_length' by now rewrite length_fmap.
Qed.

Lemma K_CANDIDATES_pos : (0 < K_CANDIDATES)%nat.
Proof. unfold K_CANDIDATES. lia. Qed.

Lemma block_push (es : list Edge.t) (e : Edge.t) :
  (length es < K_CANDIDATES)%nat →
  aset ((Some <$> es) ++ replicate (K_CANDIDATES - length es) None) (length es) e
  = Done ((Some <$> es ++ [e])
          ++ replicate (K_CANDIDATES - length (es ++ [e])) None).
Proof.
  intros Hlt. unfold aset.
  rewrite decide_True by (rewrite length_app, length_fmap, length_replicate; lia).
  f_equal. rewrite insert_app_r_alt by (rewrite length_fmap; lia).
  rewrite length_fmap, Nat.sub_diag, length_app. cbn [length].
  destruct (K_CANDIDATES - length es)%nat as [ | m ] eqn:E; [ lia | ].
  replace (K_CANDIDATES - (length es + 1))%nat with m by lia.
  rewrite fmap_app, <- app_assoc. reflexivity.
Qed.

Lemma block_replace (es : list Edge.t) (e : Edge.t) :
  length es = K_CANDIDATES →
  aset ((Some <$> es) ++ replicate (K_CANDIDATES - length es) None)
    (K_CANDIDATES - 1) e
  = Done ((Some <$> <[(K_CANDIDATES - 1)%nat:=e]> es)
          ++ replicate (K_CANDIDATES - length (<[(K_CANDIDATES - 1)%nat:=e]> es))
               None).
Proof.
  intros Hlen. pose proof K_CANDIDATES_pos as HK. unfold aset.
  rewrite decide_True by (rewrite length_app, length_fmap; lia).
  f_equal. rewrite insert_app_l by (rewrite length_fmap; lia).
  now rewrite list_fmap_insert, length_insert.
Qed.

Lemma elem_of_insert_inv {A} (l : list A) (i : nat) (x y : A) :
  y ∈ <[i:=x]> l → y = x ∨ y ∈ l.
Proof.
  revert i. induction l as [ | a l IH ]; intros [ | i ] H; cbn in H;
    try (now right).
  - apply elem_of_cons in H as [-> | H]; [ now left | right; now right ].
  - apply elem_of_cons in H as [-> | H]; [ right; now left | ].
    destruct (IH i H) as [-> | H']; [ now left | right; now right ].
Qed.

Lemma NoDup_insert_fresh {A} (l : list A) (i : nat) (x : A) :
  NoDup l → x ∉ l → NoDup (<[i:=x]> l).
Proof.
  revert i. induction l as [ | a l IH ]; intros [ | i ] Hnd Hx; cbn; try done.
  - apply NoDup_cons in Hnd as [Ha Hnd]. apply NoDup_cons. split; [ | done ].
    intros Hin. apply Hx. now right.
  - apply NoDup_cons in Hnd as [Ha Hnd]. apply NoDup_cons. split.
    + intros Hin. apply elem_of_insert_inv in Hin as [-> | Hin]; [ | done ].
      apply Hx. now left.
    + apply IH; [ done | ]. intros Hin. apply Hx. now right.
Qed.

Lemma distinct_row_fresh (s : state) (i j j' : nat) :
  NoDup (dist s i <$> others (length s) i) →
  (j < length s)%nat → (j' < length s)%nat → j ≠ i → j' ≠ i →
  dist s i j = dist s i j' → j = j'.
Proof.
  intros Hrow Hj Hj' Hne Hne'.
  apply (NoDup_fmap_eq (dist s i) (others (length s) i)); try done;
    unfold others; apply list_elem_of_filter; (split; [ done | ]);
    apply elem_of_seq; lia.
Qed.

(** What the sort returns still satisfies what was known of the cells. *)
Lemma cand_inv_sorted (s : state) (i j k : nat) (es : list Edge.t) :
  k = length es → (length es ≤ K_CANDIDATES)%nat →
  NoDup (Edge.length <$> es) →
  Forall (λ e, ∃ j', (j' < j)%nat ∧ j' ≠ i ∧ dist s i j' = Done (Edge.length e)) es →
  cand_inv s i j
    ((Some <$> isort cmp_edges es)
     ++ replicate (K_CANDIDATES - length es) None, k).
Proof.
  intros Hk Hle Hnd Hall. destruct (isort_sorts es) as [Hp _].
  exists (isort cmp_edges es). cbn [fst snd].
  rewrite (Permutation_length Hp). repeat split; try done.
  - now rewrite Hp.
  - now rewrite Hp.
Qed.

Lemma cand_step_any_qsort
    (qsort : (Edge.t → Edge.t → Z) → list Edge.t → list Edge.t)
    (s : state) (i j : nat) (st : list (option Edge.t) * nat) :
  sorts qsort →
  NoDup (dist s i <$> others (length s) i) →
  (i < length s)%nat → (j < length s)%nat →
  cand_inv s i j st →
  cand_step qsort s i j st = cand_step isort s i j st ∧
  ∀ st', cand_step isort s i j st = Done st' → cand_inv s i (S j) st'.
Proof.
  intros Hq Hrow Hi Hj (es & E1 & E2 & Hle & Hnd & Hall).
  destruct st as [cands k]. cbn [fst snd] in *. subst cands k.
  assert (Hweak : Forall (λ e, ∃ j', (j' < S j)%nat ∧ j' ≠ i ∧
                                     dist s i j' = Done (Edge.length e)) es).
  { eapply Forall_impl; [ exact Hall | ].
    intros e (j' & ? & ? & ?). exists j'. repeat split; [ lia | done .. ]. }
  unfold cand_step. destruct (decide (j ≠ i)) as [Hne | Heq].
  2: { split; [ done | ]. intros st' [= <-]. now exists es. }
  destruct (dist_Done s i j Hi Hj) as [d Ed]. rewrite Ed, !bind_Done_l.
  assert (Hfresh : d ∉ Edge.length <$> es).
  { intros Hin. apply list_elem_of_fmap in Hin as (e & -> & He).
    rewrite Forall_forall in Hall. destruct (Hall e He) as (j' & Hj' & Hne' & Ed').
    assert (j = j'); [ | lia ].
    apply (distinct_row_fresh s i); try done; [ | congruence ].
    unfold dist, node in Ed'. destruct (s !! i); [ | done ].
    destruct (s !! j') eqn:E; [ | done ]. now apply lookup_lt_Some in E. }
  set (new := Edge.mk j 0 d).
  assert (Hnew : ∃ j', (j' < S j)%nat ∧ j' ≠ i ∧
                       dist s i j' = Done (Edge.length new)).
  { exists j. repeat split; [ lia | done | done ]. }
  destruct (decide (length es < K_CANDIDATES)%nat) as [Hlt | Hge].
  - rewrite block_push by done. rewrite !bind_Done_l.
    assert (Hnd' : NoDup (Edge.length <$> es ++ [new])).
    { rewrite fmap_app. apply NoDup_app. repeat split; [ done | | apply NoDup_singleton ].
      intros z Hz Hz'. apply list_elem_of_singleton in Hz' as ->. done. }
    assert (Hall' : Forall (λ e, ∃ j', (j' < S j)%nat ∧ j' ≠ i ∧
                                       dist s i j' = Done (Edge.length e))
                      (es ++ [new])).
    { apply Forall_app. split; [ done | now apply Forall_singleton ]. }
    assert (Hlen' : length (es ++ [new]) = S (length es)).
    { rewrite length_app. cbn. lia. }
    destruct (decide (S (length es) = K_CANDIDATES)) as [HK | HK].
    + rewrite <- Hlen', !qsort_block_written, (sorts_unique qsort _ Hq Hnd').
      split; [ done | ]. rewrite bind_Done_l. intros st' [= <-].
      apply cand_inv_sorted; try done. lia.
    + split; [ done | ]. intros st' [= <-]. exists (es ++ [new]).
      cbn [fst snd]. repeat split; try done. lia.
  - assert (Hlen : length es = K_CANDIDATES) by lia.
    pose proof K_CANDIDATES_pos as HK.
    destruct (lookup_lt_is_Some_2 es (K_CANDIDATES - 1)) as [w Hw]; [ lia | ].
    rewrite (aget_written es _ _ w Hw), !bind_Done_l.
    destruct (decide (d < Edge.length w)) as [Hdw | Hdw].
    + rewrite block_replace by done. rewrite !bind_Done_l.
      set (es' := <[(K_CANDIDATES - 1)%nat:=new]> es).
      assert (Hlen' : length es' = K_CANDIDATES) by (unfold es'; now rewrite length_insert).
      assert (Hnd' : NoDup (Edge.length <$> es')).
      { unfold es'. rewrite list_fmap_insert. now apply NoDup_insert_fresh. }
      assert (Hall' : Forall (λ e, ∃ j', (j' < S j)%nat ∧ j' ≠ i ∧
                                         dist s i j' = Done (Edge.length e)) es').
      { unfold es'. now apply Forall_insert. }
      pose proof (qsort_block_written qsort es'
                    (replicate (K_CANDIDATES - length es') None)) as Eq.
      pose proof (qsort_block_written isort es'
                    (replicate (K_CANDIDATES - length es') None)) as Ei.
      rewrite Hlen' in Eq at 2. rewrite Hlen' in Ei at 2.
      rewrite Eq, Ei, (sorts_unique qsort _ Hq Hnd').
      split; [ done | ]. rewrite bind_Done_l. intros st' [= <-].
      apply cand_inv_sorted; try done; lia.
    + split; [ done | ]. intros st' [= <-]. now exists es.
Qed.

Lemma node_candidates_any_qsort
    (qsort : (Edge.t → Edge.t → Z) → list Edge.t → list Edge.t)
    (s : state) (i : nat) :
  sorts qsort →
  NoDup (dist s i <$> others (length s) i) → (i < length s)%nat →
  node_candidates qsort s i = node_candidates isort s i.
Proof.
  intros Hq Hrow Hi. unfold node_candidates.
  rewrite (for_range_ext_inv (cand_step qsort s i) (cand_step isort s i)
             (cand_inv s i)); [ reflexivity | | ].
  - exists []. cbn [fst snd fmap list_fmap app length]. rewrite Nat.sub_0_r.
    repeat split; [ lia | constructor | constructor ].
  - intros j st Hj Hinv. apply cand_step_any_qsort; try done. lia.
Qed.

Lemma dist_coords (s s' : state) (a b : nat) :
  coords s' = coords s → dist s' a b = dist s a b.
Proof.
  intros H. unfold dist, node.
  assert (L : ∀ i, (λ n, (Node.x n, Node.y n)) <$> s' !! i
                   = (λ n, (Node.x n, Node.y n)) <$> s !! i).
  { intros i. unfold coords in H. now rewrite <- !list_lookup_fmap, H. }
  pose proof (L a) as La. pose proof (L b) as Lb.
  destruct (s' !! a) as [na' | ], (s !! a) as [na | ]; try done.
  destruct (s' !! b) as [nb' | ], (s !! b) as [nb | ]; try done.
  cbn in *. injection La as -> ->. injection Lb as -> ->. reflexivity.
Qed.

Lemma coords_update_cands (s s' : state) (i k : nat) (c : list (option Edge.t)) :
  update s i (λ n, Node.set_cands n k c) = Done s' → coords s' = coords s.
Proof.
  unfold update, node. destruct (s !! i) as [n | ] eqn:E; [ | done ].
  cbn. intros [= <-]. unfold coords. rewrite list_fmap_insert. cbn.
  apply list_insert_id. now rewrite list_lookup_fmap, E.
Qed.

Lemma build_candidate_set_any_qsort
    (qsort : (Edge.t → Edge.t → Z) → list Edge.t → list Edge.t) (s : state) :
  sorts qsort → distinct_distances s →
  build_candidate_set qsort s = build_candidate_set isort s.
Proof.
  intros Hq Hd. unfold build_candidate_set.
  apply (for_range_ext_inv _ _ (λ _ s', coords s' = coords s)); [ done | ].
  intros i s' Hi Hc. cbn in Hi.
  assert (Hlen : length s' = length s).
  { apply (f_equal length) in Hc. unfold coords in Hc. now rewrite !length_fmap in Hc. }
  split.
  - rewrite node_candidates_any_qsort; [ done | done | | lia ].
    rewrite Hlen. unfold distinct_distances in Hd. rewrite Forall_forall in Hd.
    specialize (Hd i ltac:(apply elem_of_seq; lia)).
    erewrite list_fmap_ext; [ exact Hd | ].
    intros ? j _. now apply dist_coords.
  - intros s'' H. inv_bind H. apply coords_update_cands in H. congruence.
Qed.

(** With pairwise distinct distances from every node, the tour handed to the
    local search and the whole run are the same for every library sort. *)
Lemma initial_tour_any_qsort
    (qsort : (Edge.t → Edge.t → Z) → list Edge.t → list Edge.t)
    (records : list (Z * Q * Q)) :
  sorts qsort → distinct_distances (read_tsplib records) →
  initial_tour qsort records = initial_tour isort records.
Proof.
  intros Hq Hd. unfold initial_tour.
  now rewrite build_candidate_set_any_qsort.
Qed.

Lemma main_any_qsort
    (qsort : (Edge.t → Edge.t → Z) → list Edge.t → list Edge.t)
    (fuel : nat) (records : list (Z * Q * Q)) :
  sorts qsort → distinct_distances (read_tsplib records) →
  main qsort fuel records = main isort fuel records.
Proof.
  intros Hq Hd. unfold main.
  now rewrite build_candidate_set_any_qsort.
Qed.

Lemma instances_distinct_distances :
  distinct_distances (read_tsplib cluster) ∧
  distinct_distances (read_tsplib zigzag) ∧
  distinct_distances (read_tsplib cross) ∧
  distinct_distances (read_tsplib doubling).
Proof. repeat split; by_decision. Qed.

(** The runs on [cluster] and [zigzag] studied above are the runs with any
    library sort that meets its contract. *)
Lemma runs_any_qsort
    (qsort : (Edge.t → Edge.t → Z) → list Edge.t → list Edge.t) :
  sorts qsort →
  initial_tour qsort cluster = Done (tour_of cluster) ∧
  initial_tour qsort zigzag = Done (tour_of zigzag) ∧
  initial_tour qsort cross = Done (tour_of cross) ∧
  (∀ fuel, main qsort fuel cluster = main isort fuel cluster) ∧
  (∀ fuel, main qsort fuel zigzag = Timeout).
Proof.
  intros Hq. destruct instances_distinct_distances as (Hc & Hz & Hx & _).
  repeat match goal with |- _ ∧ _ => split end.
  - rewrite initial_tour_any_qsort by done. vm_compute. reflexivity.
  - rewrite initial_tour_any_qsort by done. vm_compute. reflexivity.
  - rewrite initial_tour_any_qsort by done. vm_compute. reflexivity.
  - intros fuel. now apply main_any_qsort.
  - intros fuel. rewrite main_any_qsort by done. apply main_zigzag.
Qed.

(** ** What the tour code leaves alone *)

Lemma for_range_preserves {St} (P : St → Prop) (body : nat → St → outcome St)
    (n lo : nat) (s s' : St) :
  (∀ i s s', body i s = Done s' → P s → P s') →
  for_range body lo n s = Done s' → P s → P s'.
Proof.
  intros Hbody. revert lo s. induction n as [ | n IH ]; intros lo s H Hs; cbn in H.
  - congruence.
  - inv_bind H. eauto.
Qed.

Lemma payloads_insert (s : state) (i : nat) (n n' : Node.t) :
  s !! i = Some n → payload n' = payload n → payloads (<[i := n']> s) = payloads s.
Proof.
  intros E H. unfold payloads. rewrite list_fmap_insert, H.
  apply list_insert_id. now rewrite list_lookup_fmap, E.
Qed.

Lemma update_payloads (s s' : state) (i : nat) (f : Node.t → Node.t) :
  (∀ n, payload (f n) = payload n) →
  update s i f = Done s' → payloads s' = payloads s.
Proof.
  intros Hf. unfold update, node. destruct (s !! i) as [n | ] eqn:E; [ | done ].
  cbn. intros [= <-]. now apply (payloads_insert s i n).
Qed.

Lemma payloads_length (s s' : state) :
  payloads s' = payloads s → length s' = length s.
Proof.
  intros H. apply (f_equal length) in H. unfold payloads in H.
  now rewrite !length_fmap in H.
Qed.

Lemma payloads_lookup (s s' : state) (i : nat) (n : Node.t) :
  payloads s' = payloads s → s !! i = Some n →
  ∃ n', s' !! i = Some n' ∧ payload n' = payload n.
Proof.
  intros H E. assert (L : payloads s' !! i = Some (payload n)).
  { rewrite H. unfold payloads. now rewrite list_lookup_fmap, E. }
  unfold payloads in L. rewrite list_lookup_fmap in L.
  destruct (s' !! i) as [n' | ]; [ | done ]. cbn in L. exists n'. split; congruence.
Qed.

Lemma payloads_coords (s s' : state) :
  payloads s' = payloads s → coords s' = coords s.
Proof.
  intros H. unfold coords.
  assert (E : ∀ t : state, (λ n, (Node.x n, Node.y n)) <$> t
                           = (λ p : Z * Q * Q * nat * array Edge.t, (p.1.1.1.2, p.1.1.2))
                               <$> payloads t).
  { intros t. unfold payloads. rewrite <- list_fmap_compose. reflexivity. }
  now rewrite !E, H.
Qed.

Lemma reverse_loop_payloads (fuel c p : nat) (s s' : state) :
  reverse_loop fuel c p s = Done s' → payloads s' = payloads s.
Proof.
  revert p s. induction fuel as [ | fuel IH ]; intros p s H;
    rewrite reverse_loop_unfold in H; destruct (decide (p ≠ c)); try done;
    try congruence.
  inv_bind H. inv_bind H. apply IH in H. rewrite H.
  unfold node in H0. destruct (s !! p) as [np | ] eqn:E; [ | done ].
  injection H0 as <-. now apply (payloads_insert s p np).
Qed.

Lemma reverse_segment_payloads (fuel a b c d : nat) (s s' : state) :
  reverse_segment fuel a b c d s = Done s' → payloads s' = payloads s.
Proof.
  unfold reverse_segment. intros H. inv_bind H. inv_bind H. inv_bind H. inv_bind H.
  apply reverse_loop_payloads in H0.
  apply update_payloads in H1, H2, H3, H; try done. congruence.
Qed.

Lemma two_opt_try_payloads (fuel a b k : nat) (st st' : state * bool) :
  two_opt_try fuel a b k st = Done st' → payloads st'.1 = payloads st.1.
Proof.
  rewrite two_opt_try_check. intros H. inv_bind H.
  destruct r as [[c d] | ]; [ | congruence ].
  inv_bind H. injection H as <-. now apply reverse_segment_payloads in H1.
Qed.

Lemma two_opt_node_payloads (fuel i : nat) (st st' : state * bool) :
  two_opt_node fuel i st = Done st' → payloads st'.1 = payloads st.1.
Proof.
  unfold two_opt_node. intros H. inv_bind H. inv_bind H.
  apply (for_range_preserves (λ t, payloads t.1 = payloads st.1)) in H; [ done | | done ].
  intros k t t' Ht E. apply two_opt_try_payloads in Ht. congruence.
Qed.

Lemma two_opt_pass_payloads (fuel : nat) (s : state) (r : state * bool) :
  two_opt_pass fuel s = Done r → payloads r.1 = payloads s.
Proof.
  unfold two_opt_pass. intros H.
  apply (for_range_preserves (λ t, payloads t.1 = payloads s)) in H; [ done | | done ].
  intros k t t' Ht E. apply two_opt_node_payloads in Ht. congruence.
Qed.

Lemma two_opt_local_search_payloads (passes fuel : nat) (s s' : state) :
  two_opt_local_search passes fuel s = Done s' → payloads s' = payloads s.
Proof.
  revert s. induction passes as [ | n IH ]; intros s H; cbn in H; [ done | ].
  inv_bind H. apply two_opt_pass_payloads in H0.
  destruct r as [s1 [ | ]]; cbn [fst snd] in *.
  - apply IH in H. congruence.
  - injection H as <-. exact H0.
Qed.

Lemma tour_from_order_payloads (s s' : state) (order : array nat) :
  tour_from_order s order = Done s' → payloads s' = payloads s.
Proof.
  unfold tour_from_order. intros H.
  apply (for_range_preserves (λ t, payloads t = payloads s)) in H; [ done | | done ].
  intros i t t' Ht E. cbv zeta in Ht. inv_bind Ht. inv_bind Ht. inv_bind Ht.
  apply update_payloads in Ht2, Ht; try done. congruence.
Qed.

(** X4: the local search writes nothing but links: when it returns, every
    node has the id, the coordinates, the candidate count and the candidate
    block it had before, and all distances are the same. *)
Theorem local_search_writes_links_only (passes fuel : nat) (s s' : state) :
  two_opt_local_search passes fuel s = Done s' →
  payloads s' = payloads s ∧ ∀ i j, dist s' i j = dist s i j.
Proof.
  intros H. apply two_opt_local_search_payloads in H. split; [ exact H | ].
  intros i j. now apply dist_coords, payloads_coords.
Qed.

Lemma local_search_writes_links_only_witness :
  two_opt_local_search 30 30 (tour_of cluster) = Done cluster_final ∧
  payloads cluster_final = payloads (tour_of cluster) ∧
  ∀ i j, dist cluster_final i j = dist (tour_of cluster) i j.
Proof.
  assert (H : two_opt_local_search 30 30 (tour_of cluster) = Done cluster_final)
    by (vm_compute; reflexivity).
  split; [ exact H | ].
  exact (local_search_writes_links_only 30 30 (tour_of cluster) cluster_final H).
Defined.

(** ** An accepted move on a valid tour *)

Lemma get_next_lt (s : state) (x v : nat) :
  get_next s x = Done v → (x < length s)%nat.
Proof.
  unfold get_next, node. destruct (s !! x) eqn:E; [ | done ].
  intros _. now apply lookup_lt_Some in E.
Qed.

Lemma get_next_lookup (s s' : state) (x : nat) :
  s' !! x = s !! x → get_next s' x = get_next s x.
Proof. unfold get_next, node. now intros ->. Qed.

Lemma get_prev_lookup (s s' : state) (x : nat) :
  s' !! x = s !! x → get_prev s' x = get_prev s x.
Proof. unfold get_prev, node. now intros ->. Qed.

Lemma get_next_update_next (s s' : state) (i v x : nat) :
  update s i (λ n, Node.set_next n (Some v)) = Done s' →
  get_next s' x = if decide (x = i) then Done v else get_next s x.
Proof.
  unfold update, node. destruct (s !! i) as [n | ] eqn:E; [ | done ].
  cbn. intros [= <-]. now rewrite (get_next_insert s i x n).
Qed.

Lemma get_prev_update_next (s s' : state) (i v x : nat) :
  update s i (λ n, Node.set_next n (Some v)) = Done s' →
  get_prev s' x = get_prev s x.
Proof.
  unfold update, node. destruct (s !! i) as [n | ] eqn:E; [ | done ].
  cbn. intros [= <-]. rewrite (get_prev_insert s i x n) by done.
  destruct (decide (x = i)) as [-> | ]; [ | done ].
  unfold get_prev, node. now rewrite E.
Qed.

Lemma get_next_update_prev (s s' : state) (i v x : nat) :
  update s i (λ n, Node.set_prev n (Some v)) = Done s' →
  get_next s' x = get_next s x.
Proof.
  unfold update, node. destruct (s !! i) as [n | ] eqn:E; [ | done ].
  cbn. intros [= <-]. rewrite (get_next_insert s i x n) by done.
  destruct (decide (x = i)) as [-> | ]; [ | done ].
  unfold get_next, node. now rewrite E.
Qed.

Lemma get_prev_update_prev (s s' : state) (i v x : nat) :
  update s i (λ n, Node.set_prev n (Some v)) = Done s' →
  get_prev s' x = if decide (x = i) then Done v else get_prev s x.
Proof.
  unfold update, node. destruct (s !! i) as [n | ] eqn:E; [ | done ].
  cbn. intros [= <-]. now rewrite (get_prev_insert s i x n).
Qed.

Lemma next_path_insert (s : state) (p : nat) (n n' : Node.t) (seg : list nat)
    (c : nat) :
  s !! p = Some n → p ∉ seg → next_path s seg c →
  next_path (<[p := n']> s) seg c.
Proof.
  intros E. induction seg as [ | q rest IH ]; intros Hp H; [ done | ].
  cbn [next_path] in *. destruct H as [H1 H2]. split.
  - rewrite (get_next_insert s p q n n' E). rewrite decide_False; [ done | ].
    intros ->. apply Hp. now left.
  - apply IH; [ | done ]. intros Hin. apply Hp. now right.
Qed.

(** The reversal loop along a path [seg] that leads to [c]: it ends, swaps
    the two links of every node of [seg] and touches nothing else; [c]
    itself is not swapped. *)
Lemma reverse_loop_path (seg : list nat) (c : nat) (s : state) (fuel : nat) :
  NoDup seg → c ∉ seg → next_path s seg c → (length seg ≤ fuel)%nat →
  ∃ s', reverse_loop fuel c (default c (head seg)) s = Done s' ∧
    (∀ q, q ∈ seg → get_next s' q = get_prev s q ∧ get_prev s' q = get_next s q) ∧
    (∀ q, q ∉ seg → s' !! q = s !! q).
Proof.
  revert s fuel. induction seg as [ | p rest IH ]; intros s fuel Hnd Hc Hpath Hf.
  - change (default c (head [])) with c. exists s.
    rewrite reverse_loop_unfold, decide_False by (intros H; now apply H).
    split; [ done | ]. split; [ intros q Hq; now apply elem_of_nil in Hq | done ].
  - change (default c (head (p :: rest))) with p.
    apply NoDup_cons in Hnd as [Hp Hnd].
    assert (Hpc : p ≠ c) by (intros ->; apply Hc; now left).
    assert (Hcr : c ∉ rest) by (intros Hin; apply Hc; now right).
    destruct Hpath as [Hn Hpath]. destruct fuel as [ | fuel ]; [ cbn in Hf; lia | ].
    rewrite reverse_loop_unfold, decide_True by done.
    unfold get_next in Hn. inv_bind Hn. rewrite Hn0, bind_Done_l, Hn, bind_Done_l.
    unfold node in Hn0. destruct (s !! p) as [n | ] eqn:E; [ | done ].
    injection Hn0 as <-.
    set (n' := Node.set_prev (Node.set_next n (Node.prev n))
                 (Some (default c (head rest)))).
    destruct (IH (<[p := n']> s) fuel Hnd Hcr) as (s' & Es & Hin & Hout).
    + now apply (next_path_insert s p n).
    + cbn in Hf. lia.
    + exists s'. split; [ exact Es | ]. split.
      * intros q Hq. apply elem_of_cons in Hq as [-> | Hq].
        -- unfold get_next, get_prev, node. rewrite (Hout p Hp).
           rewrite list_lookup_insert_eq by now apply lookup_lt_Some in E.
           rewrite E. cbn. split; [ done | ]. now rewrite Hn.
        -- destruct (Hin q Hq) as [H1 H2]. rewrite H1, H2.
           rewrite (get_prev_insert s p q n n' E), (get_next_insert s p q n n' E).
           rewrite !decide_False by (intros ->; done). done.
      * intros q Hq. rewrite Hout.
        -- apply list_lookup_insert_ne. intros ->. apply Hq. now left.
        -- intros Hin'. apply Hq. now right.
Qed.

Lemma walk_split_path (s : state) (n p : nat) (l1 l2 : list nat) (c : nat) :
  walk s n p = l1 ++ c :: l2 → next_path s l1 c ∧ default c (head l1) = p.
Proof.
  revert n p. induction l1 as [ | q l1 IH ]; intros n p H.
  - destruct n; cbn [walk app] in H; [ done | ]. injection H as -> _. done.
  - destruct n as [ | n ]; cbn [walk app] in H; [ done | ]. injection H as -> H.
    destruct (get_next s q) as [q' | | ] eqn:E; try (now destruct l1).
    destruct (IH _ _ H) as [Hp Hh]. cbn [next_path]. rewrite Hh. done.
Qed.

Lemma valid_tour_walk (s : state) (a : nat) :
  valid_tour s → (a < length s)%nat →
  NoDup (walk s (length s) a) ∧
  ∀ c, (c < length s)%nat → c ∈ walk s (length s) a.
Proof.
  intros [_ Hc] Ha. unfold single_cycle in Hc. rewrite Forall_forall in Hc.
  destruct (Hc a ltac:(apply elem_of_seq; lia)) as [Hp _]. split.
  - rewrite Hp. apply NoDup_seq.
  - intros c Hlt. rewrite Hp. apply elem_of_seq. lia.
Qed.

Lemma links_inverse_lookup (s : state) (i : nat) :
  links_inverse s → (i < length s)%nat → links_inverse_at s i.
Proof.
  unfold links_inverse. rewrite Forall_forall. intros H Hi. apply H.
  apply elem_of_seq. lia.
Qed.

Lemma next_then_prev (s : state) (x v : nat) :
  links_inverse s → get_next s x = Done v → get_prev s v = Done x.
Proof.
  intros H E. destruct (links_inverse_lookup s x H (get_next_lt s x v E)) as [_ H2].
  now rewrite E in H2.
Qed.

Lemma prev_then_next (s : state) (x v : nat) :
  links_inverse s → (x < length s)%nat → get_prev s x = Done v →
  get_next s v = Done x.
Proof.
  intros H Hx E. destruct (links_inverse_lookup s x H Hx) as [H1 _].
  now rewrite E in H1.
Qed.

Lemma next_injective (s : state) (x y v : nat) :
  links_inverse s → get_next s x = Done v → get_next s y = Done v → x = y.
Proof.
  intros H Ex Ey. apply (next_then_prev s x v H) in Ex.
  apply (next_then_prev s y v H) in Ey. congruence.
Qed.

Lemma valid_tour_no_self_loop (s : state) (c : nat) :
  valid_tour s → (2 ≤ length s)%nat → get_next s c ≠ Done c.
Proof.
  intros Hv HN E. destruct (valid_tour_walk s c Hv (get_next_lt s c c E)) as [Hnd _].
  destruct (length s) as [ | [ | m ] ]; [ lia | lia | ].
  cbn [walk] in Hnd. rewrite E in Hnd. apply NoDup_cons in Hnd as [Hn _].
  apply Hn. now left.
Qed.

(** [delta > 1e-9] for an integer [delta] *)
Lemma exceeds_tolerance_pos (delta : Z) :
  exceeds_tolerance delta = true ↔ 1 ≤ delta.
Proof.
  unfold exceeds_tolerance, tolerance. rewrite negb_true_iff.
  rewrite <- not_true_iff_false, Qle_bool_iff. unfold Qle. cbn. lia.
Qed.

(** What an accepted test has read. *)
Lemma two_opt_check_Some (a b k : nat) (s : state) (c d : nat) :
  two_opt_check a b k s = Done (Some (c, d)) →
  ∃ (na : Node.t) (e : Edge.t) (dab dcd dac dbd : Z),
    node s a = Done na ∧ aget (Node.cands na) k = Done e ∧ Edge.to e = c ∧
    get_next s c = Done d ∧ c ≠ a ∧ c ≠ b ∧ d ≠ a ∧
    dist s a b = Done dab ∧ dist s c d = Done dcd ∧
    dist s a c = Done dac ∧ dist s b d = Done dbd ∧
    1 ≤ dab + dcd - dac - dbd.
Proof.
  unfold two_opt_check. intros H. inv_bind H. inv_bind H. inv_bind H.
  destruct (decide _) as [ | Hskip ]; [ done | ].
  inv_bind H. inv_bind H. inv_bind H. inv_bind H.
  destruct (exceeds_tolerance _) eqn:Etol; [ | done ].
  injection H as <- <-. apply exceeds_tolerance_pos in Etol.
  exists r, r0, r2, r3, r4, r5. repeat split; try done; intros ?; apply Hskip; tauto.
Qed.

(** The links after lines 184-198 on a valid tour. *)
Lemma reverse_segment_valid (s : state) (a b c d : nat) (fuel : nat) :
  valid_tour s → get_next s a = Done b → get_next s c = Done d →
  c ≠ a → c ≠ b → d ≠ a → (length s ≤ fuel)%nat →
  ∃ s', reverse_segment fuel a b c d s = Done s' ∧
        length s' = length s ∧
        get_next s' a = Done c ∧ get_next s' c = Done d ∧
        get_next s' d = Done b ∧ get_next s' b = Done a ∧
        get_prev s' a ≠ Done b.
Proof.
  intros Hv Hab Hcd Hca Hcb Hda Hfuel. pose proof Hv as [Hli _].
  pose proof (get_next_lt _ _ _ Hab) as Ha. pose proof (get_next_lt _ _ _ Hcd) as Hc.
  destruct (valid_tour_walk s a Hv Ha) as [Hnd Hall].
  specialize (Hall c Hc).
  assert (HN : (2 ≤ length s)%nat).
  { destruct (decide (a < c)%nat); lia. }
  destruct (length s) as [ | m ] eqn:EN; [ lia | ].
  cbn [walk] in Hnd, Hall. rewrite Hab in Hnd, Hall.
  apply NoDup_cons in Hnd as [Hna Hnd].
  apply elem_of_cons in Hall as [ | Hall ]; [ done | ].
  apply list_elem_of_split in Hall as (l1 & l2 & Ew). rewrite Ew in Hna, Hnd.
  destruct (walk_split_path s m b l1 l2 c Ew) as [Hpath Hhd].
  assert (Hl1 : NoDup l1) by (apply NoDup_app in Hnd; tauto).
  assert (Hcl1 : c ∉ l1).
  { apply NoDup_app in Hnd as (_ & Hd & _). intros Hin. apply (Hd c Hin). now left. }
  assert (Hal1 : a ∉ l1).
  { intros Hin. apply Hna. apply elem_of_app. now left. }
  assert (Hlen : (length l1 ≤ fuel)%nat).
  { assert (Hw : (length (walk s m b) ≤ m)%nat).
    { clear. generalize b. induction m as [ | m IH ]; intros p; cbn [walk length]; [ lia | ].
      destruct (get_next s p); cbn [length]; [ specialize (IH a); lia | lia | lia ]. }
    rewrite Ew, length_app in Hw. lia. }
  destruct (reverse_loop_path l1 c s fuel Hl1 Hcl1 Hpath Hlen)
    as (s1 & E1 & Hin & Hout).
  rewrite Hhd in E1.
  assert (Hbl1 : b ∈ l1).
  { destruct l1 as [ | q l1' ]; cbn in Hhd; [ congruence | ]. subst q. now left. }
  assert (Hba : b ≠ a) by (intros ->; done).
  assert (Hbd : b ≠ d).
  { intros ->. apply Hca. now apply (next_injective s c a d). }
  assert (Hcd' : c ≠ d).
  { intros ->. apply (valid_tour_no_self_loop s d Hv); [ lia | done ]. }
  assert (L1 : length s1 = S m).
  { apply reverse_loop_payloads, payloads_length in E1. congruence. }
  unfold reverse_segment. rewrite E1, bind_Done_l.
  destruct (update_Done s1 a (λ n, Node.set_next n (Some c)) ltac:(lia))
    as (n2 & _ & E2).
  set (s2 := <[a := Node.set_next n2 (Some c)]> s1) in *.
  assert (L2 : length s2 = S m) by (unfold s2; now rewrite length_insert).
  destruct (update_Done s2 b (λ n, Node.set_prev n (Some d)))
    as (n3 & _ & E3).
  { rewrite L2.
    assert (Hb : get_prev s b = Done a) by now apply (next_then_prev s a b).
    unfold get_prev, node in Hb. destruct (s !! b) eqn:Eb; [ | done ].
    apply lookup_lt_Some in Eb. lia. }
  set (s3 := <[b := Node.set_prev n3 (Some d)]> s2) in *.
  assert (L3 : length s3 = S m) by (unfold s3; now rewrite length_insert).
  destruct (update_Done s3 c (λ n, Node.set_prev n (Some a)) ltac:(lia))
    as (n4 & _ & E4).
  set (s4 := <[c := Node.set_prev n4 (Some a)]> s3) in *.
  assert (L4 : length s4 = S m) by (unfold s4; now rewrite length_insert).
  destruct (update_Done s4 d (λ n, Node.set_next n (Some b)))
    as (n5 & _ & E5).
  { rewrite L4. assert (Hd : get_prev s d = Done c) by now apply (next_then_prev s c d).
    unfold get_prev, node in Hd. destruct (s !! d) eqn:Ed; [ | done ].
    apply lookup_lt_Some in Ed. lia. }
  set (s5 := <[d := Node.set_next n5 (Some b)]> s4) in *.
  rewrite E2, bind_Done_l, E3, bind_Done_l, E4, bind_Done_l, E5.
  exists s5. split; [ done | ].
  split; [ unfold s5; now rewrite length_insert | ].
  assert (Nx : ∀ x, get_next s5 x
                    = if decide (x = d) then Done b
                      else if decide (x = a) then Done c else get_next s1 x).
  { intros x. rewrite (get_next_update_next s4 s5 d b x E5).
    destruct (decide (x = d)); [ done | ].
    rewrite (get_next_update_prev s3 s4 c a x E4).
    rewrite (get_next_update_prev s2 s3 b d x E3).
    now rewrite (get_next_update_next s1 s2 a c x E2). }
  assert (Px : get_prev s5 a = get_prev s a).
  { rewrite (get_prev_update_next s4 s5 d b a E5).
    rewrite (get_prev_update_prev s3 s4 c a a E4).
    rewrite (get_prev_update_prev s2 s3 b d a E3).
    rewrite (get_prev_update_next s1 s2 a c a E2).
    rewrite (get_prev_lookup s s1 a) by now apply Hout.
    repeat case_decide; congruence. }
  repeat split.
  - rewrite Nx. repeat case_decide; congruence.
  - rewrite Nx. rewrite (get_next_lookup s s1 c) by now apply Hout.
    repeat case_decide; congruence.
  - rewrite Nx. repeat case_decide; congruence.
  - rewrite Nx. destruct (Hin b Hbl1) as [-> _].
    rewrite (next_then_prev s a b) by done. repeat case_decide; congruence.
  - rewrite Px. intros Hpa.
    apply (prev_then_next s a b Hli ltac:(lia)) in Hpa.
    destruct l1 as [ | q l1' ]; [ now apply elem_of_nil in Hbl1 | ].
    cbn in Hhd. subst q. destruct Hpath as [Hnb _]. rewrite Hpa in Hnb.
    injection Hnb as Ea. destruct l1' as [ | q' l1'' ]; cbn in Ea.
    + congruence.
    + subst q'. apply Hal1. right. now left.
Qed.

(** X1: every move that [two_opt_pass] accepts on a valid tour ([c] is neither
    [a] nor [b], [d] is not [a], positive gain) completes within [N]
    iterations of the reversal loop and leaves the four links
    [a -> c -> d -> b -> a] in [next]: the result never has inverse links, and
    with five or more nodes it is no single cycle. *)
Theorem accepted_move_breaks_tour (s : state) (a b k c d : nat) (flag : bool)
    (fuel : nat) :
  valid_tour s →
  get_next s a = Done b →
  two_opt_check a b k s = Done (Some (c, d)) →
  (length s ≤ fuel)%nat →
  ∃ s', two_opt_try fuel a b k (s, flag) = Done (s', true) ∧
        get_next s' a = Done c ∧ get_next s' c = Done d ∧
        get_next s' d = Done b ∧ get_next s' b = Done a ∧
        ¬ links_inverse s' ∧ ((5 ≤ length s)%nat → ¬ single_cycle s').
Proof.
  intros Hv Hab Hchk Hfuel.
  destruct (two_opt_check_Some a b k s c d Hchk)
    as (na & e & dab & dcd & dac & dbd & _ & _ & _ & Hcd & Hca & Hcb & Hda & _).
  destruct (reverse_segment_valid s a b c d fuel Hv Hab Hcd Hca Hcb Hda Hfuel)
    as (s' & E & Hlen & Hac & Hcd' & Hdb & Hba & Hpa).
  exists s'. rewrite two_opt_try_check. cbn [fst]. rewrite Hchk, bind_Done_l, E.
  repeat split; try done.
  - intros Hli. apply Hpa. now apply (next_then_prev s' b a).
  - intros HN Hsc. unfold single_cycle in Hsc. rewrite Forall_forall in Hsc.
    destruct (Hsc a) as [Hp _].
    { apply elem_of_seq. apply get_next_lt in Hac. lia. }
    assert (Hnd : NoDup (walk s' (length s') a)) by (rewrite Hp; apply NoDup_seq).
    rewrite Hlen in Hnd.
    destruct (length s) as [ | [ | [ | [ | [ | m ] ] ] ] ]; try lia.
    cbn [walk] in Hnd. rewrite Hac, Hcd', Hdb, Hba in Hnd.
    apply NoDup_cons in Hnd as [Hn _]. apply Hn.
    right. right. right. now left.
Qed.

Lemma accepted_move_breaks_tour_witness :
  valid_tour (tour_of cluster) ∧
  get_next (tour_of cluster) 0 = Done 3%nat ∧
  two_opt_check 0 3 1 (tour_of cluster) = Done (Some (1%nat, 2%nat)) ∧
  (length (tour_of cluster) ≤ 21)%nat ∧
  ∃ s', two_opt_try 21 0 3 1 (tour_of cluster, false) = Done (s', true) ∧
        get_next s' 0 = Done 1%nat ∧ get_next s' 1 = Done 2%nat ∧
        get_next s' 2 = Done 3%nat ∧ get_next s' 3 = Done 0%nat ∧
        ¬ links_inverse s' ∧
        ((5 ≤ length (tour_of cluster))%nat → ¬ single_cycle s').
Proof.
  assert (H1 : valid_tour (tour_of cluster)) by by_decision.
  assert (H2 : get_next (tour_of cluster) 0 = Done 3%nat) by (vm_compute; reflexivity).
  assert (H3 : two_opt_check 0 3 1 (tour_of cluster) = Done (Some (1%nat, 2%nat)))
    by (vm_compute; reflexivity).
  assert (H4 : (length (tour_of cluster) ≤ 21)%nat) by (vm_compute; lia).
  repeat (split; [ assumption | ]).
  exact (accepted_move_breaks_tour (tour_of cluster) 0 3 1 1 2 false 21 H1 H2 H3 H4).
Defined.

(** X2: the reversal loop of lines 185-192, started at the head of a path
    [seg] along [next] that leads to [c] (nodes pairwise different and
    different from [c]): it ends after one iteration per node of [seg],
    exchanges [prev] and [next] of each of these nodes and leaves every other
    node as it was; [c] itself is not exchanged. *)
Theorem reverse_loop_swaps_before_c (seg : list nat) (c : nat) (s : state)
    (fuel : nat) :
  NoDup seg → c ∉ seg → next_path s seg c → (length seg ≤ fuel)%nat →
  ∃ s', reverse_loop fuel c (default c (head seg)) s = Done s' ∧
    (∀ q, q ∈ seg → get_next s' q = get_prev s q ∧ get_prev s' q = get_next s q) ∧
    (∀ q, q ∉ seg → s' !! q = s !! q) ∧
    s' !! c = s !! c.
Proof.
  intros Hnd Hc Hpath Hfuel.
  destruct (reverse_loop_path seg c s fuel Hnd Hc Hpath Hfuel) as (s' & E & Hin & Hout).
  exists s'. repeat split; try done; try (now apply Hin). now apply Hout.
Qed.

Lemma reverse_loop_swaps_before_c_witness :
  NoDup [2; 3; 4; 5; 6]%nat ∧ (7%nat ∉ [2; 3; 4; 5; 6]%nat) ∧
  next_path (tour_of cross) [2; 3; 4; 5; 6]%nat 7 ∧
  (length [2; 3; 4; 5; 6]%nat ≤ 5)%nat ∧
  ∃ s', reverse_loop 5 7 (default 7%nat (head [2; 3; 4; 5; 6]%nat)) (tour_of cross)
        = Done s' ∧
    (∀ q, q ∈ [2; 3; 4; 5; 6]%nat →
       get_next s' q = get_prev (tour_of cross) q ∧
       get_prev s' q = get_next (tour_of cross) q) ∧
    (∀ q, q ∉ [2; 3; 4; 5; 6]%nat → s' !! q = tour_of cross !! q) ∧
    s' !! 7%nat = tour_of cross !! 7%nat.
Proof.
  assert (H1 : NoDup [2; 3; 4; 5; 6]%nat) by by_decision.
  assert (H2 : 7%nat ∉ [2; 3; 4; 5; 6]%nat) by by_decision.
  assert (H3 : next_path (tour_of cross) [2; 3; 4; 5; 6]%nat 7).
  { cbn [next_path]. repeat (split; [ vm_compute; reflexivity | ]). exact I. }
  assert (H4 : (length [2; 3; 4; 5; 6]%nat ≤ 5)%nat) by (cbn; lia).
  repeat (split; [ assumption | ]).
  exact (reverse_loop_swaps_before_c [2; 3; 4; 5; 6]%nat 7 (tour_of cross) 5
           H1 H2 H3 H4).
Defined.

(** ** The greedy tour, with no assumption on the distances *)

Lemma for_range_Done_invariant {St} (body : nat → St → outcome St)
    (I : nat → St → Prop) (n lo : nat) (s s' : St) :
  I lo s →
  (∀ i t t', (lo ≤ i < lo + n)%nat → I i t → body i t = Done t' → I (S i) t') →
  for_range body lo n s = Done s' → I (lo + n)%nat s'.
Proof.
  revert lo s. induction n as [ | n IH ]; intros lo s H0 Hstep H; cbn [for_range] in H.
  - injection H as <-. now rewrite Nat.add_0_r.
  - inv_bind H. rewrite Nat.add_succ_r. apply (IH (S lo) r).
    + apply (Hstep lo s); [ lia | done | done ].
    + intros i t t' Hi. apply Hstep. lia.
    + exact H.
Qed.

Lemma nearest_step_found (s : state) (vis : array bool) (ord : list nat)
    (cur i : nat) (best : Z * option nat) :
  (cur < length s)%nat → (i < length s)%nat →
  (∀ j, (j < length s)%nat → vis !! j = Some (Some (bool_decide (j ∈ ord)))) →
  scan_found s ord cur i best →
  ∃ best', nearest_step s vis cur i best = Done best' ∧
           scan_found s ord cur (S i) best'.
Proof.
  intros Hcur Hi Hvis Hinv. unfold nearest_step, aget. rewrite (Hvis i Hi). cbn.
  destruct (dist_Done s cur i Hcur Hi) as [d Ed].
  destruct best as [bd bj]. unfold scan_found in *. cbn [fst snd] in *.
  case_bool_decide as Hin; cbn.
  - (* visited[i] *)
    eexists; split; [ reflexivity | ]. cbn [snd fst].
    destruct bj as [c | ].
    + destruct Hinv as (Hc & Hnc & Edc & Hlt & Hmin).
      repeat split; try done; [ lia | ].
      intros j dj Hj Hnj Edj. apply Hmin; try done.
      destruct (decide (j = i)) as [-> | ]; [ done | lia ].
    + destruct Hinv as [Hbd Hall]. split; [ done | ].
      intros j dj Hj Hnj Edj. apply (Hall j); try done.
      destruct (decide (j = i)) as [-> | ]; [ done | lia ].
  - rewrite Ed. cbn. destruct (decide (d < bd)) as [Hlt | Hge].
    + eexists; split; [ reflexivity | ]. cbn [fst snd].
      assert (Hbd : bd ≤ best_d_init).
      { destruct bj as [c | ];
          [ destruct Hinv as (_ & _ & _ & ? & _) | destruct Hinv as [? _] ]; lia. }
      repeat split; try done; [ lia | lia | ].
      intros j dj Hj Hnj Edj. destruct (decide (j = i)) as [-> | Hne].
      * right. split; [ congruence | lia ].
      * left. destruct bj as [c | ].
        -- destruct Hinv as (_ & _ & _ & _ & Hmin).
           destruct (Hmin j dj ltac:(lia) Hnj Edj); lia.
        -- destruct Hinv as [Hb Hall]. specialize (Hall j dj ltac:(lia) Hnj Edj). lia.
    + eexists; split; [ reflexivity | ]. cbn [fst snd].
      destruct bj as [c | ].
      * destruct Hinv as (Hc & Hnc & Edc & Hlt & Hmin).
        repeat split; try done; [ lia | ].
        intros j dj Hj Hnj Edj. destruct (decide (j = i)) as [-> | Hne].
        -- assert (dj = d) as -> by congruence.
           destruct (decide (bd = d)); [ right; split; [ done | lia ] | left; lia ].
        -- apply Hmin; try done. lia.
      * destruct Hinv as [Hbd Hall]. split; [ done | ].
        intros j dj Hj Hnj Edj. destruct (decide (j = i)) as [-> | Hne].
        -- assert (dj = d) as -> by congruence. lia.
        -- apply (Hall j); try done. lia.
Qed.

Lemma nearest_scan_found (s : state) (vis : array bool) (ord : list nat) (cur : nat) :
  (cur < length s)%nat →
  (∀ j, (j < length s)%nat → vis !! j = Some (Some (bool_decide (j ∈ ord)))) →
  ∃ best,
    for_range (nearest_step s vis cur) 0 (length s) (best_d_init, None) = Done best ∧
    scan_found s ord cur (length s) best.
Proof.
  intros Hcur Hvis.
  destruct (for_range_invariant (nearest_step s vis cur) (scan_found s ord cur)
              (length s) 0 (best_d_init, None)) as (best & E & Hinv).
  - split; [ done | ]. intros j dj Hj. lia.
  - intros i best Hi Hinv. apply nearest_step_found; try done. lia.
  - now exists best.
Qed.

Lemma greedy_step_done (s : state) (k : nat) (g g' : Greedy.t) :
  (1 ≤ k < length s)%nat → greedy_inv s k g →
  greedy_step s k g = Done g' → greedy_inv s (S k) g'.
Proof.
  intros Hk (ord & Hlen & Hol & Hot & Hnd & Hlt & Hvl & Hvis & Hlast & H0
             & Hgc & Hcost) Hstep.
  assert (Hcur : (Greedy.current g < length s)%nat).
  { rewrite Forall_forall in Hlt. apply Hlt.
    apply last_Some in Hlast as [l' ->].
    apply elem_of_app. right. now apply list_elem_of_singleton. }
  destruct (nearest_scan_found s (Greedy.visited g) ord (Greedy.current g) Hcur Hvis)
    as ([bd bj] & Escan & Hfound).
  unfold greedy_step in Hstep. rewrite Escan, bind_Done_l in Hstep.
  cbn [fst snd] in Hstep. destruct bj as [c | ]; [ | discriminate Hstep ].
  destruct Hfound as (Hc & Hnc & Edc & _ & Hmin). cbn [fst snd] in *.
  cbn [link] in Hstep. rewrite bind_Done_l in Hstep. unfold aset in Hstep.
  rewrite !decide_True in Hstep by lia. rewrite !bind_Done_l in Hstep.
  injection Hstep as <-.
  exists (ord ++ [c]). cbn [Greedy.order Greedy.visited Greedy.current Greedy.cost].
  assert (Hlk : ord !! (k - 1)%nat = Some (Greedy.current g)).
  { rewrite <- Hlast, last_lookup. f_equal. lia. }
  repeat split.
  - rewrite length_app. cbn. lia.
  - now rewrite length_insert.
  - rewrite (take_S_r _ _ (Some c)) by (apply list_lookup_insert_eq; lia).
    rewrite take_insert_ge by lia. rewrite Hot, fmap_app. reflexivity.
  - apply NoDup_app. repeat split; [ done | | apply NoDup_singleton ].
    intros x Hx Hx'. apply list_elem_of_singleton in Hx' as ->. done.
  - apply Forall_app. split; [ done | ]. now apply Forall_singleton.
  - now rewrite length_insert.
  - intros j Hj. destruct (decide (j = c)) as [-> | Hne].
    + rewrite list_lookup_insert_eq by lia. do 2 f_equal.
      symmetry. apply bool_decide_eq_true.
      apply elem_of_app. right. now apply list_elem_of_singleton.
    + rewrite list_lookup_insert_ne by done. rewrite (Hvis j Hj). do 2 f_equal.
      apply bool_decide_ext. rewrite elem_of_app, list_elem_of_singleton. tauto.
  - apply last_snoc.
  - rewrite lookup_app_l by lia. done.
  - intros k' Hk'. destruct (decide (k' = k)) as [-> | Hne].
    + exists (Greedy.current g), c, bd.
      rewrite lookup_app_l by lia.
      rewrite (list_lookup_middle ord [] c k) by lia.
      rewrite take_app_length' by lia. done.
    + apply greedy_choice_app; [ lia | ]. apply Hgc. lia.
  - now apply (path_cost_snoc s ord (Greedy.current g) c).
Qed.

(** Whatever the distances are, an order that the greedy constructor returns
    is the greedy order. *)
Lemma build_initial_tour_done (s : state) (order : array nat) (cst : Z) :
  build_initial_tour s (malloc (length s)) = Done (order, cst) →
  ∃ ord : list nat,
    order = Some <$> ord ∧
    ord ≡ₚ seq 0 (length s) ∧
    ord !! 0%nat = Some 0%nat ∧
    (∀ k, (1 ≤ k < length s)%nat → greedy_choice s ord k) ∧
    tour_cost s ord = Done cst.
Proof.
  intros H.
  assert (HN : (0 < length s)%nat).
  { destruct (length s) eqn:E; [ | lia ].
    unfold build_initial_tour in H. rewrite E in H. discriminate H. }
  unfold build_initial_tour, aset, calloc, malloc in H.
  rewrite !length_replicate, !decide_True in H by lia. rewrite !bind_Done_l in H.
  inv_bind H. rename r into g.
  apply (for_range_Done_invariant (greedy_step s) (greedy_inv s)) in H0.
  - destruct H0 as (ord & Hlen & Hol & Hot & Hnd & Hlt & Hvl & Hvis & Hlast & H0
                    & Hgc & Hcost).
    replace (1 + (length s - 1))%nat with (length s) in * by lia.
    rewrite take_ge in Hot by lia.
    assert (Hz : ord !! (length s - 1)%nat = Some (Greedy.current g)).
    { rewrite <- Hlast, last_lookup. f_equal. lia. }
    unfold aget in H. rewrite Hot, !list_lookup_fmap, Hz, H0 in H.
    cbn [fmap option_fmap option_map] in H. rewrite !bind_Done_l in H.
    inv_bind H. injection H as <- <-.
    exists ord. repeat split; try done.
    + apply submseteq_length_Permutation; [ | rewrite length_seq; lia ].
      apply NoDup_submseteq; [ done | ].
      intros j Hj. apply elem_of_seq. rewrite Forall_forall in Hlt.
      specialize (Hlt j Hj). lia.
    + unfold tour_cost. destruct ord as [ | a ord' ]; [ discriminate | ].
      injection H0 as ->. rewrite Hlast, Hcost, bind_Done_l, H1. reflexivity.
  - exists [0%nat]. cbn [Greedy.order Greedy.visited Greedy.current Greedy.cost].
    rewrite !length_insert, !length_replicate.
    split; [ done | ]. split; [ done | ]. split.
    { destruct (length s); [ lia | reflexivity ]. }
    split; [ apply NoDup_singleton | ]. split; [ now apply Forall_singleton | ].
    split; [ done | ]. split.
    { intros j Hj. destruct (decide (j = 0%nat)) as [-> | Hne].
      - rewrite list_lookup_insert_eq by (rewrite length_replicate; lia).
        reflexivity.
      - rewrite list_lookup_insert_ne by done.
        rewrite (proj2 (lookup_replicate _ _ (Some false) _)) by done.
        do 2 f_equal. symmetry. apply bool_decide_eq_false.
        rewrite list_elem_of_singleton. done. }
    split; [ done | ]. split; [ done | ]. split; [ intros k' Hk'; lia | done ].
  - intros k t t' Hk Hinv Ht. apply (greedy_step_done s k t t'); [ lia | done | done ].
Qed.

(** Costs of paths and tours over short edges. *)
Lemma short_edges_check (s : state) : short_edges_b s = true → short_edges s.
Proof.
  unfold short_edges_b. intros H i j d Hd.
  assert (Hi : (i < length s)%nat).
  { unfold dist in Hd. inv_bind Hd. unfold node in Hd0.
    destruct (s !! i) eqn:E; [ | discriminate ]. now apply lookup_lt_Some in E. }
  assert (Hj : (j < length s)%nat).
  { unfold dist in Hd. inv_bind Hd. inv_bind Hd. unfold node in Hd1.
    destruct (s !! j) eqn:E; [ | discriminate ]. now apply lookup_lt_Some in E. }
  rewrite forallb_forall in H.
  specialize (H i ltac:(apply in_seq; lia)). rewrite forallb_forall in H.
  specialize (H j ltac:(apply in_seq; lia)). rewrite Hd in H.
  now apply bool_decide_eq_true in H.
Qed.

Lemma short_edges_below_sentinel (s : state) : short_edges s → below_sentinel s.
Proof.
  intros H i j d Hd. specialize (H i j d Hd). unfold best_d_init. lia.
Qed.

Lemma path_cost_short (s : state) (l : list nat) (c : Z) :
  short_edges s → path_cost s l = Done c → c ≤ Z.of_nat (length l) * 2 ^ 30.
Proof.
  intros Hs. revert c. induction l as [ | a t IH ]; intros c H.
  - injection H as <-. cbn. lia.
  - destruct t as [ | b t ].
    + injection H as <-. cbn. lia.
    + cbn [path_cost] in H. inv_bind H. inv_bind H. injection H as <-.
      specialize (IH _ H1). specialize (Hs _ _ _ H0).
      cbn [length] in *. lia.
Qed.

Lemma tour_cost_short (s : state) (l : list nat) (c : Z) :
  short_edges s → Z.of_nat (length l) ≤ 2 ^ 22 → tour_cost s l = Done c →
  c < 2 ^ 53.
Proof.
  intros Hs Hl H. unfold tour_cost in H.
  destruct l as [ | a t ]; [ injection H as <-; lia | ].
  destruct (last (a :: t)) as [z | ]; [ | injection H as <-; lia ].
  inv_bind H. inv_bind H. injection H as <-.
  pose proof (path_cost_short _ _ _ Hs H0). specialize (Hs _ _ _ H1). lia.
Qed.



(** ** The length of a valid tour *)

Lemma walk_snoc (s : state) (n p q : nat) :
  steps s n p = Done q → walk s (S n) p = walk s n p ++ [q].
Proof.
  revert p. induction n as [ | n IH ]; intros p H.
  - cbn [steps] in H. injection H as <-. cbn [walk]. now destruct (get_next s p).
  - cbn [steps] in H. inv_bind H. specialize (IH _ H).
    change (walk s (S (S n)) p)
      with (p :: match get_next s p with
                 | Done q => walk s (S n) q
                 | _ => []
                 end).
    rewrite H0, IH. cbn [walk]. now rewrite H0.
Qed.

Lemma path_cost_cons (s : state) (a b : nat) (t : list nat) :
  path_cost s (a :: b :: t)
  = d ← dist s a b; c ← path_cost s (b :: t); Done (d + c).
Proof. reflexivity. Qed.

Lemma dist_nonneg (s : state) (i j : nat) (d : Z) : dist s i j = Done d → 0 ≤ d.
Proof.
  unfold dist. intros H. inv_bind H. inv_bind H. injection H as <-.
  apply round_sqrt_nonneg.
Qed.

Lemma path_cost_Done (s : state) (l : list nat) :
  Forall (λ v, (v < length s)%nat) l → ∃ C, path_cost s l = Done C ∧ 0 ≤ C.
Proof.
  induction l as [ | a [ | b t ] IH ]; intros Hl.
  - exists 0. done.
  - exists 0. done.
  - apply Forall_cons in Hl as [Ha Hl]. destruct (IH Hl) as (C & EC & HC).
    apply Forall_cons in Hl as [Hb _].
    destruct (dist_Done s a b Ha Hb) as [d Ed].
    exists (d + C). rewrite path_cost_cons, Ed, bind_Done_l, EC, bind_Done_l.
    split; [ done | ]. apply dist_nonneg in Ed. lia.
Qed.

Lemma path_cost_coords (s s' : state) (l : list nat) :
  coords s' = coords s → path_cost s' l = path_cost s l.
Proof.
  intros H. induction l as [ | a [ | b t ] IH ]; try done.
  now rewrite !path_cost_cons, IH, (dist_coords s s' a b H).
Qed.

Lemma tour_cost_coords (s s' : state) (l : list nat) :
  coords s' = coords s → tour_cost s' l = tour_cost s l.
Proof.
  intros H. unfold tour_cost. destruct l as [ | a t ]; [ done | ].
  destruct (last (a :: t)) as [z | ]; [ | done ].
  now rewrite (path_cost_coords s s' _ H), (dist_coords s s' z a H).
Qed.

(** The [do]-[while] of [tour_length] along a path that leads back to
    [start]. *)
Lemma tour_length_loop_path (s : state) (start : nat) (l : list nat)
    (curr : nat) (acc C : Z) (fuel : nat) :
  next_path s (curr :: l) start → start ∉ l → (length l < fuel)%nat →
  path_cost s (curr :: l ++ [start]) = Done C →
  tour_length_loop fuel s start curr acc = Done (acc + C).
Proof.
  revert curr acc C fuel.
  induction l as [ | q l IH ]; intros curr acc C fuel [Hn Hp] Hs Hf Hc;
    (destruct fuel as [ | fuel ]; [ cbn in Hf; lia | ]); cbn [tour_length_loop].
  - change (default start (head [])) with start in Hn. rewrite Hn, bind_Done_l.
    cbn [app] in Hc. rewrite path_cost_cons in Hc. inv_bind Hc.
    cbn [path_cost] in Hc. rewrite bind_Done_l in Hc. injection Hc as <-.
    rewrite Hc0, bind_Done_l. rewrite decide_False by (intros H; now apply H).
    f_equal. lia.
  - change (default start (head (q :: l))) with q in Hn. rewrite Hn, bind_Done_l.
    cbn [app] in Hc. rewrite path_cost_cons in Hc. inv_bind Hc. inv_bind Hc.
    injection Hc as <-. rewrite Hc0, bind_Done_l.
    rewrite decide_True by (intros ->; apply Hs; now left).
    rewrite (IH q (acc + r) r0 fuel); [ f_equal; lia | done | | cbn in Hf; lia | done ].
    intros Hin. apply Hs. now right.
Qed.

(** On a valid tour [tour_length] ends within [N] iterations and returns
    the cost of the cycle through node 0. *)
Lemma tour_length_walk (s : state) :
  valid_tour s → (0 < length s)%nat →
  ∃ L, (∀ fuel, (length s ≤ fuel)%nat → tour_length fuel s = Done L) ∧
       tour_cost s (walk s (length s) 0) = Done L ∧ 0 ≤ L.
Proof.
  intros Hv HN. destruct (valid_tour_walk s 0 Hv HN) as [Hnd Hall].
  assert (Hsteps : steps s (length s) 0 = Done 0%nat).
  { destruct Hv as [_ Hc]. unfold single_cycle in Hc. rewrite Forall_forall in Hc.
    apply (Hc 0%nat). apply elem_of_seq. lia. }
  assert (Hperm : walk s (length s) 0 ≡ₚ seq 0 (length s)).
  { destruct Hv as [_ Hc]. unfold single_cycle in Hc. rewrite Forall_forall in Hc.
    apply (Hc 0%nat). apply elem_of_seq. lia. }
  pose proof (walk_snoc s (length s) 0 0 Hsteps) as Ew.
  destruct (walk_split_path s (S (length s)) 0 (walk s (length s) 0) [] 0 Ew)
    as [Hpath Hhd].
  assert (Hlen : length (walk s (length s) 0) = length s).
  { now rewrite Hperm, length_seq. }
  destruct (walk s (length s) 0) as [ | p l ] eqn:E; [ cbn in Hlen; lia | ].
  change (default 0%nat (head (p :: l))) with p in Hhd. subst p.
  apply NoDup_cons in Hnd as [H0 Hnd].
  assert (Hlt : Forall (λ v, (v < length s)%nat) (0%nat :: l)).
  { apply Forall_forall. intros v Hin. rewrite Hperm in Hin.
    apply elem_of_seq in Hin. lia. }
  destruct (path_cost_Done s (0%nat :: l) Hlt) as (P & EP & HP).
  destruct (last (0%nat :: l)) as [z | ] eqn:Ez;
    [ | apply last_None in Ez; discriminate Ez ].
  assert (Hz : (z < length s)%nat).
  { rewrite Forall_forall in Hlt. apply Hlt. apply last_Some in Ez as [l' ->].
    apply elem_of_app. right. now apply list_elem_of_singleton. }
  destruct (dist_Done s z 0 Hz HN) as [d Ed].
  exists (P + d). split; [ | split ].
  - intros fuel Hfuel. unfold tour_length.
    rewrite (tour_length_loop_path s 0 l 0 0 (P + d) fuel); try done.
    + cbn in Hlen. lia.
    + now apply (path_cost_snoc s (0%nat :: l) z 0).
  - unfold tour_cost. rewrite Ez, EP, bind_Done_l, Ed. done.
  - apply dist_nonneg in Ed. lia.
Qed.

(** Following [next] through the tour built from [ord], from its first
    node, gives [ord] back. *)
Lemma tour_from_order_walk (n : nat) (ord : list nat) (s : state) (v : nat) :
  ord ≡ₚ seq 0 n → tour_inv n ord n s → head ord = Some v →
  walk s n v = ord.
Proof.
  intros Hp Hinv Hv.
  assert (Hol : length ord = n) by now rewrite Hp, length_seq.
  assert (Hn : (0 < n)%nat) by (destruct ord; [ done | cbn in Hol; lia ]).
  assert (E0 : ord !! 0%nat = Some v) by (destruct ord; [ done | exact Hv ]).
  apply list_eq. intros t. destruct (decide (t < n)%nat) as [Ht | Ht].
  - rewrite (cycle_walk_lookup n ord s Hp Hinv n 0 t v Hn E0 Ht).
    cbn [Nat.add]. now rewrite Nat.mod_small.
  - rewrite !lookup_ge_None_2; [ done | lia | ].
    rewrite (cycle_walk_length n ord s Hp Hinv n 0 v Hn E0). lia.
Qed.

(** X5: [tour_from_order] on a permutation of the node indices writes only
    links, gives a valid tour, and walking that tour from the first node of
    the order reads the order back; consecutive nodes of the order (cyclically)
    are linked in both directions. *)
Theorem tour_from_order_round_trip (s : state) (ord : list nat) :
  (0 < length s)%nat → ord ≡ₚ seq 0 (length s) →
  ∃ s', tour_from_order s (Some <$> ord) = Done s' ∧
        payloads s' = payloads s ∧
        valid_tour s' ∧
        (∀ v, head ord = Some v → walk s' (length s) v = ord) ∧
        (∀ i a b, ord !! i = Some a →
           ord !! ((i + 1) `mod` length s)%nat = Some b →
           get_next s' a = Done b ∧ get_prev s' b = Done a).
Proof.
  intros Hn Hp. destruct (tour_from_order_links s ord Hp) as (s' & E & Hinv).
  exists s'. split; [ exact E | ].
  split; [ now apply (tour_from_order_payloads s s' (Some <$> ord)) | ].
  split; [ now apply (cycle_valid (length s) ord s') | ].
  split.
  - intros v Hv. now apply tour_from_order_walk.
  - intros i a b Ea Eb. destruct Hinv as [_ H]. apply (H i); try done.
    apply lookup_lt_Some in Ea. rewrite Hp, length_seq in Ea. exact Ea.
Qed.

Lemma tour_from_order_round_trip_witness :
  (0 < length (read_tsplib three))%nat ∧
  [0; 2; 1]%nat ≡ₚ seq 0 (length (read_tsplib three)) ∧
  ∃ s', tour_from_order (read_tsplib three) (Some <$> [0; 2; 1]%nat) = Done s' ∧
        payloads s' = payloads (read_tsplib three) ∧
        valid_tour s' ∧
        (∀ v, head [0; 2; 1]%nat = Some v →
           walk s' (length (read_tsplib three)) v = [0; 2; 1]%nat) ∧
        (∀ i a b, [0; 2; 1]%nat !! i = Some a →
           [0; 2; 1]%nat !! ((i + 1) `mod` length (read_tsplib three))%nat = Some b →
           get_next s' a = Done b ∧ get_prev s' b = Done a).
Proof.
  assert (H1 : (0 < length (read_tsplib three))%nat) by (cbn; lia).
  assert (H2 : [0; 2; 1]%nat ≡ₚ seq 0 (length (read_tsplib three))).
  { cbn. apply perm_skip, perm_swap. }
  split; [ exact H1 | ]. split; [ exact H2 | ].
  exact (tour_from_order_round_trip (read_tsplib three) [0; 2; 1]%nat H1 H2).
Defined.

Lemma walk_length_le (s : state) (n p : nat) : (length (walk s n p) ≤ n)%nat.
Proof.
  revert p. induction n as [ | n IH ]; intros p; cbn [walk length]; [ lia | ].
  destruct (get_next s p) as [q | | ]; cbn [length]; [ | lia | lia ].
  specialize (IH q). lia.
Qed.



(** The tour built from an order that starts at node 0, and its length. *)
Lemma order_tour_length (s : state) (ord : list nat) :
  ord ≡ₚ seq 0 (length s) → ord !! 0%nat = Some 0%nat →
  ∃ (s' : state) (L : Z),
    tour_from_order s (Some <$> ord) = Done s' ∧ valid_tour s' ∧
    tour_cost s ord = Done L ∧
    ∀ fuel, (length s ≤ fuel)%nat → tour_length fuel s' = Done L.
Proof.
  intros Hp H0.
  assert (Hn : (0 < length s)%nat).
  { apply lookup_lt_Some in H0. rewrite Hp, length_seq in H0. exact H0. }
  destruct (tour_from_order_links s ord Hp) as (s' & E' & Hinv).
  pose proof (tour_from_order_payloads s s' _ E') as Hpay.
  pose proof (payloads_length _ _ Hpay) as Hlen.
  assert (Hv : valid_tour s') by now apply (cycle_valid (length s) ord s').
  destruct (tour_length_walk s' Hv ltac:(lia)) as (L & HL & HC & _).
  exists s', L. repeat (split; [ done | ]).
  rewrite Hlen in HL, HC.
  rewrite (tour_from_order_walk (length s) ord s' 0 Hp Hinv) in HC.
  2: { destruct ord; [ done | exact H0 ]. }
  rewrite (tour_cost_coords s s' ord (payloads_coords _ _ Hpay)) in HC.
  split; [ exact HC | exact HL ].
Qed.

(** X7: whenever [build_initial_tour] returns, [tour_from_order] builds a
    valid tour from the order it filled in, and the length that [tour_length]
    computes on that tour is the length that [build_initial_tour] returned. *)
Theorem initial_length_is_tour_length (s : state) (order : array nat) (cst : Z) :
  build_initial_tour s (malloc (length s)) = Done (order, cst) →
  ∃ s' : state,
    tour_from_order s order = Done s' ∧ valid_tour s' ∧
    ∀ fuel, (length s ≤ fuel)%nat → tour_length fuel s' = Done cst.
Proof.
  intros H.
  destruct (build_initial_tour_done s order cst H) as (ord & -> & Hp & H0 & _ & Hc).
  destruct (order_tour_length s ord Hp H0) as (s' & L & E & Hv & HC & HL).
  exists s'. repeat (split; [ done | ]).
  assert (L = cst) as -> by congruence. exact HL.
Qed.

Lemma initial_length_is_tour_length_witness :
  build_initial_tour (read_tsplib cross) (malloc (length (read_tsplib cross)))
  = Done (Some <$> seq 0 21, 2457) ∧
  ∃ s' : state,
    tour_from_order (read_tsplib cross) (Some <$> seq 0 21) = Done s' ∧
    valid_tour s' ∧
    ∀ fuel, (length (read_tsplib cross) ≤ fuel)%nat →
      tour_length fuel s' = Done 2457.
Proof.
  assert (H : build_initial_tour (read_tsplib cross)
                (malloc (length (read_tsplib cross)))
              = Done (Some <$> seq 0 21, 2457)) by (vm_compute; reflexivity).
  split; [ exact H | ].
  exact (initial_length_is_tour_length (read_tsplib cross) _ 2457 H).
Defined.

(** ** The candidate lists *)

Lemma others_S (j i : nat) :
  others (S j) i = others j i ++ (if decide (j = i) then [] else [j]).
Proof.
  unfold others. rewrite seq_S, filter_app. cbn [Nat.add]. f_equal.
  rewrite filter_cons, filter_nil. destruct (decide (j = i)) as [-> | Hne].
  - now rewrite decide_False by (intros H; now apply H).
  - now rewrite decide_True.
Qed.

Lemma others_length (j i : nat) :
  length (others j i) = if decide (i < j)%nat then (j - 1)%nat else j.
Proof.
  induction j as [ | j IH ]; [ done | ].
  rewrite others_S, length_app, IH.
  destruct (decide (j = i)) as [-> | Hne]; cbn [length];
    repeat case_decide; lia.
Qed.

Lemma elem_of_others (n i j : nat) : j ∈ others n i ↔ (j < n)%nat ∧ j ≠ i.
Proof.
  unfold others. rewrite list_elem_of_filter, elem_of_seq. split; intros; split; try tauto; lia.
Qed.

Lemma candidate_edge_coords (s s' : state) (i : nat) (e : Edge.t) :
  coords s' = coords s → candidate_edge s' i e → candidate_edge s i e.
Proof.
  intros H (H1 & H2 & H3). repeat split; try done.
  now rewrite <- (dist_coords s s' _ _ H).
Qed.

Lemma coords_length (s s' : state) : coords s' = coords s → length s' = length s.
Proof.
  intros H. apply (f_equal length) in H. unfold coords in H.
  now rewrite !length_fmap in H.
Qed.

Lemma nearest_candidates_coords (s s' : state) (i : nat) (es : list Edge.t) :
  coords s' = coords s → nearest_candidates s' i es → nearest_candidates s i es.
Proof.
  intros H (H1 & H2 & H3 & H4 & H5). repeat split; try done.
  - eapply Forall_impl; [ exact H4 | ]. intros e. now apply candidate_edge_coords.
  - intros j dj Hj Hne Hnin Hd. apply (H5 j dj); try done.
    + now rewrite (coords_length _ _ H).
    + now rewrite (dist_coords s s' _ _ H).
Qed.

(** In a sorted block the last cell holds the largest length. *)
Lemma sorted_last_max (es : list Edge.t) (w : Edge.t) :
  Sorted edge_le es → last es = Some w → Forall (λ e, Edge.length e ≤ Edge.length w) es.
Proof.
  intros Hs Hl. apply Sorted_StronglySorted in Hs; [ | apply _ ].
  induction Hs as [ | e es Hs IH Hall ]; [ done | ].
  destruct es as [ | e' es' ].
  - cbn in Hl. injection Hl as ->. apply Forall_singleton. lia.
  - rewrite last_cons_cons in Hl. specialize (IH Hl). apply Forall_cons. split; [ | done ].
    rewrite Forall_forall in Hall.
    assert (Hw : w ∈ e' :: es').
    { apply last_Some in Hl as [l' ->]. apply elem_of_app. right.
      now apply list_elem_of_singleton. }
    specialize (Hall w Hw). unfold edge_le, cmp_edges in Hall. lia.
Qed.

Lemma elem_of_insert_other {A} (l : list A) (t : nat) (x y : A) :
  y ∈ l → y ∉ <[t:=x]> l → l !! t = Some y.
Proof.
  intros Hin Hnin. apply list_elem_of_lookup_1 in Hin as [u Eu].
  destruct (decide (u = t)) as [-> | Hne]; [ done | ].
  exfalso. apply Hnin. apply (list_elem_of_lookup_2 _ u).
  now rewrite list_lookup_insert_ne.
Qed.

(** One step of the scan over [j], for a library sort that meets its
    contract. *)
Lemma cand_step_nearest
    (qsort : (Edge.t → Edge.t → Z) → list Edge.t → list Edge.t)
    (s : state) (i j : nat) (st : array Edge.t * nat) :
  sorts qsort → (i < length s)%nat → (j < length s)%nat →
  nearest_inv s i j st →
  ∃ st', cand_step qsort s i j st = Done st' ∧ nearest_inv s i (S j) st'.
Proof.
  intros Hq Hi Hj (es & E1 & E2 & Hle & Hnd & Hall & Hsmall & Hfull).
  destruct st as [cands k]. cbn [fst snd] in *. subst cands k.
  assert (Hweak : Forall (λ e, candidate_edge s i e ∧ (Edge.to e < S j)%nat) es).
  { eapply Forall_impl; [ exact Hall | ]. intros e [? ?]. split; [ done | lia ]. }
  unfold cand_step. destruct (decide (j ≠ i)) as [Hne | Heq].
  2: { assert (j = i) as -> by (destruct (decide (j = i)); [ done | contradiction ]).
       eexists. split; [ reflexivity | ]. exists es. cbn [fst snd].
       repeat split; try done.
       - intros Hlt. rewrite others_S, decide_True, app_nil_r by done. auto.
       - now apply Hfull.
       - intros j' dj Hj' Hne' Hnin Hd. apply (proj2 (Hfull H) j' dj); try done. lia. }
  destruct (dist_Done s i j Hi Hj) as [d Ed]. rewrite Ed, !bind_Done_l.
  set (new := Edge.mk j 0 d).
  assert (Hnew : candidate_edge s i new ∧ (Edge.to new < S j)%nat).
  { repeat split; try done. cbn. lia. }
  assert (Hfresh : j ∉ Edge.to <$> es).
  { intros Hin. apply list_elem_of_fmap in Hin as (e & Ej & He).
    rewrite Forall_forall in Hall. destruct (Hall e He) as [_ Hlt]. lia. }
  destruct (decide (length es < K_CANDIDATES)%nat) as [Hlt | Hge].
  - rewrite block_push by done. rewrite !bind_Done_l.
    assert (Hto : Edge.to <$> es ++ [new] = others (S j) i).
    { rewrite fmap_app, others_S, decide_False by done. now rewrite Hsmall. }
    assert (Hnd' : NoDup (Edge.to <$> es ++ [new])).
    { rewrite fmap_app. apply NoDup_app. repeat split; [ done | | apply NoDup_singleton ].
      intros z Hz Hz'. apply list_elem_of_singleton in Hz'. cbn in Hz'. now subst z. }
    assert (Hall' : Forall (λ e, candidate_edge s i e ∧ (Edge.to e < S j)%nat)
                      (es ++ [new])).
    { apply Forall_app. split; [ done | now apply Forall_singleton ]. }
    assert (Hlen' : length (es ++ [new]) = S (length es)).
    { rewrite length_app. cbn. lia. }
    destruct (decide (S (length es) = K_CANDIDATES)) as [HK | HK].
    + rewrite <- Hlen', qsort_block_written, bind_Done_l.
      destruct (Hq (es ++ [new])) as [Hp Hs].
      eexists. split; [ reflexivity | ].
      exists (qsort cmp_edges (es ++ [new])). cbn [fst snd].
      rewrite (Permutation_length Hp). repeat split; try done; try lia.
      * now rewrite Hp.
      * now rewrite Hp.
      * intros j' dj Hj' Hne' Hnin Hd. exfalso. apply Hnin.
        rewrite Hp, Hto. apply elem_of_others. split; [ lia | done ].
    + eexists. split; [ reflexivity | ]. exists (es ++ [new]). cbn [fst snd].
      repeat split; try done; try lia.
  - assert (Hlen : length es = K_CANDIDATES) by lia.
    destruct (Hfull Hlen) as [Hsorted Hnear].
    pose proof K_CANDIDATES_pos as HK.
    destruct (lookup_lt_is_Some_2 es (K_CANDIDATES - 1)) as [w Hw]; [ lia | ].
    assert (Hlast : last es = Some w).
    { rewrite last_lookup. rewrite <- Hw. f_equal. lia. }
    pose proof (sorted_last_max es w Hsorted Hlast) as Hmax.
    rewrite (aget_written es _ _ w Hw), !bind_Done_l.
    destruct (decide (d < Edge.length w)) as [Hdw | Hdw].
    + rewrite block_replace by done. rewrite !bind_Done_l.
      set (es' := <[(K_CANDIDATES - 1)%nat:=new]> es).
      assert (Hlen' : length es' = K_CANDIDATES) by (unfold es'; now rewrite length_insert).
      assert (Hnd' : NoDup (Edge.to <$> es')).
      { unfold es'. rewrite list_fmap_insert. now apply NoDup_insert_fresh. }
      assert (Hall' : Forall (λ e, candidate_edge s i e ∧ (Edge.to e < S j)%nat) es').
      { unfold es'. now apply Forall_insert. }
      pose proof (qsort_block_written qsort es'
                    (replicate (K_CANDIDATES - length es') None)) as Eq.
      rewrite Hlen' in Eq at 2. rewrite Eq, bind_Done_l.
      destruct (Hq es') as [Hp Hs].
      eexists. split; [ reflexivity | ].
      exists (qsort cmp_edges es'). cbn [fst snd].
      rewrite (Permutation_length Hp). repeat split; try done; try lia.
      * now rewrite Hp.
      * now rewrite Hp.
      * intros j' dj Hj' Hne' Hnin Hd. rewrite Hp in Hnin |- *.
        assert (Hj'j : j' ≠ j).
        { intros ->. apply Hnin. unfold es'. rewrite list_fmap_insert.
          apply (list_elem_of_lookup_2 _ (K_CANDIDATES - 1)).
          apply list_lookup_insert_eq. rewrite length_fmap. lia. }
        assert (Hwd : Edge.length w ≤ dj).
        { destruct (decide (j' ∈ Edge.to <$> es)) as [Hin | Hout].
          - unfold es' in Hnin. rewrite list_fmap_insert in Hnin.
            pose proof (elem_of_insert_other _ _ _ _ Hin Hnin) as Ew.
            rewrite list_lookup_fmap, Hw in Ew. cbn in Ew. injection Ew as Ew.
            rewrite Forall_forall in Hall.
            destruct (Hall w) as [(_ & _ & Hdw') _].
            { now apply (list_elem_of_lookup_2 _ (K_CANDIDATES - 1)). }
            rewrite Ew in Hdw'. assert (dj = Edge.length w) by congruence. lia.
          - pose proof (Hnear j' dj ltac:(lia) Hne' Hout Hd) as Hf.
            rewrite Forall_forall in Hf. apply Hf.
            now apply (list_elem_of_lookup_2 _ (K_CANDIDATES - 1)). }
        apply Forall_forall. intros e He. unfold es' in He.
        apply elem_of_insert_inv in He as [-> | He].
        -- cbn. lia.
        -- rewrite Forall_forall in Hmax. specialize (Hmax e He). lia.
    + eexists. split; [ reflexivity | ]. exists es. cbn [fst snd].
      repeat split; try done; try lia.
      intros j' dj Hj' Hne' Hnin Hd.
      destruct (decide (j' = j)) as [-> | Hj'j].
      * assert (dj = d) as -> by congruence.
        eapply Forall_impl; [ exact Hmax | ]. cbn. intros e He. lia.
      * apply (Hnear j' dj); try done. lia.
Qed.

Lemma node_candidates_nearest
    (qsort : (Edge.t → Edge.t → Z) → list Edge.t → list Edge.t)
    (s : state) (i : nat) :
  sorts qsort → (K_CANDIDATES < length s)%nat → (i < length s)%nat →
  ∃ es, node_candidates qsort s i = Done (Some <$> es) ∧ nearest_candidates s i es.
Proof.
  intros Hq HN Hi. unfold node_candidates.
  destruct (for_range_invariant (cand_step qsort s i) (nearest_inv s i)
              (length s) 0 (malloc K_CANDIDATES, k_init))
    as ([cands k] & E & es & E1 & E2 & Hle & Hnd & Hall & Hsmall & Hfull).
  - exists []. cbn [fst snd fmap list_fmap app length]. rewrite Nat.sub_0_r.
    repeat split; try done; try (unfold K_CANDIDATES; lia); try constructor.
  - intros j st Hj Hinv. apply cand_step_nearest; try done. lia.
  - cbn [fst snd Nat.add] in *. rewrite E, bind_Done_l. cbn [fst].
    assert (Hlen : length es = K_CANDIDATES).
    { destruct (decide (length es < K_CANDIDATES)%nat) as [Hlt | ]; [ | lia ].
      specialize (Hsmall Hlt). apply (f_equal length) in Hsmall.
      rewrite length_fmap, others_length, decide_True in Hsmall by done. lia. }
    exists es. rewrite E1, Hlen, Nat.sub_diag. cbn [replicate]. rewrite app_nil_r.
    split; [ done | ]. destruct (Hfull Hlen) as [Hs Hnear].
    repeat split; try done.
    eapply Forall_impl; [ exact Hall | ]. now intros e [? _].
Qed.

(** One step of the scan over [j] on an instance of at most [K_CANDIDATES]
    nodes: the library sort is not reached. *)
Lemma cand_step_index
    (qsort : (Edge.t → Edge.t → Z) → list Edge.t → list Edge.t)
    (s : state) (i j : nat) (st : array Edge.t * nat) :
  (length s ≤ K_CANDIDATES)%nat → (i < length s)%nat → (j < length s)%nat →
  index_inv s i j st →
  ∃ st', cand_step qsort s i j st = Done st' ∧ index_inv s i (S j) st'.
Proof.
  intros HN Hi Hj (es & E1 & E2 & Hto & Hall).
  destruct st as [cands k]. cbn [fst snd] in *. subst cands k.
  assert (Hlen : length es = length (others j i)) by now rewrite <- Hto, length_fmap.
  rewrite others_length in Hlen.
  unfold cand_step. destruct (decide (j ≠ i)) as [Hne | Heq].
  2: { assert (j = i) as -> by (destruct (decide (j = i)); [ done | contradiction ]).
       eexists. split; [ reflexivity | ]. exists es. cbn [fst snd].
       repeat split; try done.
       now rewrite others_S, decide_True, app_nil_r. }
  destruct (dist_Done s i j Hi Hj) as [d Ed]. rewrite Ed, !bind_Done_l.
  rewrite decide_True by (case_decide; lia).
  rewrite block_push by (case_decide; lia). rewrite !bind_Done_l.
  rewrite decide_False by (case_decide; lia).
  eexists. split; [ reflexivity | ]. exists (es ++ [Edge.mk j 0 d]). cbn [fst snd].
  repeat split.
  - rewrite length_app. cbn. lia.
  - rewrite fmap_app, others_S, decide_False by done. now rewrite Hto.
  - apply Forall_app. split; [ done | ]. apply Forall_singleton. repeat split; done.
Qed.

Lemma node_candidates_index
    (qsort : (Edge.t → Edge.t → Z) → list Edge.t → list Edge.t)
    (s : state) (i : nat) :
  (length s ≤ K_CANDIDATES)%nat → (i < length s)%nat →
  ∃ es, node_candidates qsort s i
        = Done ((Some <$> es) ++ replicate (K_CANDIDATES - (length s - 1)) None) ∧
        Edge.to <$> es = others (length s) i ∧
        Forall (candidate_edge s i) es.
Proof.
  intros HN Hi. unfold node_candidates.
  destruct (for_range_invariant (cand_step qsort s i) (index_inv s i)
              (length s) 0 (malloc K_CANDIDATES, k_init))
    as ([cands k] & E & es & E1 & E2 & Hto & Hall).
  - exists []. cbn [fst snd fmap list_fmap app length]. rewrite Nat.sub_0_r.
    repeat split; try done.
  - intros j st Hj Hinv. apply cand_step_index; try done. lia.
  - cbn [fst snd Nat.add] in *. rewrite E, bind_Done_l. cbn [fst].
    exists es. split; [ | done ]. rewrite E1. do 3 f_equal.
    rewrite <- (length_fmap Edge.to), Hto, others_length, decide_True by done.
    reflexivity.
Qed.

(** The loop over the nodes, given what the scan for one node returns. *)
Lemma build_candidate_set_nodes
    (qsort : (Edge.t → Edge.t → Z) → list Edge.t → list Edge.t)
    (s : state) (P : nat → array Edge.t → Prop) :
  (∀ t i, coords t = coords s → (i < length s)%nat →
     ∃ c, node_candidates qsort t i = Done c ∧ P i c) →
  ∃ s', build_candidate_set qsort s = Done s' ∧ length s' = length s ∧
    ∀ i n, s !! i = Some n →
      ∃ c, s' !! i = Some (Node.set_cands n K_CANDIDATES c) ∧ P i c.
Proof.
  intros Hnode. unfold build_candidate_set.
  destruct (for_range_invariant
              (λ i t, cands ← node_candidates qsort t i;
                      update t i (λ n, Node.set_cands n K_CANDIDATES cands))
              (λ i' t, coords t = coords s ∧
                 (∀ i n, (i < i')%nat → s !! i = Some n →
                    ∃ c, t !! i = Some (Node.set_cands n K_CANDIDATES c) ∧ P i c) ∧
                 (∀ i, (i' ≤ i)%nat → t !! i = s !! i))
              (length s) 0 s) as (s' & E & Hc & Hdone & _).
  - split; [ done | ]. split; [ intros i n Hi; lia | done ].
  - intros i t Hi (Hc & Hdone & Hrest). cbn [Nat.add] in Hi.
    destruct (Hnode t i Hc ltac:(lia)) as (c & Ec & HP). rewrite Ec, bind_Done_l.
    destruct (update_Done t i (λ n, Node.set_cands n K_CANDIDATES c))
      as (n & En & ->); [ rewrite (coords_length _ _ Hc); lia | ].
    eexists. split; [ reflexivity | ]. split; [ | split ].
    + rewrite <- Hc. apply (coords_update_cands t _ i K_CANDIDATES c).
      unfold update, node. now rewrite En.
    + intros i' n' Hi' En'. destruct (decide (i' = i)) as [-> | Hne].
      * exists c. split; [ | done ].
        rewrite list_lookup_insert_eq by now apply lookup_lt_Some in En.
        rewrite Hrest in En by lia. congruence.
      * rewrite list_lookup_insert_ne by done. apply Hdone; [ lia | done ].
    + intros i' Hi'. rewrite list_lookup_insert_ne by lia. apply Hrest. lia.
  - exists s'. split; [ exact E | ]. split; [ now apply coords_length | ].
    intros i n En. apply Hdone; [ | done ]. apply lookup_lt_Some in En. cbn. lia.
Qed.

Lemma build_candidate_set_nearest
    (qsort : (Edge.t → Edge.t → Z) → list Edge.t → list Edge.t) (s : state) :
  sorts qsort → (K_CANDIDATES < length s)%nat →
  ∃ s', build_candidate_set qsort s = Done s' ∧ length s' = length s ∧
    ∀ i n, s !! i = Some n →
      ∃ c, s' !! i = Some (Node.set_cands n K_CANDIDATES c) ∧
           ∃ es, c = Some <$> es ∧ nearest_candidates s i es.
Proof.
  intros Hq HN. apply build_candidate_set_nodes. intros t i Hc Hi.
  pose proof (coords_length _ _ Hc) as Hlen.
  destruct (node_candidates_nearest qsort t i Hq ltac:(lia) ltac:(lia))
    as (es & E & Hn).
  exists (Some <$> es). split; [ exact E | ]. exists es. split; [ done | ].
  now apply (nearest_candidates_coords s t).
Qed.

Lemma build_candidate_set_index
    (qsort : (Edge.t → Edge.t → Z) → list Edge.t → list Edge.t) (s : state) :
  (length s ≤ K_CANDIDATES)%nat →
  ∃ s', build_candidate_set qsort s = Done s' ∧ length s' = length s ∧
    ∀ i n, s !! i = Some n →
      ∃ c, s' !! i = Some (Node.set_cands n K_CANDIDATES c) ∧
           ∃ es, c = (Some <$> es)
                     ++ replicate (K_CANDIDATES - (length s - 1)) None ∧
                 Edge.to <$> es = others (length s) i ∧
                 Forall (candidate_edge s i) es.
Proof.
  intros HN. apply build_candidate_set_nodes. intros t i Hc Hi.
  pose proof (coords_length _ _ Hc) as Hlen.
  destruct (node_candidates_index qsort t i ltac:(lia) ltac:(lia))
    as (es & E & Hto & Hall).
  eexists. split; [ exact E | ]. exists es. rewrite Hlen in *.
  repeat split; try done.
  eapply Forall_impl; [ exact Hall | ]. intros e. now apply candidate_edge_coords.
Qed.



(** X9: on an instance of at most [K_CANDIDATES] nodes, whatever the library
    sort does, [build_candidate_set] completes and gives every node
    [cand_count = 20] and a block whose first [N - 1] cells hold the other
    nodes in index order, not sorted by distance, and whose other
    [21 - N] cells were never written. *)
Theorem candidates_small_instance
    (qsort : (Edge.t → Edge.t → Z) → list Edge.t → list Edge.t) (s : state) :
  (length s ≤ K_CANDIDATES)%nat →
  ∃ s', build_candidate_set qsort s = Done s' ∧ length s' = length s ∧
    ∀ i n, s !! i = Some n →
      ∃ es, s' !! i
            = Some (Node.set_cands n K_CANDIDATES
                      ((Some <$> es)
                       ++ replicate (K_CANDIDATES - (length s - 1)) None)) ∧
            Edge.to <$> es = others (length s) i ∧
            Forall (candidate_edge s i) es.
Proof.
  intros HN.
  destruct (build_candidate_set_index qsort s HN) as (s' & E & Hlen & H).
  exists s'. split; [ exact E | ]. split; [ exact Hlen | ].
  intros i n En. destruct (H i n En) as (c & Ec & es & -> & Hto & Hall).
  now exists es.
Qed.

Lemma candidates_small_instance_witness :
  (length (read_tsplib three) ≤ K_CANDIDATES)%nat ∧
  ∃ s', build_candidate_set isort (read_tsplib three) = Done s' ∧
    length s' = length (read_tsplib three) ∧
    ∀ i n, read_tsplib three !! i = Some n →
      ∃ es, s' !! i
            = Some (Node.set_cands n K_CANDIDATES
                      ((Some <$> es)
                       ++ replicate (K_CANDIDATES - (length (read_tsplib three) - 1))
                            None)) ∧
            Edge.to <$> es = others (length (read_tsplib three)) i ∧
            Forall (candidate_edge (read_tsplib three) i) es.
Proof.
  assert (H1 : (length (read_tsplib three) ≤ K_CANDIDATES)%nat) by (vm_compute; lia).
  split; [ exact H1 | ].
  exact (candidates_small_instance isort (read_tsplib three) H1).
Defined.

(** ** Instances of at most [K_CANDIDATES] nodes *)

(** A loop that completes has completed each of its iterations, from a state
    that the earlier iterations produced. *)
Lemma for_range_iteration {St} (P : St → Prop) (body : nat → St → outcome St)
    (n lo m : nat) (s r : St) :
  (∀ i s s', body i s = Done s' → P s → P s') →
  for_range body lo n s = Done r → P s → (m < n)%nat →
  ∃ t t', P t ∧ body (lo + m)%nat t = Done t'.
Proof.
  intros Hbody H Hs Hm.
  replace n with (m + S (n - m - 1))%nat in H by lia.
  rewrite for_range_split in H. inv_bind H. cbn [for_range] in H. inv_bind H.
  exists r0, r1. split; [ | done ].
  now apply (for_range_preserves P body m lo s r0).
Qed.

(** A candidate counted but never written stops the loop over the
    candidates of [a]. *)
Lemma two_opt_node_unwritten (fuel a m : nat) (st r : state * bool) (na : Node.t) :
  node st.1 a = Done na → (m < Node.cand_count na)%nat →
  (∀ e, aget (Node.cands na) m ≠ Done e) →
  two_opt_node fuel a st ≠ Done r.
Proof.
  intros Hna Hm Hcell H. unfold two_opt_node in H. inv_bind H. inv_bind H.
  assert (r1 = na) as -> by congruence.
  destruct (for_range_iteration (λ t, payloads t.1 = payloads st.1)
              (two_opt_try fuel a r0) (Node.cand_count na) 0 m st r)
    as (t & t' & Ht & Et); try done.
  { intros k u u' Hu E. apply two_opt_try_payloads in Hu. congruence. }
  cbn [Nat.add] in Et. unfold two_opt_try in Et. inv_bind Et. inv_bind Et.
  unfold node in Hna, Et0.
  destruct (st.1 !! a) as [n1 | ] eqn:E1; [ | done ].
  destruct (payloads_lookup st.1 t.1 a n1 Ht E1) as (n2 & E2 & Hp).
  rewrite E2 in Et0. injection Hna as ->. injection Et0 as ->.
  unfold payload in Hp. injection Hp as _ _ _ _ Hc. rewrite Hc in Et1.
  exact (Hcell _ Et1).
Qed.

(** X10: on an instance of at most [K_CANDIDATES] nodes, whatever the library
    sort does, every run of [main] that does not go on for ever makes an
    access that the code has no right to: with no node [build_initial_tour]
    writes [visited[0]] outside its block; otherwise, unless the greedy scan
    leaves [best_j = -1], the first pass of the local search reads, at the
    latest for node 0, a candidate cell that [cand_count = 20] counts but
    that was never written.  (What the compiled program does with the value
    it finds there is not described; it may well run on.) *)
Theorem main_small_instance_faults
    (qsort : (Edge.t → Edge.t → Z) → list Edge.t → list Edge.t)
    (fuel : nat) (records : list (Z * Q * Q)) :
  (length records ≤ K_CANDIDATES)%nat →
  main qsort fuel records = Fault ∨ main qsort fuel records = Timeout.
Proof.
  intros HN.
  destruct (main qsort fuel records) as [out | | ] eqn:H;
    [ exfalso | by left | by right ].
  unfold main in H. cbv zeta in H.
  set (s0 := read_tsplib records) in *.
  assert (L0 : length s0 = length records) by (unfold s0, read_tsplib; apply length_map).
  destruct (build_candidate_set_index qsort s0 ltac:(lia)) as (s1 & E1 & L1 & Hc).
  rewrite E1, bind_Done_l in H. inv_bind H. inv_bind H. inv_bind H.
  destruct (decide (length s0 = 0)%nat) as [Hz | Hnz].
  { unfold build_initial_tour in H0. rewrite L1, Hz in H0. discriminate H0. }
  destruct (lookup_lt_is_Some_2 s0 0 ltac:(lia)) as [n0 En0].
  destruct (Hc 0%nat n0 En0) as (c & En1 & es & -> & Hto & _).
  apply tour_from_order_payloads in H1.
  destruct (payloads_lookup s1 r0 0 _ H1 En1) as (n2 & En2 & Hp).
  pose proof (payloads_length _ _ H1) as L2.
  destruct fuel as [ | fuel ]; [ discriminate H2 | ].
  cbn [two_opt_local_search] in H2. inv_bind H2. clear H2.
  unfold two_opt_pass in H3.
  destruct (length r0) as [ | m ] eqn:Em; [ lia | ].
  cbn [for_range] in H3. inv_bind H3. clear H3.
  revert H2. apply (two_opt_node_unwritten _ _ (length s0 - 1) _ _ n2).
  - unfold node. cbn [fst]. now rewrite En2.
  - unfold payload in Hp. injection Hp as _ _ _ -> _. cbn. unfold K_CANDIDATES in *. lia.
  - intros e. unfold payload in Hp. injection Hp as _ _ _ _ ->. cbn [Node.set_cands Node.cands].
    unfold aget. rewrite lookup_app_r; rewrite length_fmap, <- (length_fmap Edge.to), Hto,
      others_length, decide_True by lia; [ | lia ].
    rewrite Nat.sub_diag.
    destruct (K_CANDIDATES - (length s0 - 1))%nat as [ | x ] eqn:Ex; [ lia | ].
    cbn. discriminate.
Qed.

Lemma main_small_instance_faults_witness :
  (length three ≤ K_CANDIDATES)%nat ∧
  (main isort 30 three = Fault ∨ main isort 30 three = Timeout).
Proof.
  assert (H1 : (length three ≤ K_CANDIDATES)%nat) by (vm_compute; lia).
  split; [ exact H1 | ].
  exact (main_small_instance_faults isort 30 three H1).
Defined.

(** ** When a pass accepts nothing *)

Lemma for_range_flag_each {St} (flag : St → bool) (body : nat → St → outcome St)
    (n lo : nat) (s s' : St) :
  (∀ i s s', body i s = Done s' → flag s' = false → s' = s) →
  for_range body lo n s = Done s' → flag s' = false →
  ∀ i, (lo ≤ i < lo + n)%nat → body i s = Done s.
Proof.
  intros Hbody. revert lo s. induction n as [ | n IH ]; intros lo s H Hf i Hi;
    [ lia | ].
  cbn [for_range] in H. inv_bind H.
  pose proof (for_range_flag flag body n (S lo) r s' Hbody H Hf) as E. subst s'.
  pose proof (Hbody _ _ _ H0 Hf) as E. subst r.
  destruct (decide (i = lo)) as [-> | Hne]; [ done | ].
  apply (IH (S lo) s H Hf). lia.
Qed.

Lemma for_range_fixed {St} (body : nat → St → outcome St) (n lo : nat) (s : St) :
  (∀ i, (lo ≤ i < lo + n)%nat → body i s = Done s) →
  for_range body lo n s = Done s.
Proof.
  revert lo. induction n as [ | n IH ]; intros lo H; cbn [for_range]; [ done | ].
  rewrite H, bind_Done_l by lia. apply IH. intros i Hi. apply H. lia.
Qed.

(** What a rejecting test has read. *)
Lemma two_opt_check_None (a b k : nat) (s : state) :
  two_opt_check a b k s = Done None ↔
  ∃ (na : Node.t) (e : Edge.t) (d : nat),
    node s a = Done na ∧ aget (Node.cands na) k = Done e ∧
    get_next s (Edge.to e) = Done d ∧
    (Edge.to e = a ∨ Edge.to e = b ∨ d = a ∨
     ∃ dab dcd dac dbd : Z,
       dist s a b = Done dab ∧ dist s (Edge.to e) d = Done dcd ∧
       dist s a (Edge.to e) = Done dac ∧ dist s b d = Done dbd ∧
       dab + dcd ≤ dac + dbd).
Proof.
  unfold two_opt_check. split.
  - intros H. inv_bind H. inv_bind H. inv_bind H. exists r, r0, r1.
    repeat (split; [ done | ]).
    destruct (decide _) as [Hskip | Hskip]; [ tauto | ].
    inv_bind H. inv_bind H. inv_bind H. inv_bind H.
    destruct (exceeds_tolerance _) eqn:Etol; [ done | ].
    right. right. right. exists r2, r3, r4, r5. repeat (split; [ done | ]).
    destruct (decide (1 ≤ r2 + r3 - r4 - r5)) as [Hpos | ]; [ | lia ].
    apply exceeds_tolerance_pos in Hpos. congruence.
  - intros (na & e & d & Hna & He & Hd & Hcase).
    rewrite Hna, bind_Done_l, He, bind_Done_l, Hd, bind_Done_l.
    destruct (decide _) as [Hskip | Hskip]; [ done | ].
    destruct Hcase as [ | [ | [ | (dab & dcd & dac & dbd & E1 & E2 & E3 & E4 & Hle)]]];
      try tauto.
    rewrite E1, bind_Done_l, E2, bind_Done_l, E3, bind_Done_l, E4, bind_Done_l.
    destruct (exceeds_tolerance _) eqn:Etol; [ | done ].
    apply exceeds_tolerance_pos in Etol. lia.
Qed.

Lemma two_opt_try_rejects (fuel a b k : nat) (s : state) :
  two_opt_try fuel a b k (s, false) = Done (s, false) ↔
  two_opt_check a b k s = Done None.
Proof.
  rewrite two_opt_try_check. cbn [fst]. split.
  - intros H. inv_bind H. destruct r as [[c d] | ]; [ | done ].
    inv_bind H. discriminate H.
  - intros ->. done.
Qed.



(** ** The lengths that [main] prints *)

Lemma build_candidate_set_coords
    (qsort : (Edge.t → Edge.t → Z) → list Edge.t → list Edge.t) (s s' : state) :
  build_candidate_set qsort s = Done s' → coords s' = coords s.
Proof.
  unfold build_candidate_set. intros H.
  apply (for_range_preserves (λ t, coords t = coords s)) in H; [ done | | done ].
  intros i t t' Ht E. inv_bind Ht. apply coords_update_cands in Ht. congruence.
Qed.

Lemma dist_index (s : state) (i j : nat) (d : Z) :
  dist s i j = Done d → (i < length s)%nat ∧ (j < length s)%nat.
Proof.
  unfold dist, node. intros H.
  destruct (s !! i) eqn:Ei; [ | done ]. destruct (s !! j) eqn:Ej; [ | done ].
  apply lookup_lt_Some in Ei, Ej. done.
Qed.

Lemma below_sentinel_coords (s s' : state) :
  coords s' = coords s → below_sentinel s → below_sentinel s'.
Proof.
  intros H Hb i j d Hd. apply (Hb i j). now rewrite <- (dist_coords s s' i j H).
Qed.

(** ** The library sort *)

Lemma isort_rev_sorts : sorts isort_rev.
Proof.
  intros l. unfold isort_rev. destruct (isort_sorts (reverse l)) as [Hp Hs].
  split; [ | done ]. rewrite Hp. apply reverse_Permutation.
Qed.



(** ** A greedy tour that the local search leaves alone *)



(** ** Instances of more than [K_CANDIDATES] nodes: no fault *)

Lemma bind_safe {A B} (m : outcome A) (f : A → outcome B) :
  m ≠ Fault → (∀ a, m = Done a → f a ≠ Fault) → m ≫= f ≠ Fault.
Proof. destruct m as [a | | ]; cbn; intros H1 H2; [ now apply H2 | done | done ]. Qed.

Lemma for_range_safe {St} (I : St → Prop) (body : nat → St → outcome St)
    (n lo : nat) (s : St) :
  I s →
  (∀ i s, (lo ≤ i < lo + n)%nat → I s →
     body i s ≠ Fault ∧ ∀ s', body i s = Done s' → I s') →
  for_range body lo n s ≠ Fault ∧ ∀ s', for_range body lo n s = Done s' → I s'.
Proof.
  revert lo s. induction n as [ | n IH ]; intros lo s Hs Hbody; cbn [for_range].
  - split; [ done | ]. now intros s' [= <-].
  - destruct (Hbody lo s ltac:(lia) Hs) as [Hsafe Hnext].
    destruct (body lo s) as [s1 | | ]; cbn; [ | done | done ].
    apply IH; [ now apply Hnext | ]. intros i t Hi. apply Hbody. lia.
Qed.

Lemma linked_insert (s : state) (i : nat) (n' : Node.t) (p q : nat) :
  linked s → Node.prev n' = Some p → Node.next n' = Some q →
  (p < length s)%nat → (q < length s)%nat → linked (<[i := n']> s).
Proof.
  intros Hl Hp Hq Hpl Hql j n Ej. rewrite length_insert.
  destruct (decide (j = i)) as [-> | Hne].
  - assert (Hi : (i < length s)%nat).
    { apply lookup_lt_Some in Ej. now rewrite length_insert in Ej. }
    rewrite list_lookup_insert_eq in Ej by done. injection Ej as <-.
    now exists p, q.
  - rewrite list_lookup_insert_ne in Ej by done. now apply (Hl j).
Qed.

Lemma linked_get_next (s : state) (i : nat) :
  linked s → (i < length s)%nat → ∃ q, get_next s i = Done q ∧ (q < length s)%nat.
Proof.
  intros Hl Hi. destruct (lookup_lt_is_Some_2 s i Hi) as [n En].
  destruct (Hl i n En) as (p & q & Hp & Hq & Hpl & Hql).
  exists q. unfold get_next, node. rewrite En. cbn. now rewrite Hq.
Qed.

Lemma update_next_linked (s : state) (i v : nat) :
  linked s → (i < length s)%nat → (v < length s)%nat →
  ∃ s', update s i (λ n, Node.set_next n (Some v)) = Done s' ∧ linked s' ∧
        length s' = length s.
Proof.
  intros Hl Hi Hv. destruct (update_Done s i (λ n, Node.set_next n (Some v)) Hi)
    as (n & En & ->).
  destruct (Hl i n En) as (p & q & Hp & Hq & Hpl & Hql).
  eexists. split; [ done | ]. split; [ | now rewrite length_insert ].
  now apply (linked_insert s i _ p v).
Qed.

Lemma update_prev_linked (s : state) (i v : nat) :
  linked s → (i < length s)%nat → (v < length s)%nat →
  ∃ s', update s i (λ n, Node.set_prev n (Some v)) = Done s' ∧ linked s' ∧
        length s' = length s.
Proof.
  intros Hl Hi Hv. destruct (update_Done s i (λ n, Node.set_prev n (Some v)) Hi)
    as (n & En & ->).
  destruct (Hl i n En) as (p & q & Hp & Hq & Hpl & Hql).
  eexists. split; [ done | ]. split; [ | now rewrite length_insert ].
  now apply (linked_insert s i _ v q).
Qed.

Lemma reverse_loop_safe (fuel c p : nat) (s : state) :
  linked s → (p < length s)%nat →
  reverse_loop fuel c p s ≠ Fault ∧
  ∀ s', reverse_loop fuel c p s = Done s' → linked s' ∧ length s' = length s.
Proof.
  revert p s. induction fuel as [ | fuel IH ]; intros p s Hl Hp;
    rewrite reverse_loop_unfold; destruct (decide (p ≠ c)) as [Hne | Heq];
    try (split; [ done | ]; try done; now intros s' [= <-]).
  destruct (lookup_lt_is_Some_2 s p Hp) as [n En].
  destruct (Hl p n En) as (a & b & Ha & Hb & Hal & Hbl).
  unfold node. rewrite En, bind_Done_l, Hb. cbn [link]. rewrite bind_Done_l.
  destruct (IH b (<[p := Node.set_prev (Node.set_next n (Node.prev n)) (Some b)]> s))
    as [Hsafe Hdone].
  - now apply (linked_insert s p _ b a).
  - now rewrite length_insert.
  - split; [ done | ]. intros s' Hs'. destruct (Hdone s' Hs') as [H1 H2].
    split; [ done | ]. now rewrite length_insert in H2.
Qed.

Lemma reverse_segment_safe (fuel a b c d : nat) (s : state) :
  linked s → (a < length s)%nat → (b < length s)%nat → (c < length s)%nat →
  (d < length s)%nat →
  reverse_segment fuel a b c d s ≠ Fault ∧
  ∀ s', reverse_segment fuel a b c d s = Done s' → linked s'.
Proof.
  intros Hl Ha Hb Hc Hd. unfold reverse_segment.
  destruct (reverse_loop_safe fuel c b s Hl Hb) as [Hsafe Hdone].
  destruct (reverse_loop fuel c b s) as [s1 | | ]; cbn; [ | done | done ].
  destruct (Hdone s1 eq_refl) as [Hl1 L1].
  destruct (update_next_linked s1 a c Hl1) as (s2 & E2 & Hl2 & L2); try lia.
  rewrite E2, bind_Done_l.
  destruct (update_prev_linked s2 b d Hl2) as (s3 & E3 & Hl3 & L3); try lia.
  rewrite E3, bind_Done_l.
  destruct (update_prev_linked s3 c a Hl3) as (s4 & E4 & Hl4 & L4); try lia.
  rewrite E4, bind_Done_l.
  destruct (update_next_linked s4 d b Hl4) as (s5 & E5 & Hl5 & L5); try lia.
  rewrite E5. split; [ done | ]. now intros s' [= <-].
Qed.

Lemma candidates_written_payloads (s s' : state) :
  payloads s' = payloads s → candidates_written s → candidates_written s'.
Proof.
  intros H Hc i n' En' k Hk. rewrite (payloads_length _ _ H).
  assert (Hi : (i < length s)%nat).
  { apply lookup_lt_Some in En'. now rewrite (payloads_length _ _ H) in En'. }
  destruct (lookup_lt_is_Some_2 s i Hi) as [n En].
  destruct (payloads_lookup s s' i n H En) as (n'' & En'' & Hp).
  assert (n'' = n') as -> by congruence.
  unfold payload in Hp. injection Hp as _ _ _ Hcc Hcs.
  rewrite Hcs. apply (Hc i n En). now rewrite <- Hcc.
Qed.

Lemma two_opt_try_safe (fuel a b k : nat) (st : state * bool) (na : Node.t) :
  linked st.1 → candidates_written st.1 →
  st.1 !! a = Some na → (b < length st.1)%nat → (k < Node.cand_count na)%nat →
  two_opt_try fuel a b k st ≠ Fault ∧
  ∀ st', two_opt_try fuel a b k st = Done st' → linked st'.1.
Proof.
  intros Hl Hc Ea Hb Hk. unfold two_opt_try.
  pose proof (lookup_lt_Some _ _ _ Ea) as Ha.
  unfold node. rewrite Ea, bind_Done_l.
  destruct (Hc a na Ea k Hk) as (e & Ee & Hto).
  unfold aget. rewrite Ee, bind_Done_l.
  destruct (linked_get_next st.1 (Edge.to e) Hl Hto) as (d & Ed & Hd).
  rewrite Ed, bind_Done_l.
  destruct (decide _) as [ | Hskip ]; [ split; [ done | now intros st' [= <-] ] | ].
  destruct (dist_Done st.1 a b Ha Hb) as [dab ->].
  destruct (dist_Done st.1 (Edge.to e) d Hto Hd) as [dcd ->].
  destruct (dist_Done st.1 a (Edge.to e) Ha Hto) as [dac ->].
  destruct (dist_Done st.1 b d Hb Hd) as [dbd ->].
  rewrite !bind_Done_l.
  destruct (exceeds_tolerance _); [ | split; [ done | now intros st' [= <-] ] ].
  destruct (reverse_segment_safe fuel a b (Edge.to e) d st.1 Hl Ha Hb Hto Hd)
    as [Hsafe Hdone].
  destruct (reverse_segment fuel a b (Edge.to e) d st.1) as [s1 | | ]; cbn;
    [ | done | done ].
  split; [ done | ]. intros st' [= <-]. now apply Hdone.
Qed.

Lemma two_opt_node_safe (fuel i : nat) (st : state * bool) :
  linked st.1 → candidates_written st.1 → (i < length st.1)%nat →
  two_opt_node fuel i st ≠ Fault ∧
  ∀ st', two_opt_node fuel i st = Done st' → linked st'.1.
Proof.
  intros Hl Hc Hi. unfold two_opt_node.
  destruct (linked_get_next st.1 i Hl Hi) as (b & Eb & Hb). rewrite Eb, !bind_Done_l.
  destruct (lookup_lt_is_Some_2 st.1 i Hi) as [na Ea].
  unfold node. rewrite Ea, !bind_Done_l.
  destruct (for_range_safe
              (λ t, linked t.1 ∧ payloads t.1 = payloads st.1)
              (two_opt_try fuel i b) (Node.cand_count na) 0 st) as [Hsafe Hdone].
  - done.
  - intros k t Hk [Hlt Hpt].
    destruct (payloads_lookup st.1 t.1 i na Hpt Ea) as (na' & Ea' & Hp).
    unfold payload in Hp. injection Hp as _ _ _ Hcc _.
    destruct (two_opt_try_safe fuel i b k t na') as [H1 H2]; try done.
    + now apply (candidates_written_payloads st.1).
    + now rewrite (payloads_length _ _ Hpt).
    + rewrite Hcc. lia.
    + split; [ done | ]. intros t' Ht'. split; [ now apply H2 | ].
      apply two_opt_try_payloads in Ht'. congruence.
  - split; [ done | ]. intros st' Hst'. now apply Hdone.
Qed.

Lemma two_opt_pass_safe (fuel : nat) (s : state) :
  linked s → candidates_written s →
  two_opt_pass fuel s ≠ Fault ∧
  ∀ r, two_opt_pass fuel s = Done r → linked r.1.
Proof.
  intros Hl Hc. unfold two_opt_pass.
  destruct (for_range_safe
              (λ t : state * bool, linked t.1 ∧ payloads t.1 = payloads s)
              (two_opt_node fuel) (length s) 0 (s, false)) as [Hsafe Hdone].
  - done.
  - intros i t Hi [Hlt Hpt].
    destruct (two_opt_node_safe fuel i t) as [H1 H2]; try done.
    + now apply (candidates_written_payloads s).
    + rewrite (payloads_length _ _ Hpt). lia.
    + split; [ done | ]. intros t' Ht'. split; [ now apply H2 | ].
      apply two_opt_node_payloads in Ht'. congruence.
  - split; [ done | ]. intros r Hr. now apply Hdone.
Qed.

Lemma two_opt_local_search_safe (passes fuel : nat) (s : state) :
  linked s → candidates_written s →
  two_opt_local_search passes fuel s ≠ Fault ∧
  ∀ s', two_opt_local_search passes fuel s = Done s' → linked s'.
Proof.
  revert s. induction passes as [ | n IH ]; intros s Hl Hc;
    cbn [two_opt_local_search]; [ done | ].
  destruct (two_opt_pass_safe fuel s Hl Hc) as [Hsafe Hdone].
  destruct (two_opt_pass fuel s) as [[s1 f] | | ] eqn:E; cbn; [ | done | done ].
  specialize (Hdone _ eq_refl). cbn [fst] in Hdone.
  destruct f.
  - apply IH; [ done | ]. apply (candidates_written_payloads s); [ | done ].
    now apply (two_opt_pass_payloads fuel s (s1, true)).
  - split; [ done | ]. now intros s' [= <-].
Qed.

Lemma tour_length_loop_safe (fuel : nat) (s : state) (start curr : nat) (acc : Z) :
  linked s → (curr < length s)%nat →
  tour_length_loop fuel s start curr acc ≠ Fault.
Proof.
  intros Hl. revert curr acc. induction fuel as [ | fuel IH ]; intros curr acc Hc;
    cbn [tour_length_loop]; [ done | ].
  destruct (linked_get_next s curr Hl Hc) as (q & Eq & Hq). rewrite Eq, bind_Done_l.
  destruct (dist_Done s curr q Hc Hq) as [d ->]. rewrite bind_Done_l.
  destruct (decide _); [ now apply IH | done ].
Qed.

Lemma valid_tour_linked (s : state) : valid_tour s → linked s.
Proof.
  intros [Hli _] i n En. pose proof (lookup_lt_Some _ _ _ En) as Hi.
  destruct (links_inverse_lookup s i Hli Hi) as [H1 H2].
  unfold get_prev, get_next, node in H1, H2. rewrite En in H1, H2. cbn in H1, H2.
  destruct (Node.prev n) as [p | ]; [ | done ].
  destruct (Node.next n) as [q | ]; [ | done ].
  cbn in H1, H2. exists p, q. repeat split; try done.
  - destruct (s !! p) eqn:E; [ | done ]. now apply lookup_lt_Some in E.
  - destruct (s !! q) eqn:E; [ | done ]. now apply lookup_lt_Some in E.
Qed.

Lemma linked_check (s : state) : linked_b s = true → linked s.
Proof.
  unfold linked_b. rewrite forallb_forall. intros H i n En.
  specialize (H n (proj1 (list_elem_of_In _ _) (list_elem_of_lookup_2 _ _ _ En))).
  destruct (Node.prev n) as [p | ]; [ | done ].
  destruct (Node.next n) as [q | ]; [ | done ].
  apply andb_true_iff in H as [Hp Hq].
  apply bool_decide_eq_true in Hp, Hq. now exists p, q.
Qed.



(** ** The ids are never read *)

Lemma for_range_map {St St'} (g : St → St') (body : nat → St → outcome St)
    (body' : nat → St' → outcome St') (n lo : nat) (s : St) :
  (∀ i s, body' i (g s) = outcome_map g (body i s)) →
  for_range body' lo n (g s) = outcome_map g (for_range body lo n s).
Proof.
  intros H. revert lo s. induction n as [ | n IH ]; intros lo s; cbn [for_range];
    [ done | ].
  rewrite H. unfold outcome_map at 1.
  destruct (body lo s) as [s1 | | ]; cbn; [ apply IH | done | done ].
Qed.

Lemma for_range_ext {St} (body body' : nat → St → outcome St) (n lo : nat) (s : St) :
  (∀ i s, body i s = body' i s) → for_range body lo n s = for_range body' lo n s.
Proof.
  intros H. apply (for_range_ext_inv body body' (λ _ _, True)); [ done | ].
  intros i t _ _. split; [ apply H | done ].
Qed.

Lemma strip_ids_length (s : state) : length (strip_ids s) = length s.
Proof. unfold strip_ids. apply length_fmap. Qed.

Lemma strip_ids_coords (s : state) : coords (strip_ids s) = coords s.
Proof. unfold coords, strip_ids. rewrite <- list_fmap_compose. reflexivity. Qed.

Lemma strip_ids_dist (s : state) (i j : nat) : dist (strip_ids s) i j = dist s i j.
Proof. apply dist_coords, strip_ids_coords. Qed.

Lemma strip_ids_node (s : state) (i : nat) :
  node (strip_ids s) i = outcome_map strip (node s i).
Proof.
  unfold node, strip_ids, outcome_map. rewrite list_lookup_fmap.
  now destruct (s !! i).
Qed.

Lemma strip_ids_get_next (s : state) (i : nat) :
  get_next (strip_ids s) i = get_next s i.
Proof.
  unfold get_next. rewrite strip_ids_node. unfold outcome_map.
  now destruct (node s i).
Qed.

Lemma strip_ids_update (s : state) (i : nat) (f : Node.t → Node.t) :
  (∀ n, f (strip n) = strip (f n)) →
  update (strip_ids s) i f = outcome_map strip_ids (update s i f).
Proof.
  intros Hf. unfold update. rewrite strip_ids_node. unfold outcome_map.
  destruct (node s i) as [n | | ]; cbn; try done.
  unfold strip_ids. now rewrite list_fmap_insert, Hf.
Qed.

Lemma strip_ids_node_candidates
    (qsort : (Edge.t → Edge.t → Z) → list Edge.t → list Edge.t)
    (s : state) (i : nat) :
  node_candidates qsort (strip_ids s) i = node_candidates qsort s i.
Proof.
  unfold node_candidates. rewrite strip_ids_length.
  rewrite (for_range_ext (cand_step qsort (strip_ids s) i) (cand_step qsort s i));
    [ done | ].
  intros j st. unfold cand_step. now rewrite strip_ids_dist.
Qed.

Lemma strip_ids_build_candidate_set
    (qsort : (Edge.t → Edge.t → Z) → list Edge.t → list Edge.t) (s : state) :
  build_candidate_set qsort (strip_ids s)
  = outcome_map strip_ids (build_candidate_set qsort s).
Proof.
  unfold build_candidate_set. rewrite strip_ids_length.
  apply for_range_map. intros i t. rewrite strip_ids_node_candidates.
  destruct (node_candidates qsort t i) as [c | | ]; cbn; try done.
  now apply strip_ids_update.
Qed.

Lemma strip_ids_build_initial_tour (s : state) (order : array nat) :
  build_initial_tour (strip_ids s) order = build_initial_tour s order.
Proof.
  unfold build_initial_tour. cbv zeta. rewrite strip_ids_length.
  destruct (aset _ _ _) as [vis | | ]; cbn; try done.
  destruct (aset _ _ _) as [ord | | ]; cbn; try done.
  rewrite (for_range_ext (greedy_step (strip_ids s)) (greedy_step s)).
  - destruct (for_range _ _ _ _) as [g | | ]; cbn; try done.
    destruct (aget _ _) as [z | | ]; cbn; try done.
    destruct (aget _ _) as [a | | ]; cbn; try done.
    now rewrite strip_ids_dist.
  - intros k g. unfold greedy_step. rewrite strip_ids_length.
    rewrite (for_range_ext
               (nearest_step (strip_ids s) (Greedy.visited g) (Greedy.current g))
               (nearest_step s (Greedy.visited g) (Greedy.current g)));
      [ done | ].
    intros j best. unfold nearest_step. now rewrite strip_ids_dist.
Qed.

Lemma strip_ids_tour_from_order (s : state) (order : array nat) :
  tour_from_order (strip_ids s) order
  = outcome_map strip_ids (tour_from_order s order).
Proof.
  unfold tour_from_order. cbv zeta. rewrite strip_ids_length.
  apply for_range_map. intros i t.
  destruct (aget order i) as [oi | | ]; cbn; try done.
  destruct (aget order _) as [oj | | ]; cbn; try done.
  rewrite strip_ids_update by done. unfold outcome_map at 1.
  destruct (update t oi _) as [t1 | | ]; cbn; try done.
  now apply strip_ids_update.
Qed.

Lemma strip_ids_reverse_loop (fuel c p : nat) (s : state) :
  reverse_loop fuel c p (strip_ids s)
  = outcome_map strip_ids (reverse_loop fuel c p s).
Proof.
  revert p s. induction fuel as [ | fuel IH ]; intros p s;
    rewrite !reverse_loop_unfold; destruct (decide (p ≠ c)); try done.
  rewrite strip_ids_node. unfold outcome_map at 1.
  destruct (node s p) as [np | | ]; cbn; try done.
  destruct (Node.next np) as [tmp | ]; cbn; try done.
  etransitivity; [ | apply IH ]. f_equal. unfold strip_ids.
  now rewrite list_fmap_insert.
Qed.

Lemma strip_ids_reverse_segment (fuel a b c d : nat) (s : state) :
  reverse_segment fuel a b c d (strip_ids s)
  = outcome_map strip_ids (reverse_segment fuel a b c d s).
Proof.
  unfold reverse_segment. rewrite strip_ids_reverse_loop. unfold outcome_map at 1.
  destruct (reverse_loop fuel c b s) as [s1 | | ]; cbn; try done.
  rewrite strip_ids_update by done. unfold outcome_map at 1.
  destruct (update s1 a _) as [s2 | | ]; cbn; try done.
  rewrite strip_ids_update by done. unfold outcome_map at 1.
  destruct (update s2 b _) as [s3 | | ]; cbn; try done.
  rewrite strip_ids_update by done. unfold outcome_map at 1.
  destruct (update s3 c _) as [s4 | | ]; cbn; try done.
  now apply strip_ids_update.
Qed.

Lemma strip_ids_two_opt_try (fuel a b k : nat) (st : state * bool) :
  two_opt_try fuel a b k (strip_ids st.1, st.2)
  = outcome_map (λ t, (strip_ids t.1, t.2)) (two_opt_try fuel a b k st).
Proof.
  unfold two_opt_try. cbn [fst]. rewrite strip_ids_node. unfold outcome_map at 1.
  destruct (node st.1 a) as [na | | ]; cbn; try done.
  destruct (aget (Node.cands na) k) as [e | | ]; cbn; try done.
  rewrite strip_ids_get_next.
  destruct (get_next st.1 (Edge.to e)) as [d | | ]; cbn; try done.
  destruct (decide _); [ done | ].
  rewrite !strip_ids_dist.
  destruct (dist st.1 a b) as [dab | | ]; cbn; try done.
  destruct (dist st.1 (Edge.to e) d) as [dcd | | ]; cbn; try done.
  destruct (dist st.1 a (Edge.to e)) as [dac | | ]; cbn; try done.
  destruct (dist st.1 b d) as [dbd | | ]; cbn; try done.
  destruct (exceeds_tolerance _); [ | done ].
  rewrite strip_ids_reverse_segment. unfold outcome_map at 1.
  now destruct (reverse_segment fuel a b (Edge.to e) d st.1).
Qed.

Lemma strip_ids_two_opt_node (fuel i : nat) (st : state * bool) :
  two_opt_node fuel i (strip_ids st.1, st.2)
  = outcome_map (λ t, (strip_ids t.1, t.2)) (two_opt_node fuel i st).
Proof.
  unfold two_opt_node. cbn [fst]. rewrite strip_ids_get_next.
  destruct (get_next st.1 i) as [b | | ]; cbn; try done.
  rewrite strip_ids_node. unfold outcome_map at 1.
  destruct (node st.1 i) as [na | | ]; cbn; try done.
  apply (for_range_map (λ t : state * bool, (strip_ids t.1, t.2))).
  intros k t. apply strip_ids_two_opt_try.
Qed.

Lemma strip_ids_two_opt_pass (fuel : nat) (s : state) :
  two_opt_pass fuel (strip_ids s)
  = outcome_map (λ t, (strip_ids t.1, t.2)) (two_opt_pass fuel s).
Proof.
  unfold two_opt_pass. rewrite strip_ids_length.
  apply (for_range_map (λ t : state * bool, (strip_ids t.1, t.2))
           (two_opt_node fuel) (two_opt_node fuel) (length s) 0 (s, false)).
  intros i t. apply strip_ids_two_opt_node.
Qed.

Lemma strip_ids_two_opt_local_search (passes fuel : nat) (s : state) :
  two_opt_local_search passes fuel (strip_ids s)
  = outcome_map strip_ids (two_opt_local_search passes fuel s).
Proof.
  revert s. induction passes as [ | n IH ]; intros s; cbn [two_opt_local_search];
    [ done | ].
  rewrite strip_ids_two_opt_pass. unfold outcome_map at 1.
  destruct (two_opt_pass fuel s) as [[s1 f] | | ]; cbn; try done.
  destruct f; [ apply IH | done ].
Qed.

Lemma strip_ids_tour_length (fuel : nat) (s : state) :
  tour_length fuel (strip_ids s) = tour_length fuel s.
Proof.
  unfold tour_length. generalize 0%nat at 2 4. generalize 0 at 1 2.
  induction fuel as [ | fuel IH ]; intros acc curr; cbn [tour_length_loop]; [ done | ].
  rewrite strip_ids_get_next.
  destruct (get_next s curr) as [q | | ]; cbn; try done.
  rewrite strip_ids_dist. destruct (dist s curr q) as [d | | ]; cbn; try done.
  destruct (decide _); [ apply IH | done ].
Qed.

Lemma strip_ids_main_on
    (qsort : (Edge.t → Edge.t → Z) → list Edge.t → list Edge.t)
    (fuel : nat) (s : state) :
  main_on qsort fuel (strip_ids s) = main_on qsort fuel s.
Proof.
  unfold main_on. cbv zeta. rewrite strip_ids_length, strip_ids_build_candidate_set.
  unfold outcome_map at 1.
  destruct (build_candidate_set qsort s) as [s1 | | ]; cbn; try done.
  rewrite strip_ids_build_initial_tour.
  destruct (build_initial_tour s1 _) as [[order len] | | ]; cbn; try done.
  rewrite strip_ids_tour_from_order. unfold outcome_map at 1.
  destruct (tour_from_order s1 order) as [s2 | | ]; cbn; try done.
  rewrite strip_ids_two_opt_local_search. unfold outcome_map at 1.
  destruct (two_opt_local_search fuel fuel s2) as [s3 | | ]; cbn; try done.
  now rewrite strip_ids_tour_length.
Qed.

(** X14: [main] never reads the ids that [read_tsplib] stored: two coordinate
    sections with the same coordinates in the same order give the same run,
    and the nodes in the printed tour are positions in the coordinate
    section, counted from 0. *)
Theorem main_ignores_ids
    (qsort : (Edge.t → Edge.t → Z) → list Edge.t → list Edge.t)
    (fuel : nat) (records records' : list (Z * Q * Q)) :
  (λ r : Z * Q * Q, (r.1.2, r.2)) <$> records
  = (λ r : Z * Q * Q, (r.1.2, r.2)) <$> records' →
  main qsort fuel records = main qsort fuel records'.
Proof.
  intros H.
  change (main_on qsort fuel (read_tsplib records)
          = main_on qsort fuel (read_tsplib records')).
  rewrite <- (strip_ids_main_on qsort fuel (read_tsplib records)).
  rewrite <- (strip_ids_main_on qsort fuel (read_tsplib records')).
  assert (E : ∀ l : list (Z * Q * Q),
            strip_ids (read_tsplib l)
            = (λ p : Q * Q, Node.mk 0 p.1 p.2 0 [] None None)
                <$> ((λ r : Z * Q * Q, (r.1.2, r.2)) <$> l)).
  { intros l. induction l as [ | r l IH ]; [ done | ].
    cbn. f_equal. exact IH. }
  now rewrite !E, H.
Qed.

Lemma main_ignores_ids_witness :
  (λ r : Z * Q * Q, (r.1.2, r.2)) <$> cluster
  = (λ r : Z * Q * Q, (r.1.2, r.2)) <$> ((λ r : Z * Q * Q, (7, r.1.2, r.2)) <$> cluster) ∧
  main isort 30 cluster = main isort 30 ((λ r : Z * Q * Q, (7, r.1.2, r.2)) <$> cluster).
Proof.
  assert (H : (λ r : Z * Q * Q, (r.1.2, r.2)) <$> cluster
              = (λ r : Z * Q * Q, (r.1.2, r.2))
                  <$> ((λ r : Z * Q * Q, (7, r.1.2, r.2)) <$> cluster))
    by (vm_compute; reflexivity).
  split; [ exact H | ].
  exact (main_ignores_ids isort 30 cluster _ H).
Defined.

(** ** When [tour_length] returns *)

Lemma tour_length_loop_returns (fuel : nat) (s : state) (start curr : nat) (acc : Z) :
  linked s → (curr < length s)%nat →
  (∃ L, tour_length_loop fuel s start curr acc = Done L) ↔
  ∃ m, (1 ≤ m ≤ fuel)%nat ∧ steps s m curr = Done start.
Proof.
  intros Hl. revert curr acc. induction fuel as [ | fuel IH ]; intros curr acc Hc.
  - cbn [tour_length_loop]. split; [ intros [L H]; done | intros (m & Hm & _); lia ].
  - cbn [tour_length_loop].
    destruct (linked_get_next s curr Hl Hc) as (q & Eq & Hq).
    rewrite Eq, bind_Done_l.
    destruct (dist_Done s curr q Hc Hq) as [d Ed]. rewrite Ed, bind_Done_l.
    destruct (decide (q ≠ start)) as [Hne | Heq].
    + rewrite (IH q (acc + d) Hq). split.
      * intros (m & Hm & Hs). exists (S m). split; [ lia | ].
        cbn [steps]. now rewrite Eq, bind_Done_l.
      * intros (m & Hm & Hs). destruct m as [ | m ]; [ lia | ].
        cbn [steps] in Hs. rewrite Eq, bind_Done_l in Hs.
        destruct m as [ | m ]; [ cbn in Hs; congruence | ].
        exists (S m). split; [ lia | done ].
    + assert (q = start) as -> by (destruct (decide (q = start)); [ done | contradiction ]).
      split.
      * intros _. exists 1%nat. split; [ lia | ]. cbn [steps]. now rewrite Eq.
      * intros _. eexists. reflexivity.
Qed.

(** X18: on a structure in which every link points to a node, [tour_length]
    returns exactly when following [next] from node 0 comes back to node 0
    (within the iterations allowed), whether or not that walk meets all
    nodes; otherwise its loop does not end. *)
Theorem tour_length_returns_iff (fuel : nat) (s : state) :
  linked s → (0 < length s)%nat →
  ((∃ L, tour_length fuel s = Done L) ↔
   ∃ m, (1 ≤ m ≤ fuel)%nat ∧ steps s m 0 = Done 0%nat) ∧
  (tour_length fuel s = Timeout ↔
   ∀ m, (1 ≤ m ≤ fuel)%nat → steps s m 0 ≠ Done 0%nat).
Proof.
  intros Hl HN. pose proof (tour_length_loop_returns fuel s 0 0 0 Hl HN) as H.
  split; [ exact H | ].
  pose proof (tour_length_loop_safe fuel s 0 0 0 Hl HN) as Hsafe.
  unfold tour_length. split.
  - intros Ht m Hm Hs. destruct (proj2 H (ex_intro _ m (conj Hm Hs))) as [L HL].
    congruence.
  - intros Hno. destruct (tour_length_loop fuel s 0 0 0) as [L | | ] eqn:E;
      [ | done | done ].
    destruct (proj1 H (ex_intro _ L eq_refl)) as (m & Hm & Hs).
    now destruct (Hno m Hm).
Qed.

Lemma tour_length_returns_iff_witness :
  linked cluster_final ∧ (0 < length cluster_final)%nat ∧
  ((∃ L, tour_length 30 cluster_final = Done L) ↔
   ∃ m, (1 ≤ m ≤ 30)%nat ∧ steps cluster_final m 0 = Done 0%nat) ∧
  (tour_length 30 cluster_final = Timeout ↔
   ∀ m, (1 ≤ m ≤ 30)%nat → steps cluster_final m 0 ≠ Done 0%nat).
Proof.
  assert (H1 : linked cluster_final).
  { apply linked_check. vm_compute. reflexivity. }
  assert (H2 : (0 < length cluster_final)%nat) by (vm_compute; lia).
  split; [ exact H1 | ]. split; [ exact H2 | ].
  exact (tour_length_returns_iff 30 cluster_final H1 H2).
Defined.
